(** * MultiKmeansQuantizer (multi_kmeans.py): a shallow embedding

    Tensors of floats are modelled as nested lists of real numbers: the
    arithmetic is exact, rounding is not modelled.  A float result that can
    be infinite or NaN (a division by zero, the mean of an empty tensor) is
    an [FVal].  Python exceptions are a [Result].  Random draws are finite
    distributions, a [Dist].  Autograd is the set of leaves that the graph
    of a tensor reaches, carried by a [Var].  The batch is two dimensional:
    [x] has shape (B, dim) and a tensor of indexes has shape
    (B, num_codebooks), as the docstrings of [refine_indexes] and
    [refine_indexes_stochastic] require. *)

From Stdlib Require Import Reals Lra Lia String.
From stdpp Require Import base list option strings.

(** ** Python exceptions *)

Inductive PyError : Type :=
| AttributeError (attr : string)
| AssertionError
| IndexError
| RuntimeError
| UnboundLocalError (var : string)
| ValueError
| ZeroDivisionError.

Inductive Result (A : Type) : Type :=
| Ok (a : A)
| Raise (e : PyError).
Arguments Ok {A} a.
Arguments Raise {A} e.

#[global] Instance Result_ret : MRet Result := λ A a, Ok a.
#[global] Instance Result_bind : MBind Result :=
  λ A B f m, match m with Ok a => f a | Raise e => Raise e end.

(** [for i in range(n): s = body(i, s)], stopping at the first exception. *)
Fixpoint for_each {S : Type} (l : list nat) (body : nat → S → Result S) (s : S)
  : Result S :=
  match l with
  | [] => Ok s
  | i :: l' => s' ← body i s; for_each l' body s'
  end.

Definition for_range {S : Type} (n : nat) (body : nat → S → Result S) (s : S)
  : Result S := for_each (seq 0 n) body s.

(** ** Float results that may be non-finite *)

Inductive FVal (A : Type) : Type :=
| Finite (a : A)
| NonFinite.
Arguments Finite {A} a.
Arguments NonFinite {A}.

#[global] Instance FVal_bind : MBind FVal :=
  λ A B f m, match m with Finite a => f a | NonFinite => NonFinite end.
#[global] Instance FVal_fmap : FMap FVal :=
  λ A B f m, match m with Finite a => Finite (f a) | NonFinite => NonFinite end.

(** [a / b] on floats: inf or nan when [b] is zero. *)
Definition fdiv (a b : R) : FVal R :=
  if Req_dec_T b 0 then NonFinite else Finite (a / b)%R.

(** ** Vectors and reductions *)

Abbreviation vec := (list R).

Definition Rsum (l : list R) : R := foldr Rplus 0%R l.
Definition Rsum2 (t : list (list R)) : R := Rsum (Rsum <$> t).
Definition Rsum3 (t : list (list (list R))) : R := Rsum (Rsum2 <$> t).

Definition vadd (u v : vec) : vec := zip_with Rplus u v.
Definition vsub (u v : vec) : vec := zip_with Rminus u v.
Definition vzero (n : nat) : vec := replicate n 0%R.

(** Component [i] of a vector, 0 beyond its length. *)
Definition vnth (v : vec) (i : nat) : R := default 0%R (v !! i).

(** [(v ** 2).sum(dim=-1)] *)
Definition sumsq (v : vec) : R := Rsum ((λ a, a * a)%R <$> v).

(** [t.sum(dim=...)] over a list of vectors of length [n] *)
Definition vsum (n : nat) (vs : list vec) : vec := foldr vadd (vzero n) vs.

Definition tmap2 {A B : Type} (f : A → B) : list (list A) → list (list B) :=
  fmap (M := list) (fmap (M := list) f).
Definition tmap3 {A B : Type} (f : A → B)
  : list (list (list A)) → list (list (list B)) := fmap (M := list) (tmap2 f).

(** [t.mean()] of all the elements of a tensor given flattened *)
Definition fmean (l : list R) : FVal R := fdiv (Rsum l) (INR (length l)).

(** [t.argmax(dim=-1)]: the index of the first maximal value *)
Fixpoint argmax_from (best_i : nat) (best : R) (i : nat) (l : list R) : nat :=
  match l with
  | [] => best_i
  | v :: l' =>
      if Rlt_dec best v then argmax_from i v (S i) l'
      else argmax_from best_i best (S i) l'
  end.

Definition argmax (l : list R) : Result nat :=
  match l with
  | [] => Raise IndexError
  | v :: l' => Ok (argmax_from 0 v 1 l')
  end.

(** ** The quantizer *)

Record MultiKmeansQuantizer : Type := mkQuantizer {
  dim : nat;
  codebook_size : nat;
  num_codebooks : nat;
  centers : list (list vec);      (* (num_codebooks, codebook_size, dim) *)
  frame_entropy_scale : R
}.

(** A tensor of shape (C, K, D). *)
Definition shape3 (C K D : nat) (t : list (list vec)) : Prop :=
  length t = C ∧ Forall (λ cb, length cb = K ∧ Forall (λ v, length v = D) cb) t.

(** A tensor of shape (B, C). *)
Definition shape2 {A : Type} (B C : nat) (t : list (list A)) : Prop :=
  length t = B ∧ Forall (λ row, length row = C) t.

(** Every entry of the tensor is a probability vector. *)
Definition prob_vectors (P : list (list (list R))) : Prop :=
  Forall (Forall (λ z, Forall (λ v, 0 <= v)%R z ∧ Rsum z = 1%R)) P.


(** The shape that [__init__] gives to [centers]. *)
Definition wf (q : MultiKmeansQuantizer) : Prop :=
  shape3 (num_codebooks q) (codebook_size q) (dim q) (centers q).

(** Every index of a code tensor lies in {0..codebook_size-1}. *)
Definition in_range (K : nat) (indexes : list (list nat)) : Prop :=
  Forall (Forall (λ k, k < K)) indexes.

#[global] Instance shape3_dec C K D t : Decision (shape3 C K D t).
Proof. unfold shape3. apply _. Defined.
#[global] Instance shape2_dec {A : Type} B C (t : list (list A)) :
  Decision (shape2 B C t).
Proof. unfold shape2. apply _. Defined.
#[global] Instance wf_dec q : Decision (wf q).
Proof. unfold wf. apply _. Defined.
#[global] Instance in_range_dec K indexes : Decision (in_range K indexes).
Proof. unfold in_range. apply _. Defined.

(** [__init__]: [randn c k d] is the standard normal draw of [torch.randn]
    at position (c, k, d); [dim ** -0.5] raises on [dim = 0]. *)
Definition init (dim codebook_size num_codebooks : nat) (randn : nat → nat → nat → R)
  : Result MultiKmeansQuantizer :=
  if decide (dim = 0) then Raise ZeroDivisionError
  else Ok {| dim := dim;
             codebook_size := codebook_size;
             num_codebooks := num_codebooks;
             centers :=
               (λ c, (λ k, (λ d, / sqrt (INR dim) * randn c k d)%R <$> seq 0 dim)
                       <$> seq 0 codebook_size) <$> seq 0 num_codebooks;
             frame_entropy_scale := 0%R |}.

(** [t[c, k, :]] *)
Definition get_row (t : list (list vec)) (c k : nat) : Result vec :=
  match t !! c ≫= (.!! k) with
  | Some v => Ok v
  | None => Raise IndexError
  end.

(** [t[c, k, :] = v] *)
Definition set_row (t : list (list vec)) (c k : nat) (v : vec)
  : Result (list (list vec)) :=
  match t !! c with
  | Some cb =>
      if decide (k < length cb) then Ok (<[c := <[k := v]> cb]> t)
      else Raise IndexError
  | None => Raise IndexError
  end.

Definition with_centers (q : MultiKmeansQuantizer) (t : list (list vec))
  : MultiKmeansQuantizer :=
  {| dim := dim q; codebook_size := codebook_size q;
     num_codebooks := num_codebooks q; centers := t;
     frame_entropy_scale := frame_entropy_scale q |}.

(** [get_product_quantizer]; [randn] is the draw of the new instance's
    [__init__], every entry of which the loops overwrite. *)
Definition get_product_quantizer (q : MultiKmeansQuantizer)
    (randn : nat → nat → nat → R) : Result MultiKmeansQuantizer :=
  let new_codebook_size := codebook_size q ^ 2 in
  let new_num_codebooks := num_codebooks q / 2 in
  ans ← init (dim q) new_codebook_size new_num_codebooks randn;
  new_centers ←
    for_range new_num_codebooks (λ c_out t,
      let c_in1 := 2 * c_out in
      let c_in2 := 2 * c_out + 1 in
      for_range (codebook_size q) (λ k_in1 t,
        for_range (codebook_size q) (λ k_in2 t,
          let k_out := k_in1 * codebook_size q + k_in2 in
          v1 ← get_row (centers q) c_in1 k_in1;
          v2 ← get_row (centers q) c_in2 k_in2;
          set_row t c_out k_out (vadd v1 v2)) t) t)
      (centers ans);
  mret (with_centers ans new_centers).

(** [torch.gather(centers_expanded, dim=2, index=indexes_expanded)] for one
    frame: the chosen center of every codebook; an index outside the
    codebook raises. *)
Definition gather_centers (cs : list (list vec)) (code : list nat)
  : Result (list vec) :=
  mapM (λ '(cb, k), match cb !! k with
                    | Some v => Ok v
                    | None => Raise RuntimeError
                    end) (zip cs code).

(** [decode]: the sum over the codebooks of the chosen centers. *)
Definition decode (q : MultiKmeansQuantizer) (code : list (list nat))
  : Result (list vec) :=
  cur ← mapM (gather_centers (centers q)) code;
  mret (vsum (dim q) <$> cur).

(** The tensors of [refine_indexes], named as in the source; the singleton
    axes of the source's 4-d tensors are dropped. *)

(** [cur_centers]: (B, num_codebooks, dim) *)
Definition cur_centers (q : MultiKmeansQuantizer) (indexes : list (list nat))
  : Result (list (list vec)) :=
  mapM (gather_centers (centers q)) indexes.

(** [x_err = cur_centers.sum(dim=1) - x]: (B, dim) *)
Definition x_err (q : MultiKmeansQuantizer) (cur : list (list vec)) (x : list vec)
  : list vec :=
  zip_with (λ cs xb, vsub (vsum (dim q) cs) xb) cur x.

(** [modified_errs = x_err - cur_centers + all_centers]:
    (B, num_codebooks, codebook_size, dim) *)
Definition modified_errs (xerr : list vec) (cur : list (list vec))
    (all_centers : list (list vec)) : list (list (list vec)) :=
  zip_with (λ e cs,
    zip_with (λ cu cb, (λ ce, vadd (vsub e cu) ce) <$> cb) cs all_centers)
    xerr cur.

(** [(modified_errs ** 2).sum(dim=-1)]: (B, num_codebooks, codebook_size) *)
Definition modified_sumsq_errs (q : MultiKmeansQuantizer) (x : list vec)
    (indexes : list (list nat)) : Result (list (list (list R))) :=
  cur ← cur_centers q indexes;
  mret (tmap3 sumsq (modified_errs (x_err q cur x) cur (centers q))).

Definition refine_indexes (q : MultiKmeansQuantizer) (x : list vec)
    (indexes : list (list nat)) : Result (list (list nat)) :=
  errs ← modified_sumsq_errs q x indexes;
  let modified_neg_sumsq_errs := tmap3 Ropp errs in
  mapM (mapM argmax) modified_neg_sumsq_errs.

(** The squared reconstruction error of every frame of a code tensor:
    [((decode(code) - x) ** 2).sum(dim=-1)]. *)
Definition recon_error (q : MultiKmeansQuantizer) (x : list vec)
    (code : list (list nat)) : Result (list R) :=
  r ← decode q code;
  mret (zip_with (λ rb xb, sumsq (vsub rb xb)) r x).

(** ** encode *)

(** [encode]: the assertion on the trailing dimension, then [num_iters]
    deterministic steps from the all-zero codes. *)
Definition encode (q : MultiKmeansQuantizer) (x : list vec) (num_iters : nat)
  : Result (list (list nat)) :=
  if decide (Forall (λ row, length row = dim q) x) then
    let B := length x in
    let indexes := replicate B (replicate (num_codebooks q) 0) in
    for_range num_iters (λ _ indexes, refine_indexes q x indexes) indexes
  else Raise AssertionError.

(** The inner product of two vectors. *)
Definition dot (u v : vec) : R := Rsum (zip_with Rmult u v).

(** The centers of different codebooks are orthogonal to each other. *)
Definition orthogonal_codebooks (q : MultiKmeansQuantizer) : Prop :=
  ∀ i j cbi cbj u v, i ≠ j →
    centers q !! i = Some cbi → centers q !! j = Some cbj →
    u ∈ cbi → v ∈ cbj → dot u v = 0%R.

(** ** Autograd bookkeeping *)

(** The leaves that the autograd graph of a tensor reaches: the parameter
    [centers], the parameter [frame_entropy_scale], the input [x]. *)
Record Leaves : Type := mkLeaves {
  to_centers : bool;
  to_scale : bool;
  to_input : bool
}.

Definition no_leaves : Leaves := mkLeaves false false false.
Definition join_leaves (a b : Leaves) : Leaves :=
  mkLeaves (to_centers a || to_centers b) (to_scale a || to_scale b)
           (to_input a || to_input b).

(** A tensor with the leaves that a gradient through it flows to. *)
Record Var (A : Type) : Type := mkVar { data : A; leaves : Leaves }.
Arguments mkVar {A} data leaves.
Arguments data {A} v.
Arguments leaves {A} v.

(** [t.detach()]: the same values, cut from the graph. *)
Definition detach {A : Type} (v : Var A) : Var A := mkVar (data v) no_leaves.

Definition op1 {A B : Type} (f : A → B) (a : Var A) : Var B :=
  mkVar (f (data a)) (leaves a).
Definition op2 {A B C : Type} (f : A → B → C) (a : Var A) (b : Var B) : Var C :=
  mkVar (f (data a) (data b)) (join_leaves (leaves a) (leaves b)).
Definition op3 {A B C D : Type} (f : A → B → C → D)
    (a : Var A) (b : Var B) (c : Var C) : Var D :=
  mkVar (f (data a) (data b) (data c))
        (join_leaves (join_leaves (leaves a) (leaves b)) (leaves c)).
Definition try_op1 {A B : Type} (f : A → Result B) (a : Var A) : Result (Var B) :=
  b ← f (data a); mret (mkVar b (leaves a)).

(** [self.centers] and [self.frame_entropy_scale] are [nn.Parameter]s. *)
Definition self_centers (q : MultiKmeansQuantizer) : Var (list (list vec)) :=
  mkVar (centers q) (mkLeaves true false false).
Definition self_frame_entropy_scale (q : MultiKmeansQuantizer) : Var R :=
  mkVar (frame_entropy_scale q) (mkLeaves false true false).

(** The input [x], which may or may not require a gradient. *)
Definition input_tensor (x : list vec) (requires_grad : bool) : Var (list vec) :=
  mkVar x (mkLeaves false false requires_grad).

(** ** Finite distributions *)

(** Outcomes with their probabilities. *)
Definition Dist (A : Type) : Type := list (A * R).

Definition dret {A : Type} (a : A) : Dist A := [(a, 1%R)].
Definition dbind {A B : Type} (m : Dist A) (f : A → Dist B) : Dist B :=
  ap ← m; (λ bw : B * R, (bw.1, (ap.2 * bw.2)%R)) <$> f ap.1.

(** Independent draws, one per entry. *)
Fixpoint dsequence {A : Type} (ds : list (Dist A)) : Dist (list A) :=
  match ds with
  | [] => dret []
  | d :: ds' => dbind d (λ a, dbind (dsequence ds') (λ l, dret (a :: l)))
  end.

(** The probability of an event. *)
Definition prob {A : Type} (P : A → bool) (d : Dist A) : R :=
  Rsum ((λ aw : A * R, if P aw.1 then aw.2 else 0%R) <$> d).

Definition support {A : Type} (d : Dist A) : list A := fst <$> d.

(** The total probability. *)
Definition mass {A : Type} (d : Dist A) : R := prob (λ _, true) d.

(** The integers of [0, high), each with probability [1 / high]. *)
Definition uniform (high : nat) : Dist nat :=
  (λ i, (i, (/ INR high)%R)) <$> seq 0 high.

(** [torch.randint(high, (B, C))]: raises unless [0 < high]. *)
Definition randint (high B C : nat) : Result (Dist (list (list nat))) :=
  if decide (high = 0) then Raise RuntimeError
  else Ok (dsequence (replicate B (dsequence (replicate C (uniform high))))).

(** ** softmax and the categorical distribution *)

Definition logsumexp (z : list R) : R := ln (Rsum (exp <$> z)).

Definition softmax (z : list R) : list R :=
  (λ v, exp v / Rsum (exp <$> z))%R <$> z.

Definition log_softmax (z : list R) : list R :=
  (λ v, v - logsumexp z)%R <$> z.

(** [Categorical(logits=l)] normalizes its logits,
    [l - l.logsumexp(dim=-1, keepdim=True)], and [probs] is their softmax. *)
Definition Categorical_probs (logits : list R) : list R :=
  softmax ((λ v, v - logsumexp logits)%R <$> logits).

(** [Categorical(logits=l).sample()] for one frame and codebook: index [k]
    with probability [probs[k]]. *)
Definition Categorical_sample (logits : list R) : Dist nat :=
  zip (seq 0 (length logits)) (Categorical_probs logits).

(** [math.log(n)] of a Python int. *)
Definition math_log (n : nat) : Result R :=
  if decide (n = 0) then Raise ValueError else Ok (ln (INR n)).

(** [t.mean(dim=0)] of a (B, C, K) tensor: NaN everywhere on an empty
    batch. *)
Definition mean_dim0 (C K : nat) (t : list (list (list R)))
  : FVal (list (list R)) :=
  if decide (length t = 0) then NonFinite
  else Finite ((λ c, (λ k,
         (Rsum ((λ frame, default 0%R (frame !! c ≫= (.!! k))) <$> t)
          / INR (length t))%R) <$> seq 0 K) <$> seq 0 C).

(** Elementwise product of two tensors of one shape. *)
Definition tmul3 (s t : list (list (list R))) : list (list (list R)) :=
  zip_with (zip_with (zip_with Rmult)) s t.

(** [t * s] for a tensor [t] and a one-element tensor [s]. *)
Definition tscale (t : list (list (list R))) (s : R) : list (list (list R)) :=
  tmap3 (λ v, v * s)%R t.

(** [1.0e-20] *)
Definition eps : R := (/ 10 ^ 20)%R.

(** ** refine_indexes_stochastic *)

(** The tensor [modified_sumsq_errs] of [refine_indexes_stochastic], built
    as in [refine_indexes], with its graph. *)
Definition tracked_modified_sumsq_errs (q : MultiKmeansQuantizer)
    (x : Var (list vec)) (indexes : list (list nat))
  : Result (Var (list (list (list R)))) :=
  cur_centers ← try_op1 (λ cs, mapM (gather_centers cs) indexes) (self_centers q);
  let x_err := op2 (x_err q) cur_centers x in
  let all_centers := self_centers q in
  let modified_errs := op3 modified_errs x_err cur_centers all_centers in
  mret (op1 (tmap3 sumsq) modified_errs).

Section stochastic_step.
Variable q : MultiKmeansQuantizer.
Variable x : Var (list vec).
(** [modified_sumsq_errs]: (B, num_codebooks, codebook_size) *)
Variable errs : Var (list (list (list R))).

Definition scaled_neg_sumsq_errs_detached : Var (list (list (list R))) :=
  op2 tscale (detach errs)
      (op1 (λ s, - exp (10 * s))%R (self_frame_entropy_scale q)).

Definition codebook_logprobs_detached : Var (list (list (list R))) :=
  op1 (tmap2 log_softmax) scaled_neg_sumsq_errs_detached.

(** [Categorical(logits=codebook_logprobs_detached).sample()] *)
Definition sampled_indexes : Dist (list (list nat)) :=
  dsequence ((λ frame, dsequence (Categorical_sample <$> frame))
               <$> data codebook_logprobs_detached).

Definition codebook_probs_detached : Var (list (list (list R))) :=
  op1 (tmap2 softmax) scaled_neg_sumsq_errs_detached.

(** [-(codebook_logprobs_detached * codebook_probs_detached)
      .sum(dim=-1).mean()] *)
Definition avg_frame_entropy : Var (FVal R) :=
  op1 (λ t, Ropp <$> fmean (concat (tmap2 Rsum t)))
      (op2 tmul3 codebook_logprobs_detached codebook_probs_detached).

Definition scaled_neg_sumsq_errs : Var (list (list (list R))) :=
  op2 tscale errs
      (op1 (λ s, - exp (10 * s))%R (detach (self_frame_entropy_scale q))).

Definition codebook_probs : Var (list (list (list R))) :=
  op1 (tmap2 softmax) scaled_neg_sumsq_errs.

Definition expected_sumsq_term1 : Var R :=
  op1 Rsum3 (op2 tmul3 codebook_probs errs).

Definition expected_sumsq : Var (FVal R) :=
  op1 (λ s, fdiv s (INR (num_codebooks q))) expected_sumsq_term1.

Definition avg_probs : Var (FVal (list (list R))) :=
  op1 (mean_dim0 (num_codebooks q) (codebook_size q)) codebook_probs.

(** [-(avg_probs * (avg_probs + 1.0e-20).log()).sum(dim=1).mean()] *)
Definition class_entropy : Var (FVal R) :=
  op1 (λ ap : FVal (list (list R)),
         p ← ap;
         Ropp <$> fmean ((λ row, Rsum ((λ v, v * ln (v + eps))%R <$> row))
                           <$> p))
      avg_probs.

Definition entropy_loss : Result (Var (FVal R)) :=
  log_K ← math_log (codebook_size q);
  mret (op1 (fmap (λ h, log_K - h)%R) class_entropy).

(** [expected_sumsq / (x ** 2).sum()] *)
Definition reconstruction_loss : Var (FVal R) :=
  op2 (λ (e : FVal R) (sx : R), v ← e; fdiv v sx)
      expected_sumsq (op1 (λ t, Rsum (sumsq <$> t)) x).
End stochastic_step.

Definition refine_indexes_stochastic (q : MultiKmeansQuantizer)
    (x : Var (list vec)) (indexes : list (list nat))
  : Result (Dist (list (list nat)) * Var (FVal R) * Var (FVal R) * Var (FVal R)) :=
  errs ← tracked_modified_sumsq_errs q x indexes;
  let indexes := sampled_indexes q errs in
  entropy_loss ← entropy_loss q errs;
  mret (indexes, entropy_loss, avg_frame_entropy q errs,
        reconstruction_loss q x errs).

(** ** forward *)

(** The loop of [forward]: [last] holds the loss terms assigned by the
    latest iteration, if any. *)
Fixpoint forward_loop (q : MultiKmeansQuantizer) (x : Var (list vec))
    (num_iters : nat) (indexes : list (list nat))
    (last : option (Var (FVal R) * Var (FVal R) * Var (FVal R)))
  : Dist (Result (list (list nat) * Var (FVal R) * Var (FVal R) * Var (FVal R))) :=
  match num_iters with
  | 0 =>
      dret (match last with
            | Some (entropy_loss, frame_entropy, reconstruction_loss) =>
                Ok (indexes, entropy_loss, frame_entropy, reconstruction_loss)
            | None => Raise (UnboundLocalError "entropy_loss")
            end)
  | S n =>
      match refine_indexes_stochastic q x indexes with
      | Ok (d, entropy_loss, frame_entropy, reconstruction_loss) =>
          dbind d (λ indexes',
            forward_loop q x n indexes'
              (Some (entropy_loss, frame_entropy, reconstruction_loss)))
      | Raise e => dret (Raise e)
      end
  end.

(** The initial indexes of [forward]:
    [torch.randint(self.codebook_size - 1, (B, self.num_codebooks))]. *)
Definition initial_indexes (q : MultiKmeansQuantizer) (B : nat)
  : Result (Dist (list (list nat))) :=
  randint (codebook_size q - 1) B (num_codebooks q).

Definition forward (q : MultiKmeansQuantizer) (x : Var (list vec))
    (num_iters : nat)
  : Dist (Result (list (list nat) * Var (FVal R) * Var (FVal R) * Var (FVal R))) :=
  if decide (Forall (λ row, length row = dim q) (data x)) then
    let B := length (data x) in
    match initial_indexes q B with
    | Ok d => dbind d (λ indexes, forward_loop q x num_iters indexes None)
    | Raise e => dret (Raise e)
    end
  else dret (Raise AssertionError).

(** The loss terms that a stochastic step returns on some batch of codes
    in range. *)
Definition step_losses (q : MultiKmeansQuantizer) (x : Var (list vec)) (B : nat)
    (entropy_loss frame_entropy reconstruction_loss : Var (FVal R)) : Prop :=
  ∃ indexes d,
    shape2 B (num_codebooks q) indexes ∧ in_range (codebook_size q) indexes ∧
    refine_indexes_stochastic q x indexes
    = Ok (d, entropy_loss, frame_entropy, reconstruction_loss).

(** ** compute_ref_loss *)

(** The attributes of a [MultiKmeansQuantizer] object: what [__init__] sets
    and the methods of the class.  Its base class [nn.Module] has no
    attribute named [_logits] or [_to_output]. *)
Definition attributes : list string :=
  ["dim"; "codebook_size"; "num_codebooks"; "centers"; "frame_entropy_scale";
   "get_product_quantizer"; "compute_ref_loss"; "forward"; "encode";
   "encode_as_bytes"; "decode"; "refine_indexes";
   "refine_indexes_stochastic"]%string.

(** [self.name], where [impl] is what the attribute would hold. *)
Definition getattr {A : Type} (name : string) (impl : A) : Result A :=
  if decide (name ∈ attributes) then Ok impl else Raise (AttributeError name).

(** [t.reshape(n, k, ...)] of a tensor whose first axis has [n * k] rows. *)
Definition reshape_rows {A : Type} (n k : nat) (l : list A) : list (list A) :=
  (λ i, take k (drop (i * k) l)) <$> seq 0 n.

Section compute_ref_loss.
(** What [self._logits(x)] and [self._to_output()] would compute, of
    shapes (B, num_codebooks * codebook_size) and
    (num_codebooks * codebook_size, dim). *)
Variable _logits : MultiKmeansQuantizer → list vec → Result (list vec).
Variable _to_output : MultiKmeansQuantizer → Result (list vec).

Definition compute_ref_loss (q : MultiKmeansQuantizer) (x : list vec)
  : Result (FVal R) :=
  logits_method ← getattr "_logits" _logits;
  logits ← logits_method q x;
  let logits := reshape_rows (num_codebooks q) (codebook_size q) <$> logits in
  indices ← mapM (mapM argmax) logits;
  to_output_method ← getattr "_to_output" _to_output;
  to_output ← to_output_method q;
  let to_output_reshaped :=
    reshape_rows (num_codebooks q) (codebook_size q) to_output in
  chosen_codebooks ← mapM (gather_centers to_output_reshaped) indices;
  let tot_codebooks := vsum (dim q) <$> chosen_codebooks in
  let tot_error := zip_with vsub tot_codebooks x in
  let tot_error_sumsq := Rsum (sumsq <$> tot_error) in
  let x_tot_sumsq := (Rsum (sumsq <$> x) + eps)%R in
  let rel_tot_error_sumsq := fdiv tot_error_sumsq x_tot_sumsq in
  mret rel_tot_error_sumsq.
End compute_ref_loss.

(** ** Pairing, as the product quantizer's codes are formed *)

(** [pair_up f [a0; a1; a2; a3; ...] = [f a0 a1; f a2 a3; ...]] *)
Fixpoint pair_up {A B : Type} (f : A → A → B) (l : list A) : list B :=
  match l with
  | a :: b :: l' => f a b :: pair_up f l'
  | _ => []
  end.

(** The paired code (k_0·K+k_1, …, k_{C−2}·K+k_{C−1}) of every frame. *)
Definition pair_codes (K : nat) (code : list (list nat)) : list (list nat) :=
  pair_up (λ k1 k2, k1 * K + k2) <$> code.


(** The value that [get_product_quantizer] assigns at [c_out, k_out]. *)
Definition product_center (q : MultiKmeansQuantizer) (c_out k_out : nat) (v : vec)
  : Prop :=
  ∃ k_in1 k_in2 v1 v2,
    k_in1 < codebook_size q ∧ k_in2 < codebook_size q ∧
    k_out = k_in1 * codebook_size q + k_in2 ∧
    get_row (centers q) (2 * c_out) k_in1 = Ok v1 ∧
    get_row (centers q) (2 * c_out + 1) k_in2 = Ok v2 ∧
    v = vadd v1 v2.

(** The positions assigned before the loops of [get_product_quantizer]
    reach the counters [(c, k1, k2)]. *)
Definition assigned (K c k1 k2 : nat) (c' k' : nat) : Prop :=
  ∃ a b, a < K ∧ b < K ∧ k' = a * K + b ∧
         (c' < c ∨ (c' = c ∧ (a < k1 ∨ (a = k1 ∧ b < k2)))).

(** Loop invariant of [get_product_quantizer]: the tensor under
    construction keeps its shape and holds the product centers at every
    assigned position. *)
Definition product_inv (q : MultiKmeansQuantizer) (c k1 k2 : nat)
    (t : list (list vec)) : Prop :=
  shape3 (num_codebooks q / 2) (codebook_size q ^ 2) (dim q) t ∧
  ∀ c' k', assigned (codebook_size q) c k1 k2 c' k' →
           ∃ v, product_center q c' k' v ∧ get_row t c' k' = Ok v.

(** ** Example inputs *)

(** dim = 1, two codebooks with the centers 0 and 3 each. *)
Definition q_overshoot : MultiKmeansQuantizer :=
  {| dim := 1; codebook_size := 2; num_codebooks := 2;
     centers := [ [[0%R]; [3%R]]; [[0%R]; [3%R]] ];
     frame_entropy_scale := 0%R |}.

(** The merge example: dim = 2, centers0 = [[1,0],[0,1]],
    centers1 = [[0,1],[1,0]]. *)
Definition q_merge : MultiKmeansQuantizer :=
  {| dim := 2; codebook_size := 2; num_codebooks := 2;
     centers := [ [[1%R; 0%R]; [0%R; 1%R]]; [[0%R; 1%R]; [1%R; 0%R]] ];
     frame_entropy_scale := 0%R |}.

(** Three codebooks of one center each. *)
Definition q_odd : MultiKmeansQuantizer :=
  {| dim := 1; codebook_size := 1; num_codebooks := 3;
     centers := [ [[1%R]]; [[2%R]]; [[5%R]] ];
     frame_entropy_scale := 0%R |}.

(** One codebook whose two centers are equally far from x = (1, 1). *)
Definition q_balanced : MultiKmeansQuantizer :=
  {| dim := 2; codebook_size := 2; num_codebooks := 1;
     centers := [ [[1%R; 0%R]; [0%R; 1%R]] ];
     frame_entropy_scale := 0%R |}.

(** Four codebooks of one center each. *)
Definition q_four : MultiKmeansQuantizer :=
  {| dim := 1; codebook_size := 1; num_codebooks := 4;
     centers := [ [[1%R]]; [[2%R]]; [[3%R]]; [[4%R]] ];
     frame_entropy_scale := 1%R |}.

(** Two codebooks along the two axes of the plane. *)
Definition q_axes : MultiKmeansQuantizer :=
  {| dim := 2; codebook_size := 2; num_codebooks := 2;
     centers := [ [[1%R; 0%R]; [2%R; 0%R]]; [[0%R; 1%R]; [0%R; 3%R]] ];
     frame_entropy_scale := 0%R |}.

Definition randn0 : nat → nat → nat → R := λ _ _ _, 0%R.

Ltac shape_facts :=
  unfold wf, shape3, shape2, in_range; simpl;
  repeat first [split | constructor | reflexivity | lia | discriminate].

(** Decide the comparisons of concrete reals met by [argmax]. *)
Ltac decide_Rlt :=
  repeat match goal with
         | |- context [Rlt_dec ?a ?b] => destruct (Rlt_dec a b); try lra
         end.

(** * Properties *)

(** ** The exception monad and loops *)

Lemma mapM_Ok {A B : Type} (f : A → Result B) (l : list A) (k : list B) :
  mapM f l = Ok k ↔ Forall2 (λ a b, f a = Ok b) l k.
Proof.
  revert k. induction l as [|a l IH]; intros k; simpl.
  - split.
    + intros [= <-]. constructor.
    + intros H. inversion H. reflexivity.
  - split.
    + destruct (f a) as [b|e] eqn:Hfa; simpl; [|discriminate].
      destruct (mapM f l) as [k'|e] eqn:Hl; simpl; [|discriminate].
      intros [= <-]. constructor; [assumption|]. by apply IH.
    + intros H. inversion H as [|? b ? k' Hfa Hrest]; subst.
      rewrite Hfa. simpl. apply IH in Hrest. rewrite Hrest. reflexivity.
Qed.

Lemma mapM_Ok_total {A B : Type} (f : A → Result B) (l : list A) :
  Forall (λ a, ∃ b, f a = Ok b) l → ∃ k, mapM f l = Ok k.
Proof.
  induction 1 as [|a l [b Hb] _ [k Hk]].
  - by exists [].
  - exists (b :: k). simpl. rewrite Hb. simpl. rewrite Hk. reflexivity.
Qed.

Lemma Forall_weaken {A : Type} (P Q : A → Prop) (l : list A) :
  Forall P l → (∀ a, P a → Q a) → Forall Q l.
Proof. induction 1; constructor; auto. Qed.

Lemma bind_Ok {A B : Type} (m : Result A) (f : A → Result B) (b : B) :
  m ≫= f = Ok b ↔ ∃ a, m = Ok a ∧ f a = Ok b.
Proof.
  destruct m as [a|e]; simpl.
  - split; [eauto|]. by intros (? & [= <-] & ?).
  - split; [discriminate|]. by intros (? & ? & ?).
Qed.

Lemma bind_Ok_l {A B : Type} (a : A) (f : A → Result B) : Ok a ≫= f = f a.
Proof. reflexivity. Qed.

Lemma for_each_seq_inv {S : Type} (I : nat → S → Prop)
    (body : nat → S → Result S) (n a : nat) (s : S) :
  I a s →
  (∀ i s, a ≤ i < a + n → I i s → ∃ s', body i s = Ok s' ∧ I (Datatypes.S i) s') →
  ∃ s', for_each (seq a n) body s = Ok s' ∧ I (a + n) s'.
Proof.
  revert a s. induction n as [|n IH]; intros a s Ha Hstep; simpl.
  - exists s. by rewrite Nat.add_0_r.
  - destruct (Hstep a s) as (s1 & Hb & H1); [lia|done|].
    rewrite Hb. simpl.
    destruct (IH (Datatypes.S a) s1) as (s' & Hs' & HI); [done| |].
    + intros i s0 Hi. apply Hstep. lia.
    + exists s'. split; [done|]. by replace (a + Datatypes.S n) with (Datatypes.S a + n) by lia.
Qed.

Lemma for_range_inv {S : Type} (I : nat → S → Prop)
    (body : nat → S → Result S) (n : nat) (s : S) :
  I 0 s →
  (∀ i s, i < n → I i s → ∃ s', body i s = Ok s' ∧ I (Datatypes.S i) s') →
  ∃ s', for_range n body s = Ok s' ∧ I n s'.
Proof.
  intros H0 Hstep. destruct (for_each_seq_inv I body n 0 s) as (s' & ? & ?); eauto.
  intros i s0 Hi. apply Hstep. lia.
Qed.

(** ** Sums of reals *)

Lemma Rsum_cons (a : R) (l : list R) : Rsum (a :: l) = (a + Rsum l)%R.
Proof. reflexivity. Qed.

Lemma Rsum_app (l k : list R) : Rsum (l ++ k) = (Rsum l + Rsum k)%R.
Proof.
  induction l as [|a l IH]; [unfold Rsum; simpl; lra|].
  rewrite <- app_comm_cons, !Rsum_cons, IH. lra.
Qed.

Lemma Rsum_nonneg (l : list R) : Forall (λ v, 0 <= v)%R l → (0 <= Rsum l)%R.
Proof.
  induction 1 as [|a l Ha _ IH]; [unfold Rsum; simpl; lra|].
  rewrite Rsum_cons. lra.
Qed.

Lemma Rsum_nonneg_zero (l : list R) :
  Forall (λ v, 0 <= v)%R l → (Rsum l <= 0)%R → Forall (λ v, v = 0%R) l.
Proof.
  induction 1 as [|v l Hv Hl IH]; intros Hs; [constructor|].
  rewrite Rsum_cons in Hs. pose proof (Rsum_nonneg l Hl).
  constructor; [lra|]. apply IH. lra.
Qed.

Lemma Rsum_zero {A : Type} (l : list A) : Rsum ((λ _, 0%R) <$> l) = 0%R.
Proof.
  induction l as [|a l IH]; [done|]. rewrite fmap_cons, Rsum_cons, IH. lra.
Qed.

Lemma Rsum_const {A : Type} (c : R) (l : list A) :
  Rsum ((λ _, c) <$> l) = (c * INR (length l))%R.
Proof.
  induction l as [|a l IH]; [unfold Rsum; simpl; lra|].
  rewrite fmap_cons, Rsum_cons, IH, length_cons, S_INR. lra.
Qed.

Lemma Rsum_scale (c : R) (l : list R) :
  Rsum ((λ v, c * v)%R <$> l) = (c * Rsum l)%R.
Proof.
  induction l as [|a l IH]; [unfold Rsum; simpl; lra|].
  rewrite fmap_cons, !Rsum_cons, IH. lra.
Qed.

Lemma Rsum_replicate (n : nat) (v : R) : Rsum (replicate n v) = (INR n * v)%R.
Proof.
  induction n as [|n IH]; [unfold Rsum; simpl; lra|].
  change (replicate (S n) v) with (v :: replicate n v).
  rewrite Rsum_cons, IH, S_INR. lra.
Qed.

Lemma Rsum_fmap_ext {A : Type} (f g : A → R) (l : list A) :
  Forall (λ a, f a = g a) l → Rsum (f <$> l) = Rsum (g <$> l).
Proof. intros H. f_equal. by apply Forall_fmap_ext. Qed.

Lemma Rsum_fmap_le {A : Type} (f g : A → R) (l : list A) :
  Forall (λ a, f a <= g a)%R l → (Rsum (f <$> l) <= Rsum (g <$> l))%R.
Proof.
  induction 1 as [|a l Ha _ IH]; [unfold Rsum; simpl; lra|].
  rewrite !fmap_cons, !Rsum_cons. lra.
Qed.

Lemma Rsum_fmap_plus {A : Type} (f g : A → R) (l : list A) :
  Rsum ((λ x, f x + g x)%R <$> l) = (Rsum (f <$> l) + Rsum (g <$> l))%R.
Proof.
  induction l as [|x l IH]; [unfold Rsum; simpl; lra|].
  rewrite !fmap_cons, !Rsum_cons, IH. lra.
Qed.

Lemma Rsum_fmap_affine {A : Type} (a b : R) (f : A → R) (l : list A) :
  Rsum ((λ x, a * f x + b)%R <$> l)
  = (a * Rsum (f <$> l) + b * INR (length l))%R.
Proof.
  induction l as [|x l IH]; [unfold Rsum; simpl; lra|].
  rewrite !fmap_cons, !Rsum_cons, IH, length_cons, S_INR. lra.
Qed.

Lemma Rsum_swap {A B : Type} (f : A → B → R) (la : list A) (lb : list B) :
  Rsum ((λ a, Rsum ((λ b, f a b) <$> lb)) <$> la)
  = Rsum ((λ b, Rsum ((λ a, f a b) <$> la)) <$> lb).
Proof.
  induction la as [|a la IH].
  - simpl. by rewrite Rsum_zero.
  - rewrite fmap_cons, Rsum_cons, IH, <- Rsum_fmap_plus. f_equal.
Qed.

Lemma Rsum_lookup_seq (l : list R) :
  Rsum ((λ k, default 0%R (l !! k)) <$> seq 0 (length l)) = Rsum l.
Proof.
  induction l as [|a l IH]; [done|].
  rewrite length_cons. change (seq 0 (S (length l))) with (0 :: seq 1 (length l)).
  rewrite fmap_cons, !Rsum_cons, <- fmap_S_seq, <- list_fmap_compose.
  simpl. f_equal. exact IH.
Qed.

Lemma Rsum_insert {A : Type} (f : A → R) (l : list A) (c : nat) (a a' : A) :
  l !! c = Some a →
  Rsum (f <$> <[c := a']> l) = (Rsum (f <$> l) - f a + f a')%R.
Proof.
  revert c. induction l as [|b l IH]; intros [|c] H; simplify_eq/=.
  - lra.
  - rewrite (IH _ H). lra.
Qed.

Lemma elem_le_Rsum (l : list R) (v : R) :
  Forall (λ a, 0 <= a)%R l → v ∈ l → (v <= Rsum l)%R.
Proof.
  induction 1 as [|a l Ha Hl IH]; intros Hv; [by apply elem_of_nil in Hv|].
  rewrite Rsum_cons. pose proof (Rsum_nonneg l Hl).
  apply elem_of_cons in Hv as [->|Hv]; [lra|]. specialize (IH Hv). lra.
Qed.

(** ** Vectors *)

Lemma vec_ext (n : nat) (u v : vec) :
  length u = n → length v = n → (∀ i, i < n → vnth u i = vnth v i) → u = v.
Proof.
  intros Hu Hv H. apply list_eq_same_length with n; [done..|].
  intros i a b Hi Ha Hb. specialize (H i Hi). unfold vnth in H.
  rewrite Ha, Hb in H. exact H.
Qed.

Lemma vnth_ge (v : vec) (i : nat) : length v ≤ i → vnth v i = 0%R.
Proof. intros H. unfold vnth. by rewrite lookup_ge_None_2. Qed.

Lemma vnth_zip_with (f : R → R → R) (u v : vec) (i : nat) :
  f 0%R 0%R = 0%R → length u = length v →
  vnth (zip_with f u v) i = f (vnth u i) (vnth v i).
Proof.
  intros Hf Hl. unfold vnth. rewrite lookup_zip_with.
  destruct (u !! i) as [a|] eqn:Ha; simpl.
  - destruct (lookup_lt_is_Some_2 v i) as [b Hb].
    { rewrite <- Hl. by eapply lookup_lt_Some. }
    by rewrite Hb.
  - rewrite (lookup_ge_None_2 v i); [simpl; by rewrite Hf|].
    rewrite <- Hl. by apply lookup_ge_None.
Qed.

Lemma vnth_vadd (u v : vec) (i : nat) :
  length u = length v → vnth (vadd u v) i = (vnth u i + vnth v i)%R.
Proof. intros. apply (vnth_zip_with Rplus); [lra|done]. Qed.

Lemma vnth_vsub (u v : vec) (i : nat) :
  length u = length v → vnth (vsub u v) i = (vnth u i - vnth v i)%R.
Proof. intros. apply (vnth_zip_with Rminus); [lra|done]. Qed.

Lemma length_vadd (u v : vec) (n : nat) :
  length u = n → length v = n → length (vadd u v) = n.
Proof. intros. unfold vadd. rewrite length_zip_with. lia. Qed.

Lemma length_vsub (u v : vec) (n : nat) :
  length u = n → length v = n → length (vsub u v) = n.
Proof. intros. unfold vsub. rewrite length_zip_with. lia. Qed.

Lemma length_vsum (n : nat) (vs : list vec) :
  Forall (λ v, length v = n) vs → length (vsum n vs) = n.
Proof.
  induction 1 as [|v vs Hv _ IH]; simpl.
  - apply length_replicate.
  - by apply length_vadd.
Qed.

Lemma vnth_vzero (n i : nat) : vnth (vzero n) i = 0%R.
Proof.
  unfold vnth, vzero. destruct (replicate n 0%R !! i) as [a|] eqn:H; [|done].
  apply lookup_replicate in H as [-> _]. done.
Qed.

Lemma vnth_vsum (n : nat) (vs : list vec) (i : nat) :
  Forall (λ v, length v = n) vs →
  vnth (vsum n vs) i = Rsum ((λ v, vnth v i) <$> vs).
Proof.
  induction 1 as [|v vs Hv Hvs IH]; simpl.
  - apply vnth_vzero.
  - rewrite vnth_vadd, IH; [done|]. by rewrite length_vsum.
Qed.

Lemma sumsq_ext (n : nat) (u v : vec) :
  length u = n → length v = n → (∀ i, i < n → vnth u i = vnth v i) →
  sumsq u = sumsq v.
Proof. intros Hu Hv H. by rewrite (vec_ext n u v). Qed.

Lemma sumsq_undo (n : nat) (e cu : vec) :
  length e = n → length cu = n → sumsq (vadd (vsub e cu) cu) = sumsq e.
Proof.
  intros He Hcu. pose proof (length_vsub _ _ n He Hcu) as L.
  apply (sumsq_ext n); [by apply length_vadd|done|].
  intros i _. rewrite vnth_vadd by congruence. rewrite vnth_vsub by congruence.
  lra.
Qed.

(** Swapping the center of codebook [c] moves the residual by the
    difference of the two centers. *)
Lemma vsum_insert (n : nat) (vs : list vec) (c : nat) (v v' xb : vec) :
  Forall (λ u, length u = n) vs → length v' = n → length xb = n →
  vs !! c = Some v →
  vsub (vsum n (<[c := v']> vs)) xb = vadd (vsub (vsub (vsum n vs) xb) v) v'.
Proof.
  intros Hvs Hv' Hxb Hc.
  assert (length v = n) as Hv by (eapply Forall_lookup_1 in Hvs; eauto).
  assert (Forall (λ u, length u = n) (<[c := v']> vs)) as Hvs'
    by (by apply Forall_insert).
  pose proof (length_vsum n vs Hvs) as L1.
  pose proof (length_vsum n _ Hvs') as L2.
  pose proof (length_vsub _ _ n L1 Hxb) as L3.
  pose proof (length_vsub _ _ n L3 Hv) as L4.
  apply (vec_ext n).
  - by apply length_vsub.
  - by apply length_vadd.
  - intros i _.
    rewrite vnth_vadd by congruence. rewrite !vnth_vsub by congruence.
    rewrite !vnth_vsum by done. rewrite (Rsum_insert _ _ _ _ _ Hc). lra.
Qed.

Lemma vadd_assoc (u v w : vec) : vadd (vadd u v) w = vadd u (vadd v w).
Proof.
  unfold vadd. revert v w. induction u as [|a u IH]; intros [|b v] [|c w]; simpl;
    try done.
  rewrite IH. f_equal. lra.
Qed.

(** ** argmax *)

Lemma argmax_from_spec (l : list R) (best_i : nat) (best : R) (i : nat) :
  ∃ vr, ((argmax_from best_i best i l = best_i ∧ vr = best)
         ∨ (∃ j, argmax_from best_i best i l = i + j ∧ l !! j = Some vr))
        ∧ (best <= vr)%R ∧ Forall (λ v, (v <= vr)%R) l.
Proof.
  revert best_i best i. induction l as [|v l IH]; intros best_i best i; simpl.
  - exists best. split; [by left|]. split; [lra|constructor].
  - destruct (Rlt_dec best v) as [Hlt|Hge].
    + destruct (IH i v (S i)) as (vr & Hr & Hle & Hall).
      exists vr. split; [|split; [lra|by constructor]].
      right. destruct Hr as [[-> ->]|(j & -> & Hj)].
      * exists 0. split; [lia|done].
      * exists (S j). split; [lia|done].
    + destruct (IH best_i best (S i)) as (vr & Hr & Hle & Hall).
      exists vr. split; [|split; [lra|constructor; [lra|done]]].
      destruct Hr as [[-> ->]|(j & -> & Hj)]; [by left|].
      right. exists (S j). split; [lia|done].
Qed.

Lemma argmax_spec (l : list R) (k : nat) :
  argmax l = Ok k → ∃ vk, l !! k = Some vk ∧ Forall (λ v, (v <= vk)%R) l.
Proof.
  destruct l as [|v l]; simpl; [discriminate|]. intros [= <-].
  destruct (argmax_from_spec l 0 v 1) as (vr & Hr & Hle & Hall).
  exists vr. split; [|by constructor].
  destruct Hr as [[-> ->]|(j & -> & Hj)]; done.
Qed.

Lemma argmax_total (l : list R) : l ≠ [] → ∃ k, argmax l = Ok k.
Proof. destruct l; [done|]. intros _. simpl. eauto. Qed.

(** ** gather *)

Lemma gather_centers_Ok (cs : list (list vec)) (code : list nat) (cur : list vec) :
  gather_centers cs code = Ok cur
  ↔ length cur = length (zip cs code)
    ∧ ∀ c cb k v, cs !! c = Some cb → code !! c = Some k → cur !! c = Some v →
                  cb !! k = Some v.
Proof.
  unfold gather_centers. rewrite mapM_Ok. split.
  - intros H. split; [symmetry; by eapply Forall2_length|].
    intros c cb k v Hcb Hk Hv.
    assert (zip cs code !! c = Some (cb, k)) as Hz.
    { rewrite lookup_zip_with, Hcb, Hk. done. }
    pose proof (Forall2_lookup_lr _ _ _ _ _ _ H Hz Hv) as Hf. simpl in Hf.
    destruct (cb !! k); by simplify_eq.
  - intros [Hlen H]. apply Forall2_same_length_lookup_2; [done|].
    intros c [cb k] v Hz Hv.
    apply lookup_zip_with_Some in Hz as (cb' & k' & [= <- <-] & Hcb & Hk).
    by rewrite (H c cb k v Hcb Hk Hv).
Qed.

Lemma gather_centers_total (K : nat) (cs : list (list vec)) (code : list nat) :
  Forall (λ cb, length cb = K) cs → Forall (λ k, k < K) code →
  ∃ cur, gather_centers cs code = Ok cur.
Proof.
  intros Hcs Hcode. apply mapM_Ok_total. apply Forall_lookup.
  intros c [cb k] Hz.
  apply lookup_zip_with_Some in Hz as (cb' & k' & [= <- <-] & Hcb & Hk).
  destruct (lookup_lt_is_Some_2 cb k) as [v Hv].
  { rewrite (Forall_lookup_1 _ _ _ _ Hcs Hcb). by eapply Forall_lookup_1 in Hcode. }
  exists v. by rewrite Hv.
Qed.

Lemma gather_centers_lookup cs code cur c cb k :
  gather_centers cs code = Ok cur → cs !! c = Some cb → code !! c = Some k →
  ∃ v, cb !! k = Some v ∧ cur !! c = Some v.
Proof.
  intros [Hlen H]%gather_centers_Ok Hcb Hk.
  destruct (lookup_lt_is_Some_2 cur c) as [v Hv].
  { rewrite Hlen, length_zip_with. apply lookup_lt_Some in Hcb, Hk. lia. }
  exists v. split; [|done]. by eapply H.
Qed.

Lemma gather_centers_length cs code cur C :
  gather_centers cs code = Ok cur → length cs = C → length code = C →
  length cur = C.
Proof.
  intros [Hlen _]%gather_centers_Ok ??. rewrite Hlen, length_zip_with. lia.
Qed.

Lemma gather_centers_dim (C K D : nat) cs code cur :
  shape3 C K D cs → gather_centers cs code = Ok cur →
  Forall (λ v, length v = D) cur.
Proof.
  intros [_ Hcs] [Hlen H]%gather_centers_Ok. apply Forall_lookup. intros c v Hv.
  destruct (lookup_lt_is_Some_2 (zip cs code) c) as [[cb k] Hz].
  { rewrite <- Hlen. by eapply lookup_lt_Some. }
  apply lookup_zip_with_Some in Hz as (cb' & k' & [= <- <-] & Hcb & Hk).
  specialize (H c cb k v Hcb Hk Hv).
  pose proof (Forall_lookup_1 _ _ _ _ Hcs Hcb) as [_ Hd].
  by eapply Forall_lookup_1 in Hd.
Qed.

Lemma gather_centers_insert cs code cur c cb k' v' :
  gather_centers cs code = Ok cur → cs !! c = Some cb → cb !! k' = Some v' →
  gather_centers cs (<[c := k']> code) = Ok (<[c := v']> cur).
Proof.
  intros [Hlen H]%gather_centers_Ok Hcb Hv'. apply gather_centers_Ok. split.
  - rewrite length_insert, Hlen, !length_zip_with, length_insert. done.
  - intros i cbi ki vi Hcbi Hki Hvi.
    destruct (decide (i = c)) as [->|Hne].
    + assert (c < length code) as Hc.
      { apply lookup_lt_Some in Hki. by rewrite length_insert in Hki. }
      rewrite list_lookup_insert_eq in Hki by done.
      rewrite list_lookup_insert_eq in Hvi.
      2:{ rewrite Hlen, length_zip_with. apply lookup_lt_Some in Hcb. lia. }
      by simplify_eq.
    + rewrite list_lookup_insert_ne in Hki by done.
      rewrite list_lookup_insert_ne in Hvi by done. by eapply H.
Qed.

(** ** refine_indexes *)

Lemma recon_error_frame q xb row cur :
  gather_centers (centers q) row = Ok cur →
  recon_error q [xb] [row] = Ok [sumsq (vsub (vsum (dim q) cur) xb)].
Proof. intros H. unfold recon_error, decode. simpl. rewrite H. reflexivity. Qed.

(** What [refine_indexes] computes for frame [b]. *)
Lemma refine_indexes_lookup q x indexes new b xb row nrow :
  refine_indexes q x indexes = Ok new →
  x !! b = Some xb → indexes !! b = Some row → new !! b = Some nrow →
  ∃ cur,
    gather_centers (centers q) row = Ok cur ∧
    length nrow = length cur `min` length (centers q) ∧
    ∀ c k', nrow !! c = Some k' →
      ∃ cb cu, centers q !! c = Some cb ∧ cur !! c = Some cu ∧
        argmax (Ropp <$> (sumsq <$>
          ((λ ce, vadd (vsub (vsub (vsum (dim q) cur) xb) cu) ce) <$> cb)))
        = Ok k'.
Proof.
  unfold refine_indexes, modified_sumsq_errs, cur_centers.
  intros Hr Hx Hrow Hnrow.
  apply bind_Ok in Hr as (errs & He & Hnew).
  apply bind_Ok in He as (cur & Hcur & [= <-]).
  apply mapM_Ok in Hcur, Hnew.
  destruct (Forall2_lookup_l _ _ _ _ _ Hcur Hrow) as (curb & Hcurb & Hg).
  destruct (Forall2_lookup_r _ _ _ _ _ Hnew Hnrow) as (e2 & He2 & Ha).
  apply mapM_Ok in Ha.
  unfold tmap3, tmap2, modified_errs, x_err in He2.
  rewrite !list_lookup_fmap, lookup_zip_with, lookup_zip_with, Hcurb, Hx in He2.
  simpl in He2. injection He2 as <-.
  exists curb. split; [done|]. split.
  { pose proof Ha as Hl. apply Forall2_length in Hl.
    rewrite <- Hl, !length_fmap, length_zip_with. done. }
  intros c k' Hk'.
  destruct (Forall2_lookup_r _ _ _ _ _ Ha Hk') as (e1 & He1 & Harg).
  rewrite !list_lookup_fmap, lookup_zip_with in He1.
  destruct (curb !! c) as [cu|] eqn:Hcu; [|done]. simpl in He1.
  destruct (centers q !! c) as [cb|] eqn:Hcb; [|done]. simpl in He1.
  injection He1 as <-.
  exists cb, cu. done.
Qed.

Lemma refine_indexes_total q x indexes B :
  wf q → shape2 B (dim q) x → shape2 B (num_codebooks q) indexes →
  in_range (codebook_size q) indexes →
  ∃ new, refine_indexes q x indexes = Ok new ∧ length new = B.
Proof.
  intros [HC Hcs] [HxB Hx] [HiB Hi] Hrange.
  unfold refine_indexes, modified_sumsq_errs, cur_centers.
  destruct (mapM_Ok_total (gather_centers (centers q)) indexes) as [cur Hcur].
  { eapply Forall_weaken; [exact Hrange|]. intros row Hrow. simpl in Hrow.
    apply (gather_centers_total (codebook_size q)); [|done].
    eapply Forall_weaken; [exact Hcs|]. by intros cb [? _]. }
  rewrite Hcur. simpl. apply mapM_Ok in Hcur.
  pose proof Hcur as Hlen. apply Forall2_length in Hlen.
  match goal with |- ∃ _, mapM ?f ?l = _ ∧ _ =>
    destruct (mapM_Ok_total f l) as [new Hnew] end.
  2:{ exists new. split; [done|]. apply mapM_Ok, Forall2_length in Hnew.
      rewrite <- Hnew. unfold tmap3, modified_errs, x_err.
      rewrite !length_fmap, !length_zip_with. lia. }
  apply Forall_lookup. intros b e2 He2.
  unfold tmap3, tmap2, modified_errs, x_err in He2.
  rewrite !list_lookup_fmap, lookup_zip_with, lookup_zip_with in He2.
  destruct (cur !! b) as [curb|] eqn:Hcurb; [|done]. simpl in He2.
  destruct (x !! b) as [xb|] eqn:Hxb; [|done]. simpl in He2.
  injection He2 as <-.
  destruct (Forall2_lookup_r _ _ _ _ _ Hcur Hcurb) as (row & Hrow & Hg).
  apply mapM_Ok_total, Forall_lookup. intros c e1 He1.
  rewrite !list_lookup_fmap, lookup_zip_with in He1.
  destruct (curb !! c) as [cu|] eqn:Hcu; [|done]. simpl in He1.
  destruct (centers q !! c) as [cb|] eqn:Hcb; [|done]. simpl in He1.
  injection He1 as <-.
  apply argmax_total.
  destruct (lookup_lt_is_Some_2 row c) as [k0 Hk0].
  { apply lookup_lt_Some in Hcu.
    apply gather_centers_Ok in Hg as [Hl _].
    rewrite Hl, length_zip_with in Hcu. lia. }
  pose proof (Forall_lookup_1 _ _ _ _ Hrange Hrow) as Hr. simpl in Hr.
  pose proof (Forall_lookup_1 _ _ _ _ Hr Hk0) as Hlt. simpl in Hlt.
  pose proof (Forall_lookup_1 _ _ _ _ Hcs Hcb) as [HK _].
  destruct cb; simpl in *; [lia|done].
Qed.

(** The candidate chosen for one codebook, put alone into the code of the
    frame, is not worse than the code of the frame. *)
Lemma refine_frame_swap q xb row cur c cb cu k' :
  wf q → length xb = dim q → length row = num_codebooks q →
  gather_centers (centers q) row = Ok cur →
  centers q !! c = Some cb → cur !! c = Some cu →
  argmax (Ropp <$> (sumsq <$>
    ((λ ce, vadd (vsub (vsub (vsum (dim q) cur) xb) cu) ce) <$> cb))) = Ok k' →
  k' < codebook_size q ∧
  ∃ e_old e_swap,
    recon_error q [xb] [row] = Ok [e_old] ∧
    recon_error q [xb] [<[c := k']> row] = Ok [e_swap] ∧
    (e_swap <= e_old)%R.
Proof.
  intros [HC Hcs] Hxb Hrow Hg Hcb Hcu Harg.
  pose proof (Forall_lookup_1 _ _ _ _ Hcs Hcb) as [HK Hdim].
  pose proof (gather_centers_dim _ _ _ _ _ _ (conj HC Hcs) Hg) as Hcurdim.
  pose proof (length_vsum _ _ Hcurdim) as L1.
  pose proof (length_vsub _ _ _ L1 Hxb) as L2.
  assert (length cu = dim q) as Lcu by (by eapply Forall_lookup_1 in Hcurdim).
  apply argmax_spec in Harg as (vk & Hvk & Hmax).
  rewrite !list_lookup_fmap in Hvk.
  destruct (cb !! k') as [ce'|] eqn:Hce'; [|done]. simpl in Hvk.
  injection Hvk as <-.
  split. { rewrite <- HK. by eapply lookup_lt_Some. }
  destruct (lookup_lt_is_Some_2 row c) as [k0 Hk0].
  { rewrite Hrow, <- HC. by eapply lookup_lt_Some. }
  destruct (gather_centers_lookup _ _ _ _ _ _ Hg Hcb Hk0) as (v & Hv & Hv').
  assert (v = cu) as -> by congruence.
  eexists _, _. split; [by apply recon_error_frame|]. split.
  { apply recon_error_frame. by eapply gather_centers_insert. }
  rewrite (vsum_insert (dim q) cur c cu ce' xb); try done.
  2:{ by eapply Forall_lookup_1 in Hdim. }
  eapply Forall_lookup_1 in Hmax.
  2:{ rewrite !list_lookup_fmap, Hv. done. }
  simpl in Hmax. rewrite (sumsq_undo (dim q)) in Hmax by done. lra.
Qed.

(** C1 (amended): one deterministic refinement step succeeds on codes in
    range and returns codes in range; for every frame and every codebook,
    the index it returns for that codebook, substituted alone into the
    input code tuple, gives a squared reconstruction error less than or
    equal to that of the input code tuple; with a single codebook the
    returned code tuple itself is therefore not worse than the input. *)
Theorem refine_indexes_single_swap q x indexes B :
  wf q → shape2 B (dim q) x → shape2 B (num_codebooks q) indexes →
  in_range (codebook_size q) indexes →
  ∃ new, refine_indexes q x indexes = Ok new ∧
    shape2 B (num_codebooks q) new ∧ in_range (codebook_size q) new ∧
    (∀ b c xb row nrow k', x !! b = Some xb → indexes !! b = Some row →
       new !! b = Some nrow → nrow !! c = Some k' →
       ∃ e_old e_swap,
         recon_error q [xb] [row] = Ok [e_old] ∧
         recon_error q [xb] [<[c := k']> row] = Ok [e_swap] ∧
         (e_swap <= e_old)%R) ∧
    (num_codebooks q = 1 →
     ∀ b xb row nrow, x !! b = Some xb → indexes !! b = Some row →
       new !! b = Some nrow →
       ∃ e_old e_new,
         recon_error q [xb] [row] = Ok [e_old] ∧
         recon_error q [xb] [nrow] = Ok [e_new] ∧
         (e_new <= e_old)%R).
Proof.
  intros Hwf Hx Hi Hrange.
  destruct (refine_indexes_total q x indexes B Hwf Hx Hi Hrange)
    as (new & Hnew & Hlen).
  exists new. split; [done|].
  assert (∀ b xb row nrow c k', x !! b = Some xb → indexes !! b = Some row →
            new !! b = Some nrow → nrow !! c = Some k' →
            length nrow = num_codebooks q ∧ k' < codebook_size q ∧
            ∃ e_old e_swap,
              recon_error q [xb] [row] = Ok [e_old] ∧
              recon_error q [xb] [<[c := k']> row] = Ok [e_swap] ∧
              (e_swap <= e_old)%R) as Hframe.
  { intros b xb row nrow c k' Hxb Hrow Hnrow Hk'.
    destruct (refine_indexes_lookup _ _ _ _ _ _ _ _ Hnew Hxb Hrow Hnrow)
      as (cur & Hg & Hl & Hc).
    destruct (Hc c k' Hk') as (cb & cu & Hcb & Hcu & Harg).
    destruct Hx as [_ Hx]. destruct Hi as [_ Hi].
    pose proof (Forall_lookup_1 _ _ _ _ Hx Hxb) as Lxb.
    pose proof (Forall_lookup_1 _ _ _ _ Hi Hrow) as Lrow. simpl in *.
    split.
    { destruct Hwf as [HC _].
      rewrite Hl, (gather_centers_length _ _ _ _ Hg HC Lrow). lia. }
    by eapply refine_frame_swap. }
  assert (∀ b nrow, new !! b = Some nrow →
            ∃ xb row, x !! b = Some xb ∧ indexes !! b = Some row) as Hdom.
  { intros b nrow Hb. apply lookup_lt_Some in Hb.
    destruct Hx as [Hx _]. destruct Hi as [Hi _].
    destruct (lookup_lt_is_Some_2 x b) as [xb ?]; [lia|].
    destruct (lookup_lt_is_Some_2 indexes b) as [row ?]; [lia|]. eauto. }
  split; [|split; [|split]].
  - split; [done|]. apply Forall_lookup. intros b nrow Hb.
    destruct (Hdom b nrow Hb) as (xb & row & Hxb & Hrow).
    destruct (refine_indexes_lookup _ _ _ _ _ _ _ _ Hnew Hxb Hrow Hb)
      as (cur & Hg & Hl & _).
    destruct Hwf as [HC _]. destruct Hi as [_ Hi].
    pose proof (Forall_lookup_1 _ _ _ _ Hi Hrow) as Lrow. simpl in Lrow.
    rewrite Hl, (gather_centers_length _ _ _ _ Hg HC Lrow). lia.
  - apply Forall_lookup. intros b nrow Hb. apply Forall_lookup. intros c k' Hk'.
    destruct (Hdom b nrow Hb) as (xb & row & Hxb & Hrow).
    by destruct (Hframe b xb row nrow c k' Hxb Hrow Hb Hk') as (_ & ? & _).
  - intros b c xb row nrow k' Hxb Hrow Hb Hk'.
    by destruct (Hframe b xb row nrow c k' Hxb Hrow Hb Hk') as (_ & _ & ?).
  - intros HC1 b xb row nrow Hxb Hrow Hb.
    destruct Hi as [_ Hi].
    pose proof (Forall_lookup_1 _ _ _ _ Hi Hrow) as Lrow. simpl in Lrow.
    destruct nrow as [|k' nrow].
    { destruct (refine_indexes_lookup _ _ _ _ _ _ _ _ Hnew Hxb Hrow Hb)
        as (cur & Hg & Hl & _).
      destruct Hwf as [HC _].
      rewrite (gather_centers_length _ _ _ _ Hg HC Lrow) in Hl.
      simpl in Hl. lia. }
    destruct (Hframe b xb row (k' :: nrow) 0 k' Hxb Hrow Hb eq_refl)
      as (Ln & _ & He).
    destruct nrow; [|simpl in Ln; lia].
    destruct row as [|k0 [|]]; simpl in Lrow; try lia. exact He.
Qed.

Lemma refine_indexes_single_swap_witness :
  (wf q_overshoot ∧ shape2 1 (dim q_overshoot) [[2%R]] ∧
   shape2 1 (num_codebooks q_overshoot) [[0; 0]] ∧
   in_range (codebook_size q_overshoot) [[0; 0]]) ∧
  ∃ new, refine_indexes q_overshoot [[2%R]] [[0; 0]] = Ok new ∧
    shape2 1 (num_codebooks q_overshoot) new ∧
    in_range (codebook_size q_overshoot) new ∧
    (∀ b c xb row nrow k', [[2%R]] !! b = Some xb → [[0; 0]] !! b = Some row →
       new !! b = Some nrow → nrow !! c = Some k' →
       ∃ e_old e_swap,
         recon_error q_overshoot [xb] [row] = Ok [e_old] ∧
         recon_error q_overshoot [xb] [<[c := k']> row] = Ok [e_swap] ∧
         (e_swap <= e_old)%R) ∧
    (num_codebooks q_overshoot = 1 →
     ∀ b xb row nrow, [[2%R]] !! b = Some xb → [[0; 0]] !! b = Some row →
       new !! b = Some nrow →
       ∃ e_old e_new,
         recon_error q_overshoot [xb] [row] = Ok [e_old] ∧
         recon_error q_overshoot [xb] [nrow] = Ok [e_new] ∧
         (e_new <= e_old)%R).
Proof.
  assert (wf q_overshoot ∧ shape2 1 (dim q_overshoot) [[2%R]] ∧
          shape2 1 (num_codebooks q_overshoot) [[0; 0]] ∧
          in_range (codebook_size q_overshoot) [[0; 0]]) as H.
  { unfold wf, shape3, shape2, in_range. simpl.
    repeat first [split | constructor | reflexivity | lia]. }
  split; [exact H|].
  destruct H as (H1 & H2 & H3 & H4).
  exact (refine_indexes_single_swap q_overshoot [[2%R]] [[0; 0]] 1 H1 H2 H3 H4).
Defined.

(** C1 as stated fails: with the centers 0 and 3 in both of two codebooks
    and x = 2, the code (0, 0) has squared error 4; each codebook alone
    prefers 3 (error 1), both switch, and the code (1, 1) decodes to 6,
    squared error 16. *)
Lemma refine_indexes_can_increase_error :
  wf q_overshoot ∧ in_range (codebook_size q_overshoot) [[0; 0]] ∧
  refine_indexes q_overshoot [[2%R]] [[0; 0]] = Ok [[1; 1]] ∧
  recon_error q_overshoot [[2%R]] [[0; 0]] = Ok [4%R] ∧
  recon_error q_overshoot [[2%R]] [[1; 1]] = Ok [16%R] ∧
  ¬ (16 <= 4)%R.
Proof.
  split; [|split; [|split; [|split; [|split]]]].
  - unfold wf, shape3. simpl. repeat first [split | constructor | reflexivity].
  - unfold in_range. simpl. repeat first [constructor | lia].
  - unfold refine_indexes, modified_sumsq_errs, cur_centers. simpl.
    unfold sumsq, vsub, vadd. simpl. decide_Rlt. reflexivity.
  - unfold recon_error, decode. simpl. unfold sumsq, vsub, vadd. simpl.
    do 2 f_equal. lra.
  - unfold recon_error, decode. simpl. unfold sumsq, vsub, vadd. simpl.
    do 2 f_equal. lra.
  - lra.
Qed.

(** ** get_product_quantizer *)

Lemma get_row_Ok (t : list (list vec)) (c k : nat) (v : vec) :
  get_row t c k = Ok v ↔ ∃ cb, t !! c = Some cb ∧ cb !! k = Some v.
Proof.
  unfold get_row. destruct (t !! c) as [cb|]; simpl.
  - destruct (cb !! k) as [w|] eqn:Hk.
    + split; [intros [= <-]; eauto|]. intros (? & [= <-] & ?). congruence.
    + split; [done|]. intros (? & [= <-] & ?). congruence.
  - split; [done|]. by intros (? & ? & ?).
Qed.

Lemma get_row_total (C K D : nat) (t : list (list vec)) (c k : nat) :
  shape3 C K D t → c < C → k < K → ∃ v, get_row t c k = Ok v ∧ length v = D.
Proof.
  intros [HC Ht] Hc Hk.
  destruct (lookup_lt_is_Some_2 t c) as [cb Hcb]; [lia|].
  pose proof (Forall_lookup_1 _ _ _ _ Ht Hcb) as [HK HD].
  destruct (lookup_lt_is_Some_2 cb k) as [v Hv]; [lia|].
  exists v. split; [apply get_row_Ok; eauto|]. by eapply Forall_lookup_1 in HD.
Qed.

Lemma set_row_Ok (C K D : nat) (t : list (list vec)) (c k : nat) (v : vec) :
  shape3 C K D t → c < C → k < K → length v = D →
  ∃ t', set_row t c k v = Ok t' ∧ shape3 C K D t' ∧
        get_row t' c k = Ok v ∧
        ∀ c' k', (c', k') ≠ (c, k) → get_row t' c' k' = get_row t c' k'.
Proof.
  intros [HC Ht] Hc Hk Hv. unfold set_row.
  destruct (lookup_lt_is_Some_2 t c) as [cb Hcb]; [lia|].
  pose proof (Forall_lookup_1 _ _ _ _ Ht Hcb) as [HK HD].
  rewrite Hcb. rewrite decide_True by lia.
  eexists. split; [done|]. split; [|split].
  - split; [by rewrite length_insert|].
    apply Forall_insert; [done|]. split; [by rewrite length_insert|].
    by apply Forall_insert.
  - apply get_row_Ok. exists (<[k := v]> cb).
    split; apply list_lookup_insert_eq; lia.
  - intros c' k' Hne. unfold get_row.
    destruct (decide (c' = c)) as [->|Hc'].
    + rewrite list_lookup_insert_eq by lia. rewrite Hcb. simpl.
      rewrite list_lookup_insert_ne; [done|]. congruence.
    + by rewrite list_lookup_insert_ne.
Qed.

Lemma product_inv_mono q c k1 k2 c' k1' k2' t :
  (∀ x y, assigned (codebook_size q) c' k1' k2' x y →
          assigned (codebook_size q) c k1 k2 x y) →
  product_inv q c k1 k2 t → product_inv q c' k1' k2' t.
Proof. intros Himp [Hs H]. split; [done|]. intros x y Hxy. by apply H, Himp. Qed.

Lemma init_shape (D K C : nat) (randn : nat → nat → nat → R) :
  shape3 C K D
    ((λ c, (λ k, (λ d, / sqrt (INR D) * randn c k d)%R <$> seq 0 D)
             <$> seq 0 K) <$> seq 0 C).
Proof.
  split; [by rewrite length_fmap, length_seq|].
  apply Forall_fmap, Forall_forall. intros c _. simpl.
  split; [by rewrite length_fmap, length_seq|].
  apply Forall_fmap, Forall_forall. intros k _. simpl.
  by rewrite length_fmap, length_seq.
Qed.

Lemma half_bound (c n : nat) : c < n / 2 → 2 * c + 1 < n.
Proof. intros H. pose proof (Nat.Div0.mul_div_le n 2). lia. Qed.

Lemma product_inner_step q c k1 k2 t :
  wf q → c < num_codebooks q / 2 → k1 < codebook_size q → k2 < codebook_size q →
  product_inv q c k1 k2 t →
  ∃ t', (v1 ← get_row (centers q) (2 * c) k1;
         v2 ← get_row (centers q) (2 * c + 1) k2;
         set_row t c (k1 * codebook_size q + k2) (vadd v1 v2)) = Ok t'
        ∧ product_inv q c k1 (S k2) t'.
Proof.
  intros Hwf Hc Hk1 Hk2 [Hs Hinv]. pose proof (half_bound _ _ Hc).
  destruct (get_row_total _ _ _ _ (2 * c) k1 Hwf) as (v1 & Hv1 & L1); [lia|done|].
  destruct (get_row_total _ _ _ _ (2 * c + 1) k2 Hwf) as (v2 & Hv2 & L2);
    [lia|done|].
  rewrite Hv1, bind_Ok_l, Hv2, bind_Ok_l.
  destruct (set_row_Ok _ _ _ t c (k1 * codebook_size q + k2) (vadd v1 v2) Hs)
    as (t' & Ht' & Hs' & Hget & Hother); [done|rewrite Nat.pow_2_r; nia| |].
  { by apply length_vadd. }
  exists t'. split; [done|]. split; [done|].
  intros c' k' (a & b & Ha & Hb & -> & Hpos).
  destruct (decide ((c', a * codebook_size q + b) = (c, k1 * codebook_size q + k2)))
    as [[= -> Heq]|Hne].
  - rewrite Heq, Hget. exists (vadd v1 v2). split; [|done].
    exists k1, k2, v1, v2. done.
  - rewrite (Hother _ _ Hne). apply Hinv. exists a, b.
    split; [done|]. split; [done|]. split; [done|].
    destruct Hpos as [?|[-> [?|[-> Hb2]]]]; [by left|right; split; [done|by left]|].
    right. split; [done|]. right. split; [done|].
    destruct (decide (b = k2)) as [->|]; [done|lia].
Qed.

Lemma get_product_quantizer_spec q randn :
  wf q → dim q ≠ 0 →
  ∃ r, get_product_quantizer q randn = Ok r ∧
       dim r = dim q ∧ codebook_size r = codebook_size q ^ 2 ∧
       num_codebooks r = num_codebooks q / 2 ∧ frame_entropy_scale r = 0%R ∧
       product_inv q (num_codebooks q / 2) 0 0 (centers r).
Proof.
  intros Hwf Hdim. unfold get_product_quantizer, init.
  rewrite decide_False by done. simpl.
  match goal with |- context [for_range ?n ?body ?s] =>
    destruct (for_range_inv (λ c t, product_inv q c 0 0 t) body n s)
      as (t & Ht & Hinv) end.
  - split; [apply init_shape|].
    intros c' k' (a & b & _ & _ & _ & Hpos). lia.
  - intros c t Hc Hinv. simpl.
    match goal with |- context [for_range ?n ?body ?s] =>
      destruct (for_range_inv (λ k1 t, product_inv q c k1 0 t) body n s)
        as (t1 & Ht1 & Hinv1) end.
    + done.
    + intros k1 t1 Hk1 Hinv1. simpl.
      match goal with |- context [for_range ?n ?body ?s] =>
        destruct (for_range_inv (λ k2 t, product_inv q c k1 k2 t) body n s)
          as (t2 & Ht2 & Hinv2) end.
      * done.
      * intros k2 t2 Hk2 Hinv2. by apply product_inner_step.
      * exists t2. split; [done|]. revert Hinv2. apply product_inv_mono.
        intros x y (a & b & Ha & Hb & -> & Hpos). exists a, b.
        repeat (split; [done|]). lia.
    + exists t1. split; [done|]. revert Hinv1. apply product_inv_mono.
      intros x y (a & b & Ha & Hb & -> & Hpos). exists a, b.
      repeat (split; [done|]). lia.
  - rewrite Ht. simpl. eexists. split; [done|]. simpl. done.
Qed.

Lemma pair_index_inj (K a b a' b' : nat) :
  b < K → b' < K → a * K + b = a' * K + b' → a = a' ∧ b = b'.
Proof. intros Hb Hb' Heq. assert (a = a') by nia. subst. lia. Qed.

Lemma product_entry q t c' k1 k2 v1 v2 :
  product_inv q (num_codebooks q / 2) 0 0 t →
  c' < num_codebooks q / 2 → k1 < codebook_size q → k2 < codebook_size q →
  get_row (centers q) (2 * c') k1 = Ok v1 →
  get_row (centers q) (2 * c' + 1) k2 = Ok v2 →
  get_row t c' (k1 * codebook_size q + k2) = Ok (vadd v1 v2).
Proof.
  intros [_ Hinv] Hc Hk1 Hk2 Hv1 Hv2.
  destruct (Hinv c' (k1 * codebook_size q + k2)) as (v & Hv & Hget).
  { exists k1, k2. repeat (split; [done|]). by left. }
  destruct Hv as (a & b & w1 & w2 & Ha & Hb & Heq & Hw1 & Hw2 & ->).
  apply pair_index_inj in Heq as [-> ->]; [|done..].
  rewrite Hget. congruence.
Qed.

Lemma pair_up_ind {A : Type} (P : list A → Prop) :
  P [] → (∀ a, P [a]) → (∀ a b l, P l → P (a :: b :: l)) → ∀ l, P l.
Proof.
  intros H0 H1 H2 l. cut (P l ∧ ∀ a, P (a :: l)); [by intros [? _]|].
  induction l as [|b l [IH1 IH2]]; [by split|].
  split; [apply IH2|]. intros a. by apply H2.
Qed.

Lemma lookup_pair_up {A B : Type} (f : A → A → B) (l : list A) (c : nat) :
  pair_up f l !! c = (a ← l !! (2 * c); b ← l !! (2 * c + 1); Some (f a b)).
Proof.
  revert c. induction l as [| |a b l IH] using pair_up_ind; intros c.
  - done.
  - destruct c as [|c]; simpl; [done|].
    replace (c + S (c + 0)) with (S (2 * c)) by lia. done.
  - destruct c as [|c]; simpl; [done|].
    replace (c + S (c + 0)) with (S (2 * c)) by lia. simpl.
    replace (c + (c + 0) + 1) with (2 * c + 1) by lia. rewrite IH. done.
Qed.

Lemma length_pair_up {A B : Type} (f : A → A → B) (l : list A) (n : nat) :
  length l = 2 * n → length (pair_up f l) = n.
Proof.
  revert n. induction l as [| |a b l IH] using pair_up_ind; intros n Hn; simpl in *.
  - lia.
  - lia.
  - destruct n as [|n]; [lia|]. rewrite (IH n); lia.
Qed.

Lemma vsum_pair_up (n : nat) (vs : list vec) (m : nat) :
  length vs = 2 * m → vsum n (pair_up vadd vs) = vsum n vs.
Proof.
  revert m. induction vs as [| |a b l IH] using pair_up_ind; intros m Hm;
    simpl in *.
  - done.
  - lia.
  - destruct m as [|m]; [lia|]. rewrite (IH m) by lia. apply vadd_assoc.
Qed.

(** A frame decoded by the product quantizer from its paired code. *)
Lemma gather_centers_paired q t row cur C' :
  wf q → num_codebooks q = 2 * C' →
  product_inv q (num_codebooks q / 2) 0 0 t →
  length row = num_codebooks q → Forall (λ k, k < codebook_size q) row →
  gather_centers (centers q) row = Ok cur →
  gather_centers t (pair_up (λ k1 k2, k1 * codebook_size q + k2) row)
  = Ok (pair_up vadd cur).
Proof.
  intros Hwf HC Hinv Hrow Hrange Hg.
  assert (num_codebooks q / 2 = C') as HC'.
  { rewrite HC, Nat.mul_comm. by apply Nat.div_mul. }
  pose proof Hwf as [HCq _]. pose proof Hinv as [[Ht _] _].
  pose proof (gather_centers_length _ _ _ _ Hg HCq Hrow) as Lcur.
  apply gather_centers_Ok. split.
  - rewrite length_zip_with, (length_pair_up _ cur C'), (length_pair_up _ row C');
      lia.
  - intros c cb k v Hcb Hk Hv.
    rewrite lookup_pair_up in Hk. rewrite lookup_pair_up in Hv.
    destruct (row !! (2 * c)) as [k1|] eqn:Hk1; [|done].
    destruct (row !! (2 * c + 1)) as [k2|] eqn:Hk2; [|done].
    destruct (cur !! (2 * c)) as [v1|] eqn:Hv1; [|done].
    destruct (cur !! (2 * c + 1)) as [v2|] eqn:Hv2; [|done].
    simpl in Hk, Hv. injection Hk as <-. injection Hv as <-.
    assert (2 * c + 1 < num_codebooks q) as Hc.
    { rewrite <- Hrow. by eapply lookup_lt_Some. }
    destruct (lookup_lt_is_Some_2 (centers q) (2 * c)) as [cb1 Hcb1]; [lia|].
    destruct (lookup_lt_is_Some_2 (centers q) (2 * c + 1)) as [cb2 Hcb2]; [lia|].
    destruct (gather_centers_lookup _ _ _ _ _ _ Hg Hcb1 Hk1) as (w1 & Hw1 & Hw1').
    destruct (gather_centers_lookup _ _ _ _ _ _ Hg Hcb2 Hk2) as (w2 & Hw2 & Hw2').
    assert (w1 = v1) as -> by congruence. assert (w2 = v2) as -> by congruence.
    assert (get_row t c (k1 * codebook_size q + k2) = Ok (vadd v1 v2)) as He.
    { apply (product_entry q); try done.
      - lia.
      - by eapply Forall_lookup_1 in Hrange.
      - by eapply Forall_lookup_1 in Hrange.
      - apply get_row_Ok. eauto.
      - apply get_row_Ok. eauto. }
    apply get_row_Ok in He as (cb' & Hcb' & Hget). congruence.
Qed.

Lemma decode_paired q r code B C' :
  wf q → num_codebooks q = 2 * C' →
  product_inv q (num_codebooks q / 2) 0 0 (centers r) → dim r = dim q →
  shape2 B (num_codebooks q) code → in_range (codebook_size q) code →
  ∃ xs, decode q code = Ok xs ∧
        decode r (pair_codes (codebook_size q) code) = Ok xs.
Proof.
  intros Hwf HC Hinv Hdim [_ Hcode] Hrange.
  destruct (mapM_Ok_total (gather_centers (centers q)) code) as [cur Hcur].
  { eapply Forall_weaken; [exact Hrange|]. intros row Hrow. simpl in Hrow.
    apply (gather_centers_total (codebook_size q)); [|done].
    destruct Hwf as [_ Hcs]. eapply Forall_weaken; [exact Hcs|]. by intros cb [? _]. }
  unfold decode. rewrite Hcur, bind_Ok_l.
  exists (vsum (dim q) <$> cur). split; [done|].
  apply mapM_Ok in Hcur.
  apply Forall2_same_length_lookup in Hcur as [Hlen Hcur].
  assert (mapM (gather_centers (centers r)) (pair_codes (codebook_size q) code)
          = Ok (pair_up vadd <$> cur)) as ->.
  { apply mapM_Ok. unfold pair_codes. apply Forall2_fmap.
    apply Forall2_same_length_lookup. split; [done|].
    intros b row curb Hrow Hcurb. simpl.
    eapply gather_centers_paired; try done.
    - by eapply Forall_lookup_1 in Hcode.
    - by eapply Forall_lookup_1 in Hrange.
    - by eapply Hcur. }
  rewrite bind_Ok_l, Hdim. unfold mret, Result_ret. f_equal.
  rewrite <- list_fmap_compose. apply Forall_fmap_ext, Forall_lookup.
  intros b curb Hcurb. simpl.
  destruct (lookup_lt_is_Some_2 code b) as [row Hrow].
  { rewrite Hlen. by eapply lookup_lt_Some. }
  apply (vsum_pair_up _ _ C'). rewrite <- HC.
  eapply gather_centers_length; [by eapply Hcur|by destruct Hwf|].
  by eapply Forall_lookup_1 in Hcode.
Qed.



Lemma tensor_ext (C K D : nat) (t t' : list (list vec)) :
  shape3 C K D t → shape3 C K D t' →
  (∀ c k, c < C → k < K → get_row t c k = get_row t' c k) → t = t'.
Proof.
  intros [HC Ht] [HC' Ht'] H.
  apply list_eq_same_length with C; [done..|].
  intros c cb cb' Hc Hcb Hcb'.
  pose proof (Forall_lookup_1 _ _ _ _ Ht Hcb) as [HK _].
  pose proof (Forall_lookup_1 _ _ _ _ Ht' Hcb') as [HK' _].
  apply list_eq_same_length with K; [done..|].
  intros k v v' Hk Hv Hv'.
  specialize (H c k Hc Hk). unfold get_row in H.
  rewrite Hcb, Hcb' in H. simpl in H. rewrite Hv, Hv' in H. congruence.
Qed.

Lemma assigned_all (K C' c' k' : nat) :
  c' < C' → k' < K ^ 2 → assigned K C' 0 0 c' k'.
Proof.
  intros Hc Hk. rewrite Nat.pow_2_r in Hk.
  assert (K ≠ 0) as HK by (intros ->; lia).
  exists (k' / K), (k' `mod` K). split; [|split; [|split]].
  - by apply Nat.Div0.div_lt_upper_bound.
  - by apply Nat.mod_upper_bound.
  - rewrite (Nat.div_mod_eq k' K) at 1. lia.
  - by left.
Qed.

(** The product quantizer is a function of the source codebooks that the
    loops read: the first [2 * (num_codebooks / 2)] ones. *)
Lemma get_product_quantizer_reads q q' randn randn' :
  wf q → wf q' → dim q ≠ 0 →
  dim q' = dim q → codebook_size q' = codebook_size q →
  num_codebooks q' = num_codebooks q →
  take (2 * (num_codebooks q / 2)) (centers q')
  = take (2 * (num_codebooks q / 2)) (centers q) →
  get_product_quantizer q' randn' = get_product_quantizer q randn.
Proof.
  intros Hwf Hwf' Hdim Hd HK HC Htake.
  destruct (get_product_quantizer_spec q randn Hwf Hdim)
    as (r & Hr & Hrd & HrK & HrC & Hrs & [Hshape Hinv]).
  destruct (get_product_quantizer_spec q' randn' Hwf')
    as (r' & Hr' & Hrd' & HrK' & HrC' & Hrs' & [Hshape' Hinv']); [congruence|].
  rewrite Hr, Hr'. f_equal.
  rewrite HC, HK, Hd in *.
  assert (centers r' = centers r) as Hcs.
  { eapply tensor_ext; [done..|]. intros c k Hc Hk.
    destruct (Hinv c k) as (v & Hv & ->); [by apply assigned_all|].
    destruct (Hinv' c k) as (v' & Hv' & ->); [by apply assigned_all|].
    destruct Hv as (a & b & v1 & v2 & Ha & Hb & -> & Hv1 & Hv2 & ->).
    destruct Hv' as (a' & b' & w1 & w2 & Ha' & Hb' & Heq & Hw1 & Hw2 & ->).
    rewrite HK in *.
    apply pair_index_inj in Heq as [<- <-]; [|done..].
    assert (∀ i k, i < 2 * (num_codebooks q / 2) →
              get_row (centers q') i k = get_row (centers q) i k) as Hsame.
    { intros i k Hi. unfold get_row.
      rewrite <- (lookup_take_lt (centers q') _ i Hi).
      rewrite <- (lookup_take_lt (centers q) _ i Hi). by rewrite Htake. }
    rewrite Hsame in Hw1 by lia. rewrite Hsame in Hw2 by lia. congruence. }
  destruct r, r'. simpl in *. congruence.
Qed.

(** C9: with an odd number of codebooks [get_product_quantizer] raises
    nothing; it returns a quantizer of [num_codebooks // 2] codebooks, built
    from the first [num_codebooks - 1] source codebooks: whatever the last
    source codebook holds, the result is the same. *)
Theorem get_product_quantizer_odd q randn C' :
  wf q → dim q ≠ 0 → num_codebooks q = 2 * C' + 1 →
  ∃ r, get_product_quantizer q randn = Ok r ∧
    num_codebooks r = C' ∧ C' = num_codebooks q / 2 ∧
    codebook_size r = codebook_size q ^ 2 ∧ dim r = dim q ∧ wf r ∧
    (∀ c' k1 k2, c' < C' → k1 < codebook_size q → k2 < codebook_size q →
       ∃ v1 v2, get_row (centers q) (2 * c') k1 = Ok v1 ∧
                get_row (centers q) (2 * c' + 1) k2 = Ok v2 ∧
                get_row (centers r) c' (k1 * codebook_size q + k2)
                = Ok (vadd v1 v2)) ∧
    (∀ q' randn', wf q' → dim q' = dim q →
       codebook_size q' = codebook_size q →
       num_codebooks q' = num_codebooks q →
       take (num_codebooks q - 1) (centers q')
       = take (num_codebooks q - 1) (centers q) →
       get_product_quantizer q' randn' = Ok r).
Proof.
  intros Hwf Hdim HC.
  destruct (get_product_quantizer_spec q randn Hwf Hdim)
    as (r & Hr & Hd & HK & HCr & _ & Hinv).
  assert (num_codebooks q / 2 = C') as HC'.
  { rewrite HC. symmetry. apply (Nat.div_unique _ 2 C' 1); lia. }
  exists r. split; [done|]. split; [congruence|]. split; [done|].
  split; [done|]. split; [done|]. split; [|split].
  - unfold wf. rewrite HCr, HK, Hd. by destruct Hinv.
  - intros c' k1 k2 Hc Hk1 Hk2.
    destruct (get_row_total _ _ _ _ (2 * c') k1 Hwf) as (v1 & Hv1 & _);
      [lia|done|].
    destruct (get_row_total _ _ _ _ (2 * c' + 1) k2 Hwf) as (v2 & Hv2 & _);
      [lia|done|].
    exists v1, v2. split; [done|]. split; [done|].
    apply (product_entry q); try done. lia.
  - intros q' randn' Hwf' Hd' HK' HCq' Htake. rewrite <- Hr.
    apply get_product_quantizer_reads; try done.
    rewrite HC'. by replace (2 * C') with (num_codebooks q - 1) by lia.
Qed.

Lemma get_product_quantizer_odd_witness :
  (wf q_odd ∧ dim q_odd ≠ 0 ∧ num_codebooks q_odd = 2 * 1 + 1) ∧
  ∃ r, get_product_quantizer q_odd randn0 = Ok r ∧
    num_codebooks r = 1 ∧ 1 = num_codebooks q_odd / 2 ∧
    codebook_size r = codebook_size q_odd ^ 2 ∧ dim r = dim q_odd ∧ wf r ∧
    (∀ c' k1 k2, c' < 1 → k1 < codebook_size q_odd → k2 < codebook_size q_odd →
       ∃ v1 v2, get_row (centers q_odd) (2 * c') k1 = Ok v1 ∧
                get_row (centers q_odd) (2 * c' + 1) k2 = Ok v2 ∧
                get_row (centers r) c' (k1 * codebook_size q_odd + k2)
                = Ok (vadd v1 v2)) ∧
    (∀ q' randn', wf q' → dim q' = dim q_odd →
       codebook_size q' = codebook_size q_odd →
       num_codebooks q' = num_codebooks q_odd →
       take (num_codebooks q_odd - 1) (centers q')
       = take (num_codebooks q_odd - 1) (centers q_odd) →
       get_product_quantizer q' randn' = Ok r).
Proof.
  assert (wf q_odd ∧ dim q_odd ≠ 0 ∧ num_codebooks q_odd = 2 * 1 + 1) as H
    by shape_facts.
  split; [exact H|]. destruct H as (H1 & H2 & H3).
  exact (get_product_quantizer_odd q_odd randn0 1 H1 H2 H3).
Defined.

(** ** compute_ref_loss *)

(** C3 fails on the code: [compute_ref_loss] starts with [self._logits(x)],
    and a [MultiKmeansQuantizer] has no attribute [_logits]: on every input
    the call raises [AttributeError] and returns nothing. *)
Theorem compute_ref_loss_raises
    (_logits : MultiKmeansQuantizer → list vec → Result (list vec))
    (_to_output : MultiKmeansQuantizer → Result (list vec))
    (q : MultiKmeansQuantizer) (x : list vec) :
  compute_ref_loss _logits _to_output q x = Raise (AttributeError "_logits").
Proof. reflexivity. Qed.

(** ** softmax *)

Lemma Rsum_exp_pos (z : list R) : z ≠ [] → (0 < Rsum (exp <$> z))%R.
Proof.
  destruct z as [|a z]; [done|]. intros _. rewrite fmap_cons, Rsum_cons.
  assert (0 <= Rsum (exp <$> z))%R as H.
  { apply Rsum_nonneg, Forall_fmap, Forall_forall. intros v _. simpl.
    pose proof (exp_pos v). lra. }
  pose proof (exp_pos a). lra.
Qed.

Lemma Rsum_exp_shift (c : R) (z : list R) :
  Rsum (exp <$> ((λ v, v - c)%R <$> z)) = (exp (- c) * Rsum (exp <$> z))%R.
Proof.
  rewrite <- Rsum_scale, <- !list_fmap_compose. f_equal.
  apply list_fmap_ext. intros _ v _. simpl.
  rewrite <- exp_plus. f_equal. lra.
Qed.

(** softmax does not change when a constant is subtracted from the logits. *)
Lemma softmax_shift (c : R) (z : list R) :
  softmax ((λ v, v - c)%R <$> z) = softmax z.
Proof.
  destruct (decide (z = [])) as [->|Hz]; [done|].
  unfold softmax. rewrite Rsum_exp_shift, <- list_fmap_compose.
  apply list_fmap_ext. intros _ v _. simpl.
  pose proof (Rsum_exp_pos z Hz). pose proof (exp_pos (- c)).
  replace (v - c)%R with (- c + v)%R by lra. rewrite exp_plus.
  field. split; lra.
Qed.

Lemma length_softmax (z : list R) : length (softmax z) = length z.
Proof. unfold softmax. by rewrite length_fmap. Qed.

Lemma length_log_softmax (z : list R) : length (log_softmax z) = length z.
Proof. unfold log_softmax. by rewrite length_fmap. Qed.


Lemma Rsum_softmax (z : list R) : z ≠ [] → Rsum (softmax z) = 1%R.
Proof.
  intros Hz. pose proof (Rsum_exp_pos z Hz) as HS. unfold softmax.
  transitivity (Rsum ((λ v, / Rsum (exp <$> z) * exp v + 0)%R <$> z)).
  { f_equal. apply list_fmap_ext. intros _ v _. simpl. unfold Rdiv. lra. }
  rewrite Rsum_fmap_affine. field. lra.
Qed.


Lemma Categorical_probs_log_softmax (z : list R) :
  Categorical_probs (log_softmax z) = softmax z.
Proof. unfold Categorical_probs, log_softmax. by rewrite !softmax_shift. Qed.

Lemma length_Categorical_probs (logits : list R) :
  length (Categorical_probs logits) = length logits.
Proof. unfold Categorical_probs. by rewrite length_softmax, length_fmap. Qed.

Lemma Categorical_probs_pos (logits : list R) (k : nat) :
  k < length logits → (0 < default 0 (Categorical_probs logits !! k))%R.
Proof.
  intros Hk. unfold Categorical_probs. rewrite softmax_shift. unfold softmax.
  rewrite list_lookup_fmap.
  destruct (lookup_lt_is_Some_2 logits k Hk) as [v ->]. simpl.
  assert (logits ≠ []) as Hz by (destruct logits; [simpl in Hk; lia|done]).
  pose proof (Rsum_exp_pos logits Hz). pose proof (exp_pos v).
  apply Rmult_lt_0_compat; [done|]. by apply Rinv_0_lt_compat.
Qed.

(** ** Distributions *)

Lemma prob_dret {A : Type} (P : A → bool) (a : A) :
  prob P (dret a) = if P a then 1%R else 0%R.
Proof. unfold prob, dret, Rsum. simpl. destruct (P a); lra. Qed.

Lemma prob_dbind {A B : Type} (P : B → bool) (m : Dist A) (f : A → Dist B) :
  prob P (dbind m f) = Rsum ((λ ap : A * R, ap.2 * prob P (f ap.1))%R <$> m).
Proof.
  unfold prob, dbind. induction m as [|[a p] m IH]; [done|].
  cbn [mbind list_bind]. rewrite fmap_app, Rsum_app, fmap_cons, Rsum_cons.
  fold (mbind (M := list) (λ ap : A * R,
          (λ bw : B * R, (bw.1, (ap.2 * bw.2)%R)) <$> f ap.1) m).
  rewrite IH. f_equal.
  simpl. rewrite <- Rsum_scale, <- !list_fmap_compose. f_equal.
  apply list_fmap_ext. intros _ [b w] _. simpl. destruct (P b); lra.
Qed.

Lemma prob_ext {A : Type} (P Q : A → bool) (d : Dist A) :
  (∀ a, P a = Q a) → prob P d = prob Q d.
Proof.
  intros H. unfold prob. apply Rsum_fmap_ext, Forall_forall.
  intros [a w] _. simpl. by rewrite H.
Qed.

Lemma mass_eq {A : Type} (d : Dist A) : mass d = Rsum (snd <$> d).
Proof. reflexivity. Qed.

Lemma Rsum_weighted {A : Type} (c : R) (d : Dist A) :
  Rsum ((λ ap : A * R, ap.2 * c)%R <$> d) = (mass d * c)%R.
Proof.
  rewrite mass_eq, (Rsum_fmap_ext _ (λ ap : A * R, c * ap.2 + 0)%R).
  - rewrite Rsum_fmap_affine. lra.
  - apply Forall_forall. intros [a p] _. simpl. lra.
Qed.

Lemma mass_dsequence {A : Type} (ds : list (Dist A)) :
  Forall (λ d, mass d = 1%R) ds → mass (dsequence ds) = 1%R.
Proof.
  induction 1 as [|d ds Hd _ IH]; simpl; [unfold mass; by rewrite prob_dret|].
  unfold mass at 1. rewrite prob_dbind.
  rewrite (Rsum_fmap_ext _ (λ ap : A * R, ap.2 * 1)%R).
  - rewrite Rsum_weighted, Hd. lra.
  - apply Forall_forall. intros [a p] _. simpl. f_equal.
    rewrite prob_dbind.
    rewrite (Rsum_fmap_ext _ (λ lw : list A * R, lw.2 * 1)%R).
    + rewrite Rsum_weighted, IH. lra.
    + apply Forall_forall. intros [l w] _. simpl. by rewrite prob_dret.
Qed.

(** The marginal of one coordinate of independent draws. *)
Lemma prob_dsequence_coord {A : Type} (P : A → bool) (ds : list (Dist A))
    (j : nat) (d : Dist A) :
  Forall (λ d, mass d = 1%R) ds → ds !! j = Some d →
  prob (λ l, match l !! j with Some a => P a | None => false end) (dsequence ds)
  = prob P d.
Proof.
  intros Hds. revert j. induction Hds as [|d0 ds Hd0 Hds IH]; intros j Hj; [done|].
  simpl. rewrite prob_dbind. destruct j as [|j]; simpl in Hj.
  - injection Hj as ->. unfold prob at 2. apply Rsum_fmap_ext, Forall_forall.
    intros [a p] _. simpl. rewrite prob_dbind.
    rewrite (Rsum_fmap_ext _ (λ lw : list A * R,
                                lw.2 * (if P a then 1 else 0))%R).
    + rewrite Rsum_weighted, (mass_dsequence ds Hds). destruct (P a); lra.
    + apply Forall_forall. intros [l w] _. simpl. by rewrite prob_dret.
  - rewrite (Rsum_fmap_ext _ (λ ap : A * R, ap.2 * prob P d)%R).
    + rewrite Rsum_weighted, Hd0. lra.
    + apply Forall_forall. intros [a p] _. simpl. f_equal.
      rewrite prob_dbind, <- (IH j Hj). unfold prob at 2.
      apply Rsum_fmap_ext, Forall_forall. intros [l w] _. simpl.
      rewrite prob_dret. simpl.
      destruct (l !! j) as [a0|]; [destruct (P a0)|]; lra.
Qed.

Lemma prob_matrix_coord {A : Type} (P : A → bool) (ds : list (list (Dist A)))
    (b c : nat) (d : Dist A) :
  Forall (Forall (λ d, mass d = 1%R)) ds → ds !! b ≫= (.!! c) = Some d →
  prob (λ t, match t !! b ≫= (.!! c) with Some a => P a | None => false end)
       (dsequence (dsequence <$> ds))
  = prob P d.
Proof.
  intros Hds Hd.
  destruct (ds !! b) as [row|] eqn:Hrow; [|done]. simpl in Hd.
  rewrite <- (prob_dsequence_coord P row c d); [|by eapply Forall_lookup_1|done].
  rewrite <- (prob_dsequence_coord _ (dsequence <$> ds) b (dsequence row)).
  - apply prob_ext. intros t. by destruct (t !! b).
  - apply Forall_fmap. eapply Forall_weaken; [exact Hds|].
    intros r Hr. simpl. by apply mass_dsequence.
  - by rewrite list_lookup_fmap, Hrow.
Qed.

(** A distribution given by its list of probabilities, as [zip] pairs them
    with the indices. *)
Lemma prob_zip_seq (p : list R) (a i : nat) :
  prob (λ k, bool_decide (k = a + i)) (zip (seq a (length p)) p)
  = default 0%R (p !! i).
Proof.
  revert a i. induction p as [|w p IH]; intros a i; [done|].
  simpl. unfold prob. rewrite fmap_cons, Rsum_cons. simpl.
  fold (prob (λ k, bool_decide (k = a + i)) (zip (seq (S a) (length p)) p)).
  destruct i as [|i].
  - rewrite bool_decide_true by lia. simpl.
    assert (prob (λ k, bool_decide (k = a + 0)) (zip (seq (S a) (length p)) p)
            = 0%R) as ->; [|lra].
    unfold prob.
    transitivity (Rsum ((λ _ : nat * R, 0%R) <$> zip (seq (S a) (length p)) p));
      [|apply Rsum_zero].
    apply Rsum_fmap_ext, Forall_forall. intros [k v] Hk. simpl.
    apply elem_of_zip_l, elem_of_seq in Hk. by rewrite bool_decide_false by lia.
  - rewrite bool_decide_false by lia. simpl.
    replace (a + S i) with (S a + i) by lia. rewrite IH. lra.
Qed.

Lemma mass_zip_seq (p : list R) (a : nat) :
  mass (zip (seq a (length p)) p) = Rsum p.
Proof.
  rewrite mass_eq. f_equal. apply snd_zip. by rewrite length_seq.
Qed.

Lemma fmap_seq_zip (w : R) (a n : nat) :
  (λ i, (i, w)) <$> seq a n = zip (seq a n) (replicate n w).
Proof.
  revert a. induction n as [|n IH]; intros a; [done|]. simpl. f_equal. apply IH.
Qed.

Lemma uniform_zip (high : nat) :
  uniform high = zip (seq 0 (length (replicate high (/ INR high)%R)))
                     (replicate high (/ INR high)%R).
Proof. unfold uniform. rewrite length_replicate. apply fmap_seq_zip. Qed.

Lemma mass_uniform (high : nat) : 0 < high → mass (uniform high) = 1%R.
Proof.
  intros H. rewrite uniform_zip, mass_zip_seq, Rsum_replicate.
  field. apply not_0_INR. lia.
Qed.

Lemma prob_uniform (high i : nat) :
  prob (λ k, bool_decide (k = i)) (uniform high)
  = if decide (i < high) then (/ INR high)%R else 0%R.
Proof.
  rewrite uniform_zip. rewrite (prob_zip_seq _ 0 i).
  destruct (decide (i < high)) as [Hi|Hi].
  - by rewrite lookup_replicate_2.
  - by rewrite lookup_ge_None_2 by (rewrite length_replicate; lia).
Qed.

Lemma elem_of_support_dret {A : Type} (a b : A) : b ∈ support (dret a) → b = a.
Proof. unfold support, dret. simpl. by intros ->%list_elem_of_singleton. Qed.

Lemma elem_of_support_dbind {A B : Type} (m : Dist A) (f : A → Dist B) (b : B) :
  b ∈ support (dbind m f) → ∃ a, a ∈ support m ∧ b ∈ support (f a).
Proof.
  unfold support, dbind. intros ([b' w] & -> & Hb)%list_elem_of_fmap.
  apply list_elem_of_bind in Hb as ([a p] & Hb & Ha).
  apply list_elem_of_fmap in Hb as ([b0 w0] & [= -> ->] & Hb0). simpl in *.
  exists a. split; apply list_elem_of_fmap; [by exists (a, p)|by exists (b0, w0)].
Qed.

Lemma support_dsequence {A : Type} (ds : list (Dist A)) (l : list A) :
  l ∈ support (dsequence ds) → Forall2 (λ a d, a ∈ support d) l ds.
Proof.
  revert l. induction ds as [|d ds IH]; intros l; simpl.
  - intros ->%elem_of_support_dret. constructor.
  - intros (a & Ha & Hl)%elem_of_support_dbind.
    apply elem_of_support_dbind in Hl as (l' & Hl' & ->%elem_of_support_dret).
    constructor; [done|]. by apply IH.
Qed.

Lemma support_matrix {A : Type} (ds : list (list (Dist A))) (t : list (list A)) :
  t ∈ support (dsequence (dsequence <$> ds)) →
  Forall2 (Forall2 (λ a d, a ∈ support d)) t ds.
Proof.
  intros H%support_dsequence. rewrite Forall2_fmap_r in H.
  apply Forall2_same_length_lookup in H as [Hlen H].
  apply Forall2_same_length_lookup. split; [done|].
  intros b row r Hrow Hr. apply support_dsequence. by eapply H.
Qed.

Lemma support_uniform (high k : nat) : k ∈ support (uniform high) → k < high.
Proof.
  unfold support, uniform. rewrite <- list_fmap_compose.
  intros (i & -> & Hi%elem_of_seq)%list_elem_of_fmap. simpl. lia.
Qed.

(** The outcomes of [torch.randint(high, (B, C))]. *)
Lemma randint_support (high B C : nat) (indexes : list (list nat)) :
  indexes ∈ support (dsequence (replicate B
                       (dsequence (replicate C (uniform high))))) →
  shape2 B C indexes ∧ in_range high indexes.
Proof.
  intros Hin. rewrite <- (fmap_replicate dsequence) in Hin.
  apply support_matrix in Hin.
  pose proof Hin as Hlen. apply Forall2_length in Hlen.
  rewrite length_replicate in Hlen. split; [split; [done|]|].
  - apply Forall_lookup. intros b row Hrow.
    destruct (Forall2_lookup_l _ _ _ _ _ Hin Hrow) as (r & Hr & Hrr).
    apply lookup_replicate in Hr as [-> _].
    apply Forall2_length in Hrr. by rewrite length_replicate in Hrr.
  - apply Forall_lookup. intros b row Hrow.
    destruct (Forall2_lookup_l _ _ _ _ _ Hin Hrow) as (r & Hr & Hrr).
    apply lookup_replicate in Hr as [-> _].
    apply Forall_lookup. intros c k Hk.
    destruct (Forall2_lookup_l _ _ _ _ _ Hrr Hk) as (u & Hu & Hku).
    apply lookup_replicate in Hu as [-> _]. by apply support_uniform.
Qed.

Lemma Categorical_sample_zip (logits : list R) :
  Categorical_sample logits
  = zip (seq 0 (length (Categorical_probs logits))) (Categorical_probs logits).
Proof. unfold Categorical_sample. by rewrite length_Categorical_probs. Qed.

Lemma mass_Categorical_sample (logits : list R) :
  logits ≠ [] → mass (Categorical_sample logits) = 1%R.
Proof.
  intros Hz. rewrite Categorical_sample_zip, mass_zip_seq.
  unfold Categorical_probs. rewrite softmax_shift. by apply Rsum_softmax.
Qed.

Lemma support_Categorical_sample (logits : list R) (k : nat) :
  k ∈ support (Categorical_sample logits) → k < length logits.
Proof.
  unfold support, Categorical_sample.
  intros ([k' w] & -> & Hk)%list_elem_of_fmap.
  apply elem_of_zip_l, elem_of_seq in Hk. simpl. lia.
Qed.

(** ** The stochastic step *)

Lemma data_op1 {A B : Type} (f : A → B) (a : Var A) :
  data (op1 f a) = f (data a).
Proof. reflexivity. Qed.

Lemma tracked_modified_sumsq_errs_eq q xs g indexes :
  tracked_modified_sumsq_errs q (input_tensor xs g) indexes
  = (e ← modified_sumsq_errs q xs indexes; mret (mkVar e (mkLeaves true false g))).
Proof.
  unfold tracked_modified_sumsq_errs, modified_sumsq_errs, cur_centers, try_op1.
  simpl. destruct (mapM (gather_centers (centers q)) indexes); by destruct g.
Qed.

Lemma modified_sumsq_errs_total q xs indexes :
  wf q → in_range (codebook_size q) indexes →
  ∃ errs, modified_sumsq_errs q xs indexes = Ok errs.
Proof.
  intros [_ Hcs] Hrange. unfold modified_sumsq_errs, cur_centers.
  destruct (mapM_Ok_total (gather_centers (centers q)) indexes) as [cur Hcur].
  { eapply Forall_weaken; [exact Hrange|]. intros row Hrow. simpl in Hrow.
    apply (gather_centers_total (codebook_size q)); [|done].
    eapply Forall_weaken; [exact Hcs|]. by intros cb [? _]. }
  rewrite Hcur. eauto.
Qed.

Lemma modified_sumsq_errs_shape q xs indexes errs B :
  wf q → length xs = B → shape2 B (num_codebooks q) indexes →
  modified_sumsq_errs q xs indexes = Ok errs →
  shape3 B (num_codebooks q) (codebook_size q) errs.
Proof.
  intros [HC Hcs] Hxs [HiB Hi]. unfold modified_sumsq_errs, cur_centers.
  intros (cur & Hcur & [= <-])%bind_Ok. apply mapM_Ok in Hcur.
  pose proof Hcur as Hlen. apply Forall2_length in Hlen.
  unfold tmap3, tmap2, modified_errs, x_err. split.
  { rewrite !length_fmap, !length_zip_with. lia. }
  apply Forall_lookup. intros b frame Hframe.
  rewrite !list_lookup_fmap, !lookup_zip_with in Hframe.
  destruct (cur !! b) as [curb|] eqn:Hcurb; [|done]. simpl in Hframe.
  destruct (xs !! b) as [xb|] eqn:Hxb; [|done]. simpl in Hframe.
  injection Hframe as <-.
  destruct (Forall2_lookup_r _ _ _ _ _ Hcur Hcurb) as (row & Hrow & Hg).
  pose proof (Forall_lookup_1 _ _ _ _ Hi Hrow) as Lrow. simpl in Lrow.
  split.
  { rewrite !length_fmap, length_zip_with.
    rewrite (gather_centers_length _ _ _ _ Hg HC Lrow). lia. }
  apply Forall_lookup. intros c z Hz.
  rewrite !list_lookup_fmap, lookup_zip_with in Hz.
  destruct (curb !! c) as [cu|] eqn:Hcu; [|done]. simpl in Hz.
  destruct (centers q !! c) as [cb|] eqn:Hcb; [|done]. simpl in Hz.
  injection Hz as <-. rewrite !length_fmap.
  by pose proof (Forall_lookup_1 _ _ _ _ Hcs Hcb) as [? _].
Qed.

Lemma shape3_tscale B C K t s :
  shape3 B C K t → shape3 B C K (tscale t s).
Proof.
  intros [HB Ht]. unfold tscale, tmap3, tmap2. split; [by rewrite length_fmap|].
  apply Forall_fmap. eapply Forall_weaken; [exact Ht|].
  intros frame [HC Hf]. simpl. split; [by rewrite length_fmap|].
  apply Forall_fmap. eapply Forall_weaken; [exact Hf|].
  intros z Hz. simpl. by rewrite length_fmap.
Qed.

Lemma in_range_nonempty (K B C : nat) (indexes : list (list nat)) :
  0 < B → 0 < C → shape2 B C indexes → in_range K indexes → 0 < K.
Proof.
  intros HB HC [LB Hrows] Hrange.
  destruct indexes as [|row indexes]; [simpl in LB; lia|].
  apply Forall_cons in Hrows as [Lrow _]. apply Forall_cons in Hrange as [Hrow _].
  destruct row as [|k row]; [simpl in Lrow; lia|].
  apply Forall_cons in Hrow as [Hk _]. lia.
Qed.

(** With indexes in range and a non-empty codebook the stochastic step
    raises nothing, and returns what [stochastic_step] defines. *)
Lemma refine_indexes_stochastic_Ok q xs g indexes :
  wf q → in_range (codebook_size q) indexes → 0 < codebook_size q →
  ∃ errs,
    modified_sumsq_errs q xs indexes = Ok (data errs) ∧
    tracked_modified_sumsq_errs q (input_tensor xs g) indexes = Ok errs ∧
    leaves errs = mkLeaves true false g ∧
    refine_indexes_stochastic q (input_tensor xs g) indexes
    = Ok (sampled_indexes q errs,
          op1 (fmap (λ h, ln (INR (codebook_size q)) - h)%R) (class_entropy q errs),
          avg_frame_entropy q errs,
          reconstruction_loss q (input_tensor xs g) errs).
Proof.
  intros Hwf Hrange HK.
  destruct (modified_sumsq_errs_total q xs indexes Hwf Hrange) as [e He].
  exists (mkVar e (mkLeaves true false g)). split; [done|].
  split; [by rewrite tracked_modified_sumsq_errs_eq, He|]. split; [done|].
  unfold refine_indexes_stochastic.
  rewrite tracked_modified_sumsq_errs_eq, He. simpl.
  unfold entropy_loss, math_log. rewrite decide_False by lia. reflexivity.
Qed.

(** The indexes that the stochastic step samples have the shape of the
    batch and lie in range. *)
Lemma sampled_indexes_support q errs B indexes :
  shape3 B (num_codebooks q) (codebook_size q) (data errs) →
  indexes ∈ support (sampled_indexes q errs) →
  shape2 B (num_codebooks q) indexes ∧ in_range (codebook_size q) indexes.
Proof.
  intros [LB Hshape] Hin. unfold sampled_indexes in Hin.
  replace ((λ frame, dsequence (Categorical_sample <$> frame))
             <$> data (codebook_logprobs_detached q errs))
    with (dsequence <$> (fmap Categorical_sample
                           <$> data (codebook_logprobs_detached q errs)))
    in Hin by (by rewrite <- list_fmap_compose).
  apply support_matrix in Hin. simpl in Hin.
  unfold tmap2, tscale, tmap3, tmap2 in Hin.
  rewrite <- !list_fmap_compose in Hin. rewrite Forall2_fmap_r in Hin.
  apply Forall2_same_length_lookup in Hin as [Hlen Hin].
  assert (∀ b row f0, indexes !! b = Some row → data errs !! b = Some f0 →
            length row = length f0 ∧
            ∀ c k z, row !! c = Some k → f0 !! c = Some z → k < length z)
    as Hrows.
  { intros b row f0 Hrow Hf0. specialize (Hin b row f0 Hrow Hf0). simpl in Hin.
    rewrite <- !list_fmap_compose in Hin. rewrite Forall2_fmap_r in Hin.
    apply Forall2_same_length_lookup in Hin as [Hl Hin]. split; [done|].
    intros c k z Hk Hz. specialize (Hin c k z Hk Hz). simpl in Hin.
    apply support_Categorical_sample in Hin.
    by rewrite length_log_softmax, length_fmap in Hin. }
  split; [split; [lia|]|].
  - apply Forall_lookup. intros b row Hrow.
    destruct (lookup_lt_is_Some_2 (data errs) b) as [f0 Hf0].
    { rewrite <- Hlen. by eapply lookup_lt_Some. }
    destruct (Hrows b row f0 Hrow Hf0) as [-> _].
    by pose proof (Forall_lookup_1 _ _ _ _ Hshape Hf0) as [? _].
  - apply Forall_lookup. intros b row Hrow.
    destruct (lookup_lt_is_Some_2 (data errs) b) as [f0 Hf0].
    { rewrite <- Hlen. by eapply lookup_lt_Some. }
    destruct (Hrows b row f0 Hrow Hf0) as [Hl Hk].
    pose proof (Forall_lookup_1 _ _ _ _ Hshape Hf0) as [_ H0].
    apply Forall_lookup. intros c k Hck.
    destruct (lookup_lt_is_Some_2 f0 c) as [z Hz].
    { rewrite <- Hl. by eapply lookup_lt_Some. }
    pose proof (Forall_lookup_1 _ _ _ _ H0 Hz) as Lz. simpl in Lz.
    rewrite <- Lz. by eapply Hk.
Qed.

(** C10: the distribution that the new indexes are sampled from, the
    detached [codebook_probs_detached] that enters [frame_entropy] and the
    [codebook_probs] that enters the two losses are one and the same tensor:
    per frame and codebook, the softmax over the candidates of
    [modified_sumsq_errs * -exp(10 * frame_entropy_scale)]. *)
Theorem detached_probs_equal_codebook_probs
    (q : MultiKmeansQuantizer) (errs : Var (list (list (list R)))) :
  let probs :=
    tmap2 softmax (tscale (data errs) (- exp (10 * frame_entropy_scale q))%R) in
  data (codebook_probs q errs) = probs ∧
  data (codebook_probs_detached q errs) = probs ∧
  tmap2 Categorical_probs (data (codebook_logprobs_detached q errs)) = probs ∧
  sampled_indexes q errs
  = dsequence ((λ frame, dsequence ((λ p, zip (seq 0 (length p)) p) <$> frame))
                 <$> probs).
Proof.
  simpl. split; [done|]. split; [done|].
  unfold sampled_indexes. simpl. unfold tmap2. split.
  - rewrite <- list_fmap_compose. apply list_fmap_ext. intros _ frame _. simpl.
    rewrite <- list_fmap_compose. apply list_fmap_ext. intros _ z _. simpl.
    apply Categorical_probs_log_softmax.
  - f_equal. rewrite <- !list_fmap_compose. apply list_fmap_ext.
    intros _ frame _. simpl. f_equal.
    rewrite <- !list_fmap_compose. apply list_fmap_ext. intros _ z _. simpl.
    unfold Categorical_sample.
    by rewrite Categorical_probs_log_softmax, length_log_softmax, length_softmax.
Qed.



(** ** Frame entropy *)



Lemma fmean_bounds (l : list R) (a b : R) :
  l ≠ [] → Forall (λ v, a <= v <= b)%R l →
  ∃ m, fmean l = Finite m ∧ (a <= m <= b)%R.
Proof.
  intros Hl Hall.
  assert (0 < INR (length l))%R as Hn.
  { apply lt_0_INR. destruct l; [done|simpl; lia]. }
  assert (INR (length l) * a <= Rsum l <= INR (length l) * b)%R as Hs.
  { clear Hl Hn. induction Hall as [|v l Hv _ IH]; [unfold Rsum; simpl; lra|].
    rewrite Rsum_cons, length_cons, S_INR. lra. }
  unfold fmean, fdiv. destruct (Req_dec_T (INR (length l)) 0) as [?|_]; [lra|].
  eexists. split; [done|]. split.
  - apply Rmult_le_reg_l with (INR (length l)); [done|].
    replace (INR (length l) * (Rsum l / INR (length l)))%R with (Rsum l)
      by (field; lra). lra.
  - apply Rmult_le_reg_l with (INR (length l)); [done|].
    replace (INR (length l) * (Rsum l / INR (length l)))%R with (Rsum l)
      by (field; lra). lra.
Qed.



(** ** Class entropy *)

Lemma ln_lower (y : R) : (0 < y)%R → (1 - / y <= ln y)%R.
Proof.
  intros Hy. pose proof (exp_ineq1_le (- ln y)) as H.
  rewrite exp_Ropp, exp_ln in H by done. lra.
Qed.

Lemma eps_pos : (0 < eps)%R.
Proof. unfold eps. apply Rinv_0_lt_compat, pow_lt. lra. Qed.

(** The summand [v * ln (v + eps)] lies above its tangent at [a], by a
    square. *)
Lemma class_entropy_term (a v : R) :
  (0 < a)%R → (0 <= v)%R →
  (v * ln (a + eps) + (v - a) * (a / (a + eps))
   + eps * (v - a) * (v - a) / ((v + eps) * (a + eps))
   <= v * ln (v + eps))%R.
Proof.
  intros Ha Hv. pose proof eps_pos as He.
  assert (ln (v + eps) - ln (a + eps) = ln ((v + eps) * / (a + eps)))%R as Hln.
  { rewrite ln_mult, ln_Rinv; try lra. apply Rinv_0_lt_compat. lra. }
  pose proof (ln_lower ((v + eps) * / (a + eps))) as Hl.
  assert (0 < (v + eps) * / (a + eps))%R as Hpos.
  { apply Rmult_lt_0_compat; [lra|]. apply Rinv_0_lt_compat. lra. }
  specialize (Hl Hpos). rewrite <- Hln in Hl.
  replace (/ ((v + eps) * / (a + eps)))%R with ((a + eps) / (v + eps))%R in Hl
    by (field; lra).
  assert (v * (1 - (a + eps) / (v + eps)) <= v * (ln (v + eps) - ln (a + eps)))%R
    as Hm by (apply Rmult_le_compat_l; lra).
  replace (v * (1 - (a + eps) / (v + eps)))%R
    with ((v - a) * (a / (a + eps))
          + eps * (v - a) * (v - a) / ((v + eps) * (a + eps)))%R in Hm
    by (field; lra).
  lra.
Qed.

(** [(p * (p + eps).log()).sum()] of a probability vector over [K]
    candidates is at least [ln (1 / K + eps)], with equality for the uniform
    vector only. *)
Lemma class_entropy_row (K : nat) (p : list R) :
  0 < K → length p = K → Forall (λ v, 0 <= v)%R p → Rsum p = 1%R →
  (ln (/ INR K + eps) <= Rsum ((λ v, v * ln (v + eps))%R <$> p))%R ∧
  (Rsum ((λ v, v * ln (v + eps))%R <$> p) = ln (/ INR K + eps)
   ↔ p = replicate K (/ INR K)%R).
Proof.
  intros HK Lp Hp Hsum. pose proof eps_pos as He.
  assert (0 < INR K)%R as HKR by (by apply lt_0_INR).
  assert (0 < / INR K)%R as Ha by (by apply Rinv_0_lt_compat).
  set (a := (/ INR K)%R) in *.
  set (Q := λ v : R, (eps * (v - a) * (v - a) / ((v + eps) * (a + eps)))%R).
  assert (Forall (λ v, 0 <= Q v)%R p) as HQ.
  { eapply Forall_weaken; [exact Hp|]. intros v Hv. simpl. unfold Q.
    apply Rmult_le_pos.
    - rewrite Rmult_assoc. apply Rmult_le_pos; [lra|].
      pose proof (Rle_0_sqr (v - a)) as Hs. by unfold Rsqr in Hs.
    - left. apply Rinv_0_lt_compat. apply Rmult_lt_0_compat; lra. }
  assert (ln (a + eps) + Rsum (Q <$> p)
          <= Rsum ((λ v, v * ln (v + eps))%R <$> p))%R as Hmain.
  { transitivity
      (Rsum ((λ v, ((ln (a + eps) + a / (a + eps)) * v + - (a * (a / (a + eps))))
                   + Q v)%R <$> p)).
    - rewrite Rsum_fmap_plus, (Rsum_fmap_affine _ _ (λ v, v)), list_fmap_id,
        Hsum, Lp.
      right. unfold a. field.
      pose proof (Rmult_lt_0_compat _ _ He HKR). split; lra.
    - apply Rsum_fmap_le. eapply Forall_weaken; [exact Hp|].
      intros v Hv. simpl. pose proof (class_entropy_term a v Ha Hv).
      unfold Q. lra. }
  assert (0 <= Rsum (Q <$> p))%R as HQs by (by apply Rsum_nonneg, Forall_fmap).
  split; [lra|]. split.
  - intros Heq.
    assert (Forall (λ v, v = 0%R) (Q <$> p)) as Hz.
    { apply Rsum_nonneg_zero; [by apply Forall_fmap|lra]. }
    apply Forall_fmap in Hz.
    apply list_eq_same_length with K; [by rewrite length_replicate|done|].
    intros i v w Hi Hv Hw. apply lookup_replicate in Hw as [-> _].
    pose proof (Forall_lookup_1 _ _ _ _ Hz Hv) as Hq. simpl in Hq.
    pose proof (Forall_lookup_1 _ _ _ _ Hp Hv) as H0. simpl in H0.
    unfold Q in Hq.
    assert (eps * (v - a) * (v - a) = 0)%R as Hsq.
    { apply (Rmult_eq_reg_r (/ ((v + eps) * (a + eps)))).
      - rewrite Rmult_0_l. exact Hq.
      - apply Rinv_neq_0_compat. apply Rgt_not_eq, Rmult_lt_0_compat; lra. }
    apply Rmult_integral in Hsq as [Hsq|Hsq]; [|lra].
    apply Rmult_integral in Hsq as [Hsq|Hsq]; lra.
  - intros ->. rewrite fmap_replicate, Rsum_replicate. unfold a. field. lra.
Qed.

Lemma prob_vectors_softmax (B C K : nat) (Z : list (list (list R))) :
  0 < K → shape3 B C K Z →
  shape3 B C K (tmap2 softmax Z) ∧ prob_vectors (tmap2 softmax Z).
Proof.
  intros HK [LB HZ]. unfold tmap2, prob_vectors. split.
  - split; [by rewrite length_fmap|]. apply Forall_fmap.
    eapply Forall_weaken; [exact HZ|]. intros frame [LC Hf]. simpl.
    split; [by rewrite length_fmap|]. apply Forall_fmap.
    eapply Forall_weaken; [exact Hf|]. intros z Lz. simpl.
    by rewrite length_softmax.
  - apply Forall_fmap. eapply Forall_weaken; [exact HZ|].
    intros frame [_ Hf]. simpl. apply Forall_fmap.
    eapply Forall_weaken; [exact Hf|]. intros z Lz. simpl.
    assert (z ≠ []) as Hz by (destruct z; [simpl in Lz; lia|done]).
    split; [|by apply Rsum_softmax].
    unfold softmax. apply Forall_fmap, Forall_forall. intros v _. simpl.
    pose proof (Rsum_exp_pos z Hz). pose proof (exp_pos v).
    apply Rmult_le_pos; [lra|]. left. by apply Rinv_0_lt_compat.
Qed.

(** The batch average of probability vectors is, for every codebook, a
    probability vector. *)
Lemma mean_dim0_rows (B C K : nat) (P : list (list (list R))) :
  0 < B → shape3 B C K P → prob_vectors P →
  ∃ A, mean_dim0 C K P = Finite A ∧ length A = C ∧
       Forall (λ row, length row = K ∧ Forall (λ v, 0 <= v)%R row
                      ∧ Rsum row = 1%R) A.
Proof.
  intros HB [LB HP] Hprob. unfold mean_dim0. rewrite decide_False by lia.
  eexists. split; [done|]. split; [by rewrite length_fmap, length_seq|].
  assert (0 < INR (length P))%R as HBR by (apply lt_0_INR; lia).
  apply Forall_fmap, Forall_forall. intros c Hc%elem_of_seq. simpl.
  split; [by rewrite length_fmap, length_seq|]. split.
  - apply Forall_fmap, Forall_forall. intros k _. simpl.
    apply Rmult_le_pos; [|left; by apply Rinv_0_lt_compat].
    apply Rsum_nonneg, Forall_fmap, Forall_lookup. intros b frame Hframe. simpl.
    destruct (frame !! c) as [z|] eqn:Hz; simpl; [|lra].
    destruct (z !! k) as [v|] eqn:Hv; simpl; [|lra].
    pose proof (Forall_lookup_1 _ _ _ _ Hprob Hframe) as Hf. simpl in Hf.
    pose proof (Forall_lookup_1 _ _ _ _ Hf Hz) as [Hnn _].
    by eapply Forall_lookup_1 in Hnn.
  - transitivity
      (Rsum ((λ k, / INR (length P)
                   * Rsum ((λ frame, default 0%R (frame !! c ≫= (.!! k))) <$> P)
                   + 0)%R <$> seq 0 K)).
    { apply Rsum_fmap_ext, Forall_forall. intros k _. simpl. unfold Rdiv. lra. }
    rewrite Rsum_fmap_affine.
    rewrite (Rsum_swap (λ k frame, default 0%R (frame !! c ≫= (.!! k)))).
    rewrite (Rsum_fmap_ext _ (λ _, 1%R)).
    + rewrite Rsum_const. field. lra.
    + apply Forall_lookup. intros b frame Hframe. simpl.
      pose proof (Forall_lookup_1 _ _ _ _ HP Hframe) as [LC Hf]. simpl in *.
      destruct (lookup_lt_is_Some_2 frame c) as [z Hz]; [lia|].
      rewrite Hz. simpl.
      pose proof (Forall_lookup_1 _ _ _ _ Hf Hz) as Lz. simpl in Lz.
      pose proof (Forall_lookup_1 _ _ _ _ Hprob Hframe) as Hpf. simpl in Hpf.
      pose proof (Forall_lookup_1 _ _ _ _ Hpf Hz) as [_ H1].
      rewrite <- Lz, Rsum_lookup_seq. exact H1.
Qed.




(** ** A non-empty batch *)

Section batch.
Context (q : MultiKmeansQuantizer) (xs : list vec) (g : bool) (B : nat).
Hypothesis Hwf : wf q.
Hypothesis Hxs : length xs = B.
Hypothesis HB : 0 < B.
Hypothesis HC : 0 < num_codebooks q.

(** What the stochastic step returns on codes in range, with the shape of
    the tensor of costs. *)
Lemma refine_indexes_stochastic_shape indexes :
  shape2 B (num_codebooks q) indexes → in_range (codebook_size q) indexes →
  0 < codebook_size q ∧
  ∃ errs,
    shape3 B (num_codebooks q) (codebook_size q) (data errs) ∧
    tracked_modified_sumsq_errs q (input_tensor xs g) indexes = Ok errs ∧
    refine_indexes_stochastic q (input_tensor xs g) indexes
    = Ok (sampled_indexes q errs,
          op1 (fmap (λ h, ln (INR (codebook_size q)) - h)%R) (class_entropy q errs),
          avg_frame_entropy q errs,
          reconstruction_loss q (input_tensor xs g) errs).
Proof.
  intros Hi Hrange.
  pose proof (in_range_nonempty _ _ _ _ HB HC Hi Hrange) as HK.
  split; [done|].
  destruct (refine_indexes_stochastic_Ok q xs g indexes Hwf Hrange HK)
    as (errs & He & Ht & _ & Hr).
  exists errs. split; [|done].
  exact (modified_sumsq_errs_shape q xs indexes (data errs) B Hwf Hxs Hi He).
Qed.



(** The loop of [forward] keeps the codes in range, and returns the loss
    terms of its latest stochastic step. *)
Lemma forward_loop_outcomes num_iters indexes last r :
  shape2 B (num_codebooks q) indexes → in_range (codebook_size q) indexes →
  r ∈ support (forward_loop q (input_tensor xs g) num_iters indexes last) →
  match r with
  | Ok (indexes', el, fe, rl) =>
      shape2 B (num_codebooks q) indexes' ∧
      in_range (codebook_size q) indexes' ∧
      ((num_iters = 0 ∧ last = Some (el, fe, rl))
       ∨ step_losses q (input_tensor xs g) B el fe rl)
  | Raise e => num_iters = 0 ∧ last = None
  end.
Proof.
  revert indexes last r.
  induction num_iters as [|n IH]; intros indexes last r Hs Hr Hin.
  - simpl in Hin. apply elem_of_support_dret in Hin as ->.
    destruct last as [[[el fe] rl]|]; [|done].
    split; [done|]. split; [done|]. by left.
  - simpl in Hin.
    destruct (refine_indexes_stochastic_shape indexes Hs Hr)
      as (HK & errs & Hshape & _ & Hstep).
    rewrite Hstep in Hin.
    apply elem_of_support_dbind in Hin as (indexes' & Hi' & Hin).
    destruct (sampled_indexes_support q errs B indexes' Hshape Hi') as [Hs' Hr'].
    specialize (IH indexes' _ r Hs' Hr' Hin).
    destruct r as [[[[i2 el] fe] rl]|e].
    + destruct IH as (? & ? & [[_ [= <- <- <-]]|Hl]).
      * split; [done|]. split; [done|]. right. exists indexes. eauto.
      * split; [done|]. split; [done|]. by right.
    + by destruct IH as [_ ?].
Qed.

(** Every outcome of [forward] with at least one iteration is a tuple whose
    loss terms come from a stochastic step on codes in range. *)
Lemma forward_outcomes num_iters r :
  Forall (λ row, length row = dim q) xs →
  2 ≤ codebook_size q → 1 ≤ num_iters →
  r ∈ support (forward q (input_tensor xs g) num_iters) →
  ∃ indexes el fe rl,
    r = Ok (indexes, el, fe, rl) ∧ step_losses q (input_tensor xs g) B el fe rl.
Proof.
  intros Hrows HK Hn Hin. unfold forward in Hin. simpl in Hin.
  rewrite decide_True in Hin by done.
  unfold initial_indexes, randint in Hin. rewrite decide_False in Hin by lia.
  apply elem_of_support_dbind in Hin as (idx & Hidx & Hin).
  apply randint_support in Hidx as [Hs Hr0]. rewrite Hxs in Hs.
  assert (in_range (codebook_size q) idx) as Hr.
  { eapply Forall_weaken; [exact Hr0|]. intros row Hrow. simpl in Hrow.
    eapply Forall_weaken; [exact Hrow|]. intros k Hk. simpl in Hk. lia. }
  pose proof (forward_loop_outcomes num_iters idx None r Hs Hr Hin) as Hout.
  destruct r as [[[[i2 el] fe] rl]|e].
  - destruct Hout as (_ & _ & [[? _]|Hl]); [lia|]. eauto 10.
  - destruct Hout as [? _]. lia.
Qed.

End batch.

(** ** forward *)

(** C6: [forward] draws its initial indexes with
    [torch.randint(codebook_size - 1, ...)]: every component is uniform on
    {0, ..., codebook_size - 2}, and the last candidate index
    [codebook_size - 1] has probability zero there, while every refinement
    iteration gives it a positive probability. *)
Theorem initial_indexes_uniform q B :
  2 ≤ codebook_size q →
  ∃ d, initial_indexes q B = Ok d ∧
    (∀ xs g num_iters,
       length xs = B → Forall (λ row, length row = dim q) xs →
       forward q (input_tensor xs g) num_iters
       = dbind d (λ indexes,
                    forward_loop q (input_tensor xs g) num_iters indexes None)) ∧
    (∀ indexes, indexes ∈ support d →
       shape2 B (num_codebooks q) indexes ∧
       in_range (codebook_size q - 1) indexes) ∧
    (∀ b c i, b < B → c < num_codebooks q →
       prob (λ indexes, match indexes !! b ≫= (.!! c) with
                        | Some k => bool_decide (k = i)
                        | None => false
                        end) d
       = if decide (i < codebook_size q - 1)
         then (/ INR (codebook_size q - 1))%R else 0%R) ∧
    (∀ errs b c,
       shape3 B (num_codebooks q) (codebook_size q) (data errs) →
       b < B → c < num_codebooks q →
       Rlt 0 (prob (λ indexes, match indexes !! b ≫= (.!! c) with
                               | Some k => bool_decide (k = codebook_size q - 1)
                               | None => false
                               end) (sampled_indexes q errs))).
Proof.
  intros HK. unfold initial_indexes, randint. rewrite decide_False by lia.
  eexists. split; [done|]. split; [|split; [|split]].
  - intros xs g n Hlen Hrows. unfold forward, initial_indexes, randint.
    simpl. rewrite decide_True by done. rewrite decide_False by lia.
    by rewrite Hlen.
  - intros indexes Hin. by apply randint_support.
  - intros b c i Hb Hc.
    rewrite <- (fmap_replicate dsequence).
    rewrite (prob_matrix_coord _ _ b c (uniform (codebook_size q - 1))).
    + apply prob_uniform.
    + apply Forall_replicate, Forall_replicate, mass_uniform. lia.
    + rewrite lookup_replicate_2 by done. simpl. by rewrite lookup_replicate_2.
  - intros errs b c [LB Hshape] Hb Hc.
    unfold sampled_indexes.
    destruct (lookup_lt_is_Some_2 (data (codebook_logprobs_detached q errs)) b)
      as [frame Hframe].
    { simpl. unfold tmap2, tscale, tmap3. rewrite !length_fmap. lia. }
    assert (length frame = num_codebooks q ∧
            Forall (λ z, length z = codebook_size q) frame) as [LC Hf].
    { simpl in Hframe. unfold tmap2, tscale, tmap3 in Hframe.
      rewrite !list_lookup_fmap in Hframe.
      destruct (data errs !! b) as [f0|] eqn:Hf0; [|done].
      pose proof (Forall_lookup_1 _ _ _ _ Hshape Hf0) as [L0 H0].
      simpl in Hframe. injection Hframe as <-. unfold tmap2.
      split; [by rewrite !length_fmap|].
      rewrite <- list_fmap_compose. apply Forall_fmap.
      eapply Forall_weaken; [exact H0|]. intros z Lz. simpl.
      by rewrite length_log_softmax, length_fmap. }
    destruct (lookup_lt_is_Some_2 frame c) as [logits Hlogits]; [lia|].
    pose proof (Forall_lookup_1 _ _ _ _ Hf Hlogits) as Ll. simpl in Ll.
    replace ((λ frame, dsequence (Categorical_sample <$> frame))
               <$> data (codebook_logprobs_detached q errs))
      with (dsequence <$> (fmap Categorical_sample
                             <$> data (codebook_logprobs_detached q errs)))
      by (by rewrite <- list_fmap_compose).
    rewrite (prob_matrix_coord _ _ b c (Categorical_sample logits)).
    + rewrite Categorical_sample_zip.
      rewrite (prob_zip_seq _ 0 (codebook_size q - 1)).
      apply Categorical_probs_pos. lia.
    + apply Forall_fmap, Forall_lookup. intros b' f' Hf'. simpl.
      apply Forall_fmap, Forall_lookup. intros c' z' Hz'. simpl.
      apply mass_Categorical_sample.
      simpl in Hf'. unfold tmap2, tscale, tmap3 in Hf'.
      rewrite !list_lookup_fmap in Hf'.
      destruct (data errs !! b') as [f0|] eqn:Hf0; [|done].
      pose proof (Forall_lookup_1 _ _ _ _ Hshape Hf0) as [L0 H0].
      simpl in Hf'. injection Hf' as <-. unfold tmap2 in Hz'.
      rewrite !list_lookup_fmap in Hz'.
      destruct (f0 !! c') as [z0|] eqn:Hz0; [|done].
      pose proof (Forall_lookup_1 _ _ _ _ H0 Hz0) as Lz0. simpl in *.
      injection Hz' as <-. intros Hnil.
      apply (f_equal length) in Hnil.
      rewrite length_log_softmax, length_fmap, Lz0 in Hnil. simpl in Hnil. lia.
    + rewrite list_lookup_fmap, Hframe. simpl.
      by rewrite list_lookup_fmap, Hlogits.
Qed.

Lemma initial_indexes_uniform_witness :
  (2 ≤ codebook_size q_balanced) ∧
  (∃ d, initial_indexes q_balanced 1 = Ok d ∧
    (∀ xs g num_iters,
       length xs = 1 → Forall (λ row, length row = dim q_balanced) xs →
       forward q_balanced (input_tensor xs g) num_iters
       = dbind d (λ indexes,
                    forward_loop q_balanced (input_tensor xs g) num_iters indexes None)) ∧
    (∀ indexes, indexes ∈ support d →
       shape2 1 (num_codebooks q_balanced) indexes ∧
       in_range (codebook_size q_balanced - 1) indexes) ∧
    (∀ b c i, b < 1 → c < num_codebooks q_balanced →
       prob (λ indexes, match indexes !! b ≫= (.!! c) with
                        | Some k => bool_decide (k = i)
                        | None => false
                        end) d
       = if decide (i < codebook_size q_balanced - 1)
         then (/ INR (codebook_size q_balanced - 1))%R else 0%R) ∧
    (∀ errs b c,
       shape3 1 (num_codebooks q_balanced) (codebook_size q_balanced) (data errs) →
       b < 1 → c < num_codebooks q_balanced →
       Rlt 0 (prob (λ indexes, match indexes !! b ≫= (.!! c) with
                               | Some k => bool_decide (k = codebook_size q_balanced - 1)
                               | None => false
                               end) (sampled_indexes q_balanced errs)))).
Proof.
  assert (2 ≤ codebook_size q_balanced) as H
    by shape_facts.
  split; [exact H|]. pose proof H as H1.
  exact (initial_indexes_uniform q_balanced 1 H1).
Defined.

(** With a zero-energy input the division that yields
    [reconstruction_loss] is a division by zero. *)
Lemma reconstruction_loss_zero_energy q xs g indexes d el fe rl :
  Rsum (sumsq <$> xs) = 0%R →
  refine_indexes_stochastic q (input_tensor xs g) indexes = Ok (d, el, fe, rl) →
  data rl = NonFinite.
Proof.
  intros Hx Hr. unfold refine_indexes_stochastic in Hr.
  apply bind_Ok in Hr as (errs & _ & Hr).
  apply bind_Ok in Hr as (el' & _ & [= _ _ _ <-]).
  unfold reconstruction_loss. simpl. rewrite Hx.
  destruct (fdiv _ (INR (num_codebooks q))) as [v|]; simpl; [|done].
  unfold fdiv. by destruct (Req_dec_T 0 0).
Qed.

(** C4 fails on the code: [refine_indexes_stochastic] divides
    [expected_sumsq] by [(x ** 2).sum()] with no epsilon added.  On the
    all-zero input the division is by zero and [reconstruction_loss] is not
    a finite number, in the stochastic step and in every outcome of
    [forward]. *)
Theorem reconstruction_loss_divides_by_zero :
  (∃ new_indexes entropy_loss frame_entropy reconstruction_loss,
     refine_indexes_stochastic q_balanced (input_tensor [[0%R; 0%R]] false) [[0]]
     = Ok (new_indexes, entropy_loss, frame_entropy, reconstruction_loss) ∧
     data reconstruction_loss = NonFinite) ∧
  (∀ num_iters r,
     1 ≤ num_iters →
     r ∈ support (forward q_balanced (input_tensor [[0%R; 0%R]] false) num_iters) →
     ∃ indexes entropy_loss frame_entropy reconstruction_loss,
       r = Ok (indexes, entropy_loss, frame_entropy, reconstruction_loss) ∧
       data reconstruction_loss = NonFinite).
Proof.
  assert (Rsum (sumsq <$> [[0%R; 0%R]]) = 0%R) as Hx.
  { unfold Rsum, sumsq, Rsum. simpl. lra. }
  assert (wf q_balanced) as Hwf by shape_facts.
  split.
  - destruct (refine_indexes_stochastic_Ok q_balanced [[0%R; 0%R]] false [[0]])
      as (errs & _ & _ & _ & Hr); [done|shape_facts|simpl; lia|].
    eexists _, _, _, _. split; [exact Hr|].
    by eapply reconstruction_loss_zero_energy.
  - intros n r Hn Hin.
    destruct (forward_outcomes q_balanced [[0%R; 0%R]] false 1 Hwf eq_refl
                ltac:(lia) ltac:(simpl; lia) n r)
      as (idx & el & fe & rl & -> & idx0 & d & _ & _ & Hstep);
      try done; try shape_facts.
    exists idx, el, fe, rl. split; [done|].
    by eapply reconstruction_loss_zero_energy.
Qed.






(** ** argmax: the first maximal value *)

Lemma argmax_from_first (l : list R) (best_i : nat) (best : R) (i : nat) :
  (argmax_from best_i best i l = best_i ∧ Forall (λ v, (v <= best)%R) l)
  ∨ (∃ j vr, argmax_from best_i best i l = i + j ∧ l !! j = Some vr ∧
       (best < vr)%R ∧ Forall (λ v, (v <= vr)%R) l ∧
       ∀ j' v', j' < j → l !! j' = Some v' → (v' < vr)%R).
Proof.
  revert best_i best i. induction l as [|v l IH]; intros best_i best i; simpl.
  { left. by split. }
  destruct (Rlt_dec best v) as [Hlt|Hge].
  - right. destruct (IH i v (S i)) as [[-> Hall]|(j & vr & -> & Hj & Hv & Hall & Hfirst)].
    + exists 0, v. rewrite Nat.add_0_r. repeat split; try done.
      * constructor; [lra|done].
      * intros j' v' Hj'. lia.
    + exists (S j), vr. repeat split; try done.
      * lia.
      * lra.
      * constructor; [lra|done].
      * intros [|j'] v' Hj' Hv'; simpl in Hv'.
        -- injection Hv' as <-. done.
        -- apply (Hfirst j'); [lia|done].
  - destruct (IH best_i best (S i))
      as [[-> Hall]|(j & vr & -> & Hj & Hv & Hall & Hfirst)].
    + left. split; [done|]. constructor; [lra|done].
    + right. exists (S j), vr. repeat split; try done.
      * lia.
      * constructor; [lra|done].
      * intros [|j'] v' Hj' Hv'; simpl in Hv'.
        -- injection Hv' as <-. lra.
        -- apply (Hfirst j'); [lia|done].
Qed.

Lemma argmax_first (l : list R) (k : nat) :
  argmax l = Ok k →
  ∃ vk, l !! k = Some vk ∧ Forall (λ v, (v <= vk)%R) l ∧
        ∀ j v, j < k → l !! j = Some v → (v < vk)%R.
Proof.
  destruct l as [|v l]; [done|]. simpl. intros [= <-].
  destruct (argmax_from_first l 0 v 1)
    as [[-> Hall]|(j & vr & -> & Hj & Hv & Hall & Hfirst)].
  - exists v. repeat split; try done.
    + constructor; [lra|done].
    + intros j' v' Hj'. lia.
  - exists vr. repeat split; try done.
    + constructor; [lra|done].
    + intros [|j'] v' Hj' Hv'; simpl in Hv'.
      * injection Hv' as <-. done.
      * apply (Hfirst j'); [lia|done].
Qed.

(** ** refine_indexes: the cost of every replacement *)

(** The squared error of a frame once the entry of codebook [c] is
    replaced by candidate [k]. *)
Lemma swap_cost q xb row cur c cb cu k ce :
  wf q → length xb = dim q → length row = num_codebooks q →
  gather_centers (centers q) row = Ok cur →
  centers q !! c = Some cb → cur !! c = Some cu → cb !! k = Some ce →
  recon_error q [xb] [<[c := k]> row]
  = Ok [sumsq (vadd (vsub (vsub (vsum (dim q) cur) xb) cu) ce)].
Proof.
  intros [HC Hcs] Hxb Hrow Hg Hcb Hcu Hce.
  pose proof (Forall_lookup_1 _ _ _ _ Hcs Hcb) as [HK Hdim].
  pose proof (gather_centers_dim _ _ _ _ _ _ (conj HC Hcs) Hg) as Hcurdim.
  rewrite (recon_error_frame q xb _ (<[c := ce]> cur)).
  2:{ by eapply gather_centers_insert. }
  rewrite (vsum_insert (dim q) cur c cu ce xb); try done.
  by eapply Forall_lookup_1 in Hdim.
Qed.

Lemma modified_sumsq_errs_lookup q x indexes errs b xb row :
  modified_sumsq_errs q x indexes = Ok errs →
  x !! b = Some xb → indexes !! b = Some row →
  ∃ cur, gather_centers (centers q) row = Ok cur ∧
    ∀ c cb cu, centers q !! c = Some cb → cur !! c = Some cu →
      errs !! b ≫= (.!! c)
      = Some (sumsq <$>
          ((λ ce, vadd (vsub (vsub (vsum (dim q) cur) xb) cu) ce) <$> cb)).
Proof.
  unfold modified_sumsq_errs, cur_centers. intros He Hx Hrow.
  apply bind_Ok in He as (cur & Hcur & [= <-]).
  apply mapM_Ok in Hcur.
  destruct (Forall2_lookup_l _ _ _ _ _ Hcur Hrow) as (curb & Hcurb & Hg).
  exists curb. split; [done|]. intros c cb cu Hcb Hcu.
  unfold tmap3, tmap2, modified_errs, x_err.
  rewrite !list_lookup_fmap, lookup_zip_with, lookup_zip_with, Hcurb, Hx.
  simpl. rewrite !list_lookup_fmap, lookup_zip_with, Hcu. simpl.
  rewrite Hcb. done.
Qed.

Lemma gather_centers_row q row cur c :
  wf q → length row = num_codebooks q → Forall (λ k, k < codebook_size q) row →
  gather_centers (centers q) row = Ok cur → c < num_codebooks q →
  ∃ cb cu k0, centers q !! c = Some cb ∧ cur !! c = Some cu ∧
    row !! c = Some k0 ∧ cb !! k0 = Some cu ∧ length cb = codebook_size q.
Proof.
  intros [HC Hcs] Hrow Hr Hg Hc.
  destruct (lookup_lt_is_Some_2 (centers q) c) as [cb Hcb]; [lia|].
  destruct (lookup_lt_is_Some_2 row c) as [k0 Hk0]; [lia|].
  destruct (gather_centers_lookup _ _ _ _ _ _ Hg Hcb Hk0) as (v & Hv & Hv').
  pose proof (Forall_lookup_1 _ _ _ _ Hcs Hcb) as [HK _].
  by exists cb, v, k0.
Qed.

(** X1: the tensor [modified_sumsq_errs] of the two refinement steps has
    shape (B, num_codebooks, codebook_size), and its entry [b][c][k] is the
    squared reconstruction error of frame [b] with the index of codebook [c]
    replaced by [k], the other indexes kept. *)
Theorem modified_sumsq_errs_meaning q x indexes B :
  wf q → shape2 B (dim q) x → shape2 B (num_codebooks q) indexes →
  in_range (codebook_size q) indexes →
  ∃ errs, modified_sumsq_errs q x indexes = Ok errs ∧
    shape3 B (num_codebooks q) (codebook_size q) errs ∧
    ∀ b c k xb row, x !! b = Some xb → indexes !! b = Some row →
      c < num_codebooks q → k < codebook_size q →
      ∃ e, (errs !! b ≫= (.!! c)) ≫= (.!! k) = Some e ∧
           recon_error q [xb] [<[c := k]> row] = Ok [e].
Proof.
  intros Hwf [HxB Hx] Hi Hrange.
  destruct (modified_sumsq_errs_total q x indexes Hwf Hrange) as [errs He].
  exists errs. split; [done|]. split.
  { by eapply modified_sumsq_errs_shape. }
  intros b c k xb row Hxb Hrow Hc Hk.
  destruct (modified_sumsq_errs_lookup _ _ _ _ _ _ _ He Hxb Hrow)
    as (cur & Hg & Hent).
  destruct Hi as [_ Hi].
  pose proof (Forall_lookup_1 _ _ _ _ Hi Hrow) as Lrow. simpl in Lrow.
  pose proof (Forall_lookup_1 _ _ _ _ Hx Hxb) as Lxb. simpl in Lxb.
  pose proof (Forall_lookup_1 _ _ _ _ Hrange Hrow) as Hr. simpl in Hr.
  destruct (gather_centers_row q row cur c Hwf Lrow Hr Hg Hc)
    as (cb & cu & k0 & Hcb & Hcu & Hk0 & Hcuk & LK).
  destruct (lookup_lt_is_Some_2 cb k) as [ce Hce]; [lia|].
  eexists. split.
  - rewrite (Hent c cb cu Hcb Hcu). simpl.
    rewrite !list_lookup_fmap, Hce. reflexivity.
  - by eapply swap_cost.
Qed.

Lemma modified_sumsq_errs_meaning_witness :
  (wf q_overshoot ∧ shape2 1 (dim q_overshoot) [[2%R]] ∧
   shape2 1 (num_codebooks q_overshoot) [[0; 0]] ∧
   in_range (codebook_size q_overshoot) [[0; 0]]) ∧
  ∃ errs, modified_sumsq_errs q_overshoot [[2%R]] [[0; 0]] = Ok errs ∧
    shape3 1 (num_codebooks q_overshoot) (codebook_size q_overshoot) errs ∧
    ∀ b c k xb row, [[2%R]] !! b = Some xb → [[0; 0]] !! b = Some row →
      c < num_codebooks q_overshoot → k < codebook_size q_overshoot →
      ∃ e, (errs !! b ≫= (.!! c)) ≫= (.!! k) = Some e ∧
           recon_error q_overshoot [xb] [<[c := k]> row] = Ok [e].
Proof.
  assert (wf q_overshoot ∧ shape2 1 (dim q_overshoot) [[2%R]] ∧
          shape2 1 (num_codebooks q_overshoot) [[0; 0]] ∧
          in_range (codebook_size q_overshoot) [[0; 0]]) as H by shape_facts.
  split; [exact H|]. destruct H as (H1 & H2 & H3 & H4).
  exact (modified_sumsq_errs_meaning q_overshoot [[2%R]] [[0; 0]] 1 H1 H2 H3 H4).
Defined.

(** The index that [refine_indexes] returns for a codebook is the first
    candidate that minimizes the error of the frame with that codebook's
    entry replaced. *)
Lemma refine_indexes_choice q x indexes new B :
  wf q → shape2 B (dim q) x → shape2 B (num_codebooks q) indexes →
  in_range (codebook_size q) indexes →
  refine_indexes q x indexes = Ok new →
  shape2 B (num_codebooks q) new ∧ in_range (codebook_size q) new ∧
  ∀ b c xb row nrow k', x !! b = Some xb → indexes !! b = Some row →
    new !! b = Some nrow → nrow !! c = Some k' →
    ∃ e', recon_error q [xb] [<[c := k']> row] = Ok [e'] ∧
      ∀ k, k < codebook_size q →
        ∃ e, recon_error q [xb] [<[c := k]> row] = Ok [e] ∧
             (e' <= e)%R ∧ (k < k' → (e' < e)%R).
Proof.
  intros Hwf Hx Hi Hrange Hnew.
  destruct (refine_indexes_total q x indexes B Hwf Hx Hi Hrange)
    as (new' & Hnew' & Hlen).
  assert (new' = new) as -> by congruence. clear Hnew'.
  assert (∀ b xb row nrow, x !! b = Some xb → indexes !! b = Some row →
            new !! b = Some nrow →
            length nrow = num_codebooks q ∧
            ∀ c k', nrow !! c = Some k' →
              k' < codebook_size q ∧
              ∃ e', recon_error q [xb] [<[c := k']> row] = Ok [e'] ∧
                ∀ k, k < codebook_size q →
                  ∃ e, recon_error q [xb] [<[c := k]> row] = Ok [e] ∧
                       (e' <= e)%R ∧ (k < k' → (e' < e)%R)) as Hframe.
  { intros b xb row nrow Hxb Hrow Hnrow.
    destruct (refine_indexes_lookup _ _ _ _ _ _ _ _ Hnew Hxb Hrow Hnrow)
      as (cur & Hg & Hl & Hc).
    destruct Hx as [_ Hx]. destruct Hi as [_ Hi].
    pose proof (Forall_lookup_1 _ _ _ _ Hx Hxb) as Lxb.
    pose proof (Forall_lookup_1 _ _ _ _ Hi Hrow) as Lrow. simpl in *.
    split.
    { destruct Hwf as [HC _].
      rewrite Hl, (gather_centers_length _ _ _ _ Hg HC Lrow). lia. }
    intros c k' Hk'.
    destruct (Hc c k' Hk') as (cb & cu & Hcb & Hcu & Harg).
    pose proof Hwf as [_ Hcs].
    pose proof (Forall_lookup_1 _ _ _ _ Hcs Hcb) as [HK _].
    apply argmax_first in Harg as (vk & Hvk & Hmax & Hfirst).
    rewrite !list_lookup_fmap in Hvk.
    destruct (cb !! k') as [ce'|] eqn:Hce'; [|done]. simpl in Hvk.
    injection Hvk as <-.
    split. { rewrite <- HK. by eapply lookup_lt_Some. }
    eexists. split; [by eapply swap_cost|].
    intros k Hk.
    destruct (lookup_lt_is_Some_2 cb k) as [ce Hce]; [lia|].
    eexists. split; [by eapply swap_cost|]. split.
    - eapply Forall_lookup_1 in Hmax.
      2:{ rewrite !list_lookup_fmap, Hce. done. }
      simpl in Hmax. lra.
    - intros Hlt. pose proof (λ v, Hfirst k v Hlt) as H'.
      rewrite !list_lookup_fmap, Hce in H'. specialize (H' _ eq_refl).
      simpl in H'. lra. }
  assert (∀ b nrow, new !! b = Some nrow →
            ∃ xb row, x !! b = Some xb ∧ indexes !! b = Some row) as Hdom.
  { intros b nrow Hb. apply lookup_lt_Some in Hb.
    destruct Hx as [Hx _]. destruct Hi as [Hi _].
    destruct (lookup_lt_is_Some_2 x b) as [xb ?]; [lia|].
    destruct (lookup_lt_is_Some_2 indexes b) as [row ?]; [lia|]. eauto. }
  split; [|split].
  - split; [done|]. apply Forall_lookup. intros b nrow Hb.
    destruct (Hdom b nrow Hb) as (xb & row & Hxb & Hrow).
    by destruct (Hframe b xb row nrow Hxb Hrow Hb) as [? _].
  - apply Forall_lookup. intros b nrow Hb. apply Forall_lookup. intros c k' Hk'.
    destruct (Hdom b nrow Hb) as (xb & row & Hxb & Hrow).
    destruct (Hframe b xb row nrow Hxb Hrow Hb) as [_ H].
    by destruct (H c k' Hk') as [? _].
  - intros b c xb row nrow k' Hxb Hrow Hb Hk'.
    destruct (Hframe b xb row nrow Hxb Hrow Hb) as [_ H].
    by destruct (H c k' Hk') as [_ ?].
Qed.

(** X2: for every frame and codebook, the index that [refine_indexes]
    returns is the best replacement of that codebook's index alone: put
    into the input code it gives a squared error not larger than any other
    candidate does, and strictly smaller than every candidate of smaller
    index (ties go to the first candidate). *)
Theorem refine_indexes_first_best_swap q x indexes B :
  wf q → shape2 B (dim q) x → shape2 B (num_codebooks q) indexes →
  in_range (codebook_size q) indexes →
  ∃ new, refine_indexes q x indexes = Ok new ∧
    ∀ b c xb row nrow k', x !! b = Some xb → indexes !! b = Some row →
      new !! b = Some nrow → nrow !! c = Some k' →
      ∃ e', recon_error q [xb] [<[c := k']> row] = Ok [e'] ∧
        ∀ k, k < codebook_size q →
          ∃ e, recon_error q [xb] [<[c := k]> row] = Ok [e] ∧
               (e' <= e)%R ∧ (k < k' → (e' < e)%R).
Proof.
  intros Hwf Hx Hi Hr.
  destruct (refine_indexes_total q x indexes B Hwf Hx Hi Hr) as (new & Hnew & _).
  exists new. split; [done|].
  by destruct (refine_indexes_choice q x indexes new B) as (_ & _ & ?).
Qed.

Lemma refine_indexes_first_best_swap_witness :
  (wf q_overshoot ∧ shape2 1 (dim q_overshoot) [[2%R]] ∧
   shape2 1 (num_codebooks q_overshoot) [[0; 0]] ∧
   in_range (codebook_size q_overshoot) [[0; 0]]) ∧
  ∃ new, refine_indexes q_overshoot [[2%R]] [[0; 0]] = Ok new ∧
    ∀ b c xb row nrow k', [[2%R]] !! b = Some xb → [[0; 0]] !! b = Some row →
      new !! b = Some nrow → nrow !! c = Some k' →
      ∃ e', recon_error q_overshoot [xb] [<[c := k']> row] = Ok [e'] ∧
        ∀ k, k < codebook_size q_overshoot →
          ∃ e, recon_error q_overshoot [xb] [<[c := k]> row] = Ok [e] ∧
               (e' <= e)%R ∧ (k < k' → (e' < e)%R).
Proof.
  assert (wf q_overshoot ∧ shape2 1 (dim q_overshoot) [[2%R]] ∧
          shape2 1 (num_codebooks q_overshoot) [[0; 0]] ∧
          in_range (codebook_size q_overshoot) [[0; 0]]) as H by shape_facts.
  split; [exact H|]. destruct H as (H1 & H2 & H3 & H4).
  exact (refine_indexes_first_best_swap q_overshoot [[2%R]] [[0; 0]] 1 H1 H2 H3 H4).
Defined.

(** Two candidates that are both the first minimizer of one cost are the
    same candidate. *)
Lemma first_min_unique (cost : nat → Result (list R)) (K k1 k2 : nat) (e1 e2 : R) :
  k1 < K → k2 < K →
  cost k1 = Ok [e1] → cost k2 = Ok [e2] →
  (∀ k, k < K → ∃ e, cost k = Ok [e] ∧ (e1 <= e)%R ∧ (k < k1 → (e1 < e)%R)) →
  (∀ k, k < K → ∃ e, cost k = Ok [e] ∧ (e2 <= e)%R ∧ (k < k2 → (e2 < e)%R)) →
  k1 = k2.
Proof.
  intros H1 H2 Hc1 Hc2 Hm1 Hm2.
  destruct (Hm1 k2 H2) as (e & He & Hle1 & Hlt1).
  assert (e = e2) as -> by congruence.
  destruct (Hm2 k1 H1) as (e & He' & Hle2 & Hlt2).
  assert (e = e1) as -> by congruence.
  destruct (Nat.lt_trichotomy k1 k2) as [Hlt|[->|Hgt]]; [|done|].
  - specialize (Hlt2 Hlt). lra.
  - specialize (Hlt1 Hgt). lra.
Qed.

(** X3: [refine_indexes] returns its input unchanged exactly when, for
    every frame and codebook, the current index is already the first best
    replacement for that codebook alone; no change of a single index then
    lowers the squared error of any frame. *)
Theorem refine_indexes_fixed_point q x indexes B :
  wf q → shape2 B (dim q) x → shape2 B (num_codebooks q) indexes →
  in_range (codebook_size q) indexes →
  (refine_indexes q x indexes = Ok indexes
   ↔ ∀ b c xb row k', x !! b = Some xb → indexes !! b = Some row →
       row !! c = Some k' →
       ∃ e', recon_error q [xb] [row] = Ok [e'] ∧
         ∀ k, k < codebook_size q →
           ∃ e, recon_error q [xb] [<[c := k]> row] = Ok [e] ∧
                (e' <= e)%R ∧ (k < k' → (e' < e)%R)).
Proof.
  intros Hwf Hx Hi Hrange. split.
  - intros Hfix b c xb row k' Hxb Hrow Hk'.
    destruct (refine_indexes_choice q x indexes indexes B) as (_ & _ & H);
      try done.
    destruct (H b c xb row row k' Hxb Hrow Hrow Hk') as (e' & He' & Hmin).
    rewrite list_insert_id in He' by done. eauto.
  - intros Hopt.
    destruct (refine_indexes_total q x indexes B Hwf Hx Hi Hrange)
      as (new & Hnew & Hlen).
    rewrite Hnew. f_equal.
    destruct (refine_indexes_choice q x indexes new B) as ([_ Hs] & Hr & H);
      try done.
    destruct Hx as [HxB Hx]. destruct Hi as [HiB Hi].
    apply list_eq_same_length with B; [done|lia|].
    intros b nrow row Hb Hnrow Hrow.
    destruct (lookup_lt_is_Some_2 x b) as [xb Hxb]; [lia|].
    pose proof (Forall_lookup_1 _ _ _ _ Hs Hnrow) as Ln.
    pose proof (Forall_lookup_1 _ _ _ _ Hi Hrow) as Lr. simpl in Ln, Lr.
    apply list_eq_same_length with (num_codebooks q); [done|done|].
    intros c k1 k2 Hc Hk1 Hk2.
    destruct (H b c xb row nrow k1 Hxb Hrow Hnrow Hk1) as (e1 & He1 & Hm1).
    destruct (Hopt b c xb row k2 Hxb Hrow Hk2) as (e2 & He2 & Hm2).
    eapply (first_min_unique (λ k, recon_error q [xb] [<[c := k]> row])
              (codebook_size q) k1 k2 e1 e2); try done.
    + pose proof (Forall_lookup_1 _ _ _ _ Hr Hnrow) as Hr1. simpl in Hr1.
      by eapply Forall_lookup_1 in Hr1.
    + pose proof (Forall_lookup_1 _ _ _ _ Hrange Hrow) as Hr2. simpl in Hr2.
      by eapply Forall_lookup_1 in Hr2.
    + by rewrite list_insert_id.
Qed.

Lemma refine_indexes_fixed_point_witness :
  (wf q_overshoot ∧ shape2 1 (dim q_overshoot) [[2%R]] ∧
   shape2 1 (num_codebooks q_overshoot) [[0; 1]] ∧
   in_range (codebook_size q_overshoot) [[0; 1]]) ∧
  (refine_indexes q_overshoot [[2%R]] [[0; 1]] = Ok [[0; 1]]
   ↔ ∀ b c xb row k', [[2%R]] !! b = Some xb → [[0; 1]] !! b = Some row →
       row !! c = Some k' →
       ∃ e', recon_error q_overshoot [xb] [row] = Ok [e'] ∧
         ∀ k, k < codebook_size q_overshoot →
           ∃ e, recon_error q_overshoot [xb] [<[c := k]> row] = Ok [e] ∧
                (e' <= e)%R ∧ (k < k' → (e' < e)%R)).
Proof.
  assert (wf q_overshoot ∧ shape2 1 (dim q_overshoot) [[2%R]] ∧
          shape2 1 (num_codebooks q_overshoot) [[0; 1]] ∧
          in_range (codebook_size q_overshoot) [[0; 1]]) as H by shape_facts.
  split; [exact H|]. destruct H as (H1 & H2 & H3 & H4).
  exact (refine_indexes_fixed_point q_overshoot [[2%R]] [[0; 1]] 1 H1 H2 H3 H4).
Defined.

(** ** Indexes in and out of range *)

Lemma mapM_Raise {A B : Type} (f : A → Result B) (l : list A) (e : PyError) :
  Forall (λ a, (∃ b, f a = Ok b) ∨ f a = Raise e) l →
  Exists (λ a, f a = Raise e) l → mapM f l = Raise e.
Proof.
  induction l as [|a l IH]; intros Hall Hex; [by apply Exists_nil in Hex|].
  apply Forall_cons in Hall as [Ha Hall]. simpl.
  destruct Ha as [[b Hb]| ->]; [|done]. rewrite Hb. simpl.
  apply Exists_cons in Hex as [Hex|Hex]; [congruence|].
  by rewrite (IH Hall Hex).
Qed.

Lemma gather_centers_cases (K : nat) (cs : list (list vec)) (code : list nat) :
  Forall (λ cb, length cb = K) cs →
  (∃ cur, gather_centers cs code = Ok cur)
  ∨ gather_centers cs code = Raise RuntimeError.
Proof.
  intros Hcs. unfold gather_centers.
  induction (zip cs code) as [|[cb k] l IH]; simpl; [left; eauto|].
  destruct (cb !! k); simpl; [|by right].
  destruct IH as [[cur ->]| ->]; simpl; [left; eauto|by right].
Qed.

Lemma gather_centers_out_of_range (K : nat) (cs : list (list vec)) (code : list nat) :
  Forall (λ cb, length cb = K) cs → length code = length cs →
  ¬ Forall (λ k, k < K) code → gather_centers cs code = Raise RuntimeError.
Proof.
  intros Hcs Hlen Hnot. unfold gather_centers.
  apply mapM_Raise.
  - apply Forall_forall. intros [cb k] _. destruct (cb !! k); eauto.
  - apply not_Forall_Exists in Hnot; [|intros k; apply _].
    apply Exists_exists in Hnot as (k & Hk & Hge).
    apply list_elem_of_lookup in Hk as [c Hc].
    destruct (lookup_lt_is_Some_2 cs c) as [cb Hcb].
    { rewrite <- Hlen. by eapply lookup_lt_Some. }
    apply Exists_exists. exists (cb, k). split.
    + apply list_elem_of_lookup. exists c.
      by rewrite lookup_zip_with, Hcb, Hc.
    + pose proof (Forall_lookup_1 _ _ _ _ Hcs Hcb) as HK. simpl in HK.
      rewrite (lookup_ge_None_2 cb k); [done|]. simpl in Hge. lia.
Qed.






Lemma cur_centers_out_of_range q indexes B :
  wf q → shape2 B (num_codebooks q) indexes →
  ¬ in_range (codebook_size q) indexes →
  mapM (gather_centers (centers q)) indexes = Raise RuntimeError.
Proof.
  intros [HC Hcs] [HB Hrows] Hnot.
  assert (Forall (λ cb : list vec, length cb = codebook_size q) (centers q)) as HK.
  { eapply Forall_weaken; [exact Hcs|]. by intros cb [? _]. }
  apply mapM_Raise.
  - apply Forall_forall. intros row _.
    by apply (gather_centers_cases (codebook_size q)).
  - apply not_Forall_Exists in Hnot; [|intros k; apply _].
    apply Exists_exists in Hnot as (row & Hrow & Hbad).
    apply Exists_exists. exists row. split; [done|].
    apply (gather_centers_out_of_range (codebook_size q)); try done.
    apply list_elem_of_lookup in Hrow as [b Hb].
    pose proof (Forall_lookup_1 _ _ _ _ Hrows Hb) as Hl. simpl in Hl. lia.
Qed.

(** X5: given a tensor of indexes of shape (B, num_codebooks) with an
    index outside {0..codebook_size-1}, both refinement steps raise
    [RuntimeError]: the gather of the current centers fails before
    anything else is computed. *)
Theorem refine_out_of_range q x g indexes B :
  wf q → shape2 B (num_codebooks q) indexes →
  ¬ in_range (codebook_size q) indexes →
  refine_indexes q x indexes = Raise RuntimeError ∧
  refine_indexes_stochastic q (input_tensor x g) indexes = Raise RuntimeError.
Proof.
  intros Hwf Hs Hnot.
  pose proof (cur_centers_out_of_range q indexes B Hwf Hs Hnot) as Hc.
  split.
  - unfold refine_indexes, modified_sumsq_errs, cur_centers. by rewrite Hc.
  - unfold refine_indexes_stochastic. rewrite tracked_modified_sumsq_errs_eq.
    unfold modified_sumsq_errs, cur_centers. by rewrite Hc.
Qed.

Lemma refine_out_of_range_witness :
  (wf q_overshoot ∧ shape2 1 (num_codebooks q_overshoot) [[0; 2]] ∧
   ¬ in_range (codebook_size q_overshoot) [[0; 2]]) ∧
  refine_indexes q_overshoot [[2%R]] [[0; 2]] = Raise RuntimeError ∧
  refine_indexes_stochastic q_overshoot (input_tensor [[2%R]] true) [[0; 2]]
  = Raise RuntimeError.
Proof.
  assert (wf q_overshoot ∧ shape2 1 (num_codebooks q_overshoot) [[0; 2]] ∧
          ¬ in_range (codebook_size q_overshoot) [[0; 2]]) as H.
  { split; [shape_facts|]. split; [shape_facts|].
    unfold in_range. intros Hr. apply Forall_cons in Hr as [Hr _].
    apply Forall_cons in Hr as [_ Hr]. apply Forall_cons in Hr as [Hr _].
    simpl in Hr. lia. }
  split; [exact H|]. destruct H as (H1 & H2 & H3).
  exact (refine_out_of_range q_overshoot [[2%R]] true [[0; 2]] 1 H1 H2 H3).
Defined.

(** ** encode *)

Lemma for_each_const_length {S : Type} (f : S → Result S) (l l' : list nat) (s : S) :
  length l = length l' → for_each l (λ _, f) s = for_each l' (λ _, f) s.
Proof.
  revert l' s. induction l as [|i l IH]; intros [|i' l'] s Hl; try done.
  simpl in *. destruct (f s); simpl; [|done]. apply IH. lia.
Qed.

Lemma for_range_S {S : Type} (f : S → Result S) (n : nat) (s : S) :
  for_range (Datatypes.S n) (λ _, f) s = s' ← f s; for_range n (λ _, f) s'.
Proof.
  unfold for_range. simpl. destruct (f s); simpl; [|done].
  apply for_each_const_length. by rewrite !length_seq.
Qed.

Lemma for_range_const_inv {S : Type} (I : S → Prop) (f : S → Result S)
    (n : nat) (s : S) :
  I s → (∀ s, I s → ∃ s', f s = Ok s' ∧ I s') →
  ∃ s', for_range n (λ _, f) s = Ok s' ∧ I s'.
Proof.
  intros Hs Hstep. apply (for_range_inv (λ _, I)); [done|].
  intros i s0 _ H0. by apply Hstep.
Qed.

Lemma for_range_fixed {S : Type} (f : S → Result S) (n : nat) (s : S) :
  f s = Ok s → for_range n (λ _, f) s = Ok s.
Proof.
  intros Hf. induction n as [|n IH]; [done|].
  rewrite for_range_S, Hf. exact IH.
Qed.

Lemma zeros_shape (B C K : nat) :
  0 < K →
  shape2 B C (replicate B (replicate C 0)) ∧
  in_range K (replicate B (replicate C 0)).
Proof.
  intros HK. split; [split|].
  - by rewrite length_replicate.
  - apply Forall_replicate. by rewrite length_replicate.
  - apply Forall_replicate, Forall_replicate. done.
Qed.

Lemma encode_total q x num_iters :
  wf q → 0 < codebook_size q → Forall (λ row, length row = dim q) x →
  ∃ code, encode q x num_iters = Ok code ∧
    shape2 (length x) (num_codebooks q) code ∧ in_range (codebook_size q) code.
Proof.
  intros Hwf HK Hx. unfold encode. rewrite decide_True by done.
  apply (for_range_const_inv
           (λ s, shape2 (length x) (num_codebooks q) s
                 ∧ in_range (codebook_size q) s)).
  { by apply zeros_shape. }
  intros s [Hs Hr].
  destruct (refine_indexes_total q x s (length x)) as (new & Hnew & _); try done.
  exists new. split; [done|].
  by destruct (refine_indexes_choice q x s new (length x)) as (? & ? & _).
Qed.



Lemma refine_indexes_frame q x indexes new b xb row :
  refine_indexes q x indexes = Ok new →
  x !! b = Some xb → indexes !! b = Some row →
  ∃ nrow, new !! b = Some nrow ∧ refine_indexes q [xb] [row] = Ok [nrow].
Proof.
  unfold refine_indexes, modified_sumsq_errs, cur_centers.
  intros Hr Hx Hrow.
  apply bind_Ok in Hr as (errs & He & Hnew).
  apply bind_Ok in He as (cur & Hcur & [= <-]).
  apply mapM_Ok in Hcur, Hnew.
  destruct (Forall2_lookup_l _ _ _ _ _ Hcur Hrow) as (curb & Hcurb & Hg).
  match type of Hnew with Forall2 _ ?l _ =>
    destruct (lookup_lt_is_Some_2 l b) as [eb Heb] end.
  { unfold tmap3, modified_errs, x_err.
    rewrite !length_fmap, !length_zip_with.
    apply lookup_lt_Some in Hcurb, Hx. lia. }
  destruct (Forall2_lookup_l _ _ _ _ _ Hnew Heb) as (nrow & Hnrow & Ha).
  exists nrow. split; [done|].
  unfold tmap3, tmap2, modified_errs, x_err in Heb.
  rewrite !list_lookup_fmap, lookup_zip_with, lookup_zip_with, Hcurb, Hx in Heb.
  simpl in Heb. injection Heb as <-.
  simpl. rewrite Hg. simpl. unfold tmap2 in *. rewrite Ha. reflexivity.
Qed.

Lemma encode_loop_frame q x l indexes code b xb row :
  for_each l (λ _ s, refine_indexes q x s) indexes = Ok code →
  x !! b = Some xb → indexes !! b = Some row →
  ∃ crow, code !! b = Some crow ∧
    for_each l (λ _ s, refine_indexes q [xb] s) [row] = Ok [crow].
Proof.
  revert indexes row. induction l as [|i l IH]; intros indexes row Hl Hx Hrow.
  { simpl in *. injection Hl as <-. eauto. }
  simpl in Hl. apply bind_Ok in Hl as (new & Hnew & Hl).
  destruct (refine_indexes_frame _ _ _ _ _ _ _ Hnew Hx Hrow) as (nrow & Hnrow & Hf).
  destruct (IH new nrow Hl Hx Hnrow) as (crow & Hcrow & Hloop).
  exists crow. split; [done|]. simpl. rewrite Hf. done.
Qed.

Lemma encode_frame q x num_iters code b xb :
  encode q x num_iters = Ok code → x !! b = Some xb →
  ∃ row, code !! b = Some row ∧ encode q [xb] num_iters = Ok [row].
Proof.
  unfold encode. intros He Hxb.
  destruct (decide (Forall (λ row, length row = dim q) x)) as [Hx|]; [|done].
  rewrite decide_True.
  2:{ constructor; [|done]. by eapply Forall_lookup_1 in Hx. }
  unfold for_range in *.
  eapply encode_loop_frame in He as (crow & Hcrow & Hloop); [|done|].
  2:{ apply lookup_replicate_2. by eapply lookup_lt_Some. }
  eauto.
Qed.

(** X7: [encode] treats the frames of a batch independently: the code it
    returns for frame [b] of a batch is the code it returns for that frame
    encoded alone. *)
Theorem encode_framewise q x num_iters b xb :
  wf q → 0 < codebook_size q → Forall (λ row, length row = dim q) x →
  x !! b = Some xb →
  ∃ code row, encode q x num_iters = Ok code ∧ code !! b = Some row ∧
    encode q [xb] num_iters = Ok [row].
Proof.
  intros Hwf HK Hx Hxb.
  destruct (encode_total q x num_iters Hwf HK Hx) as (code & Hc & _).
  destruct (encode_frame q x num_iters code b xb Hc Hxb) as (row & Hrow & Hf).
  by exists code, row.
Qed.

Lemma encode_framewise_witness :
  (wf q_overshoot ∧ 0 < codebook_size q_overshoot ∧
   Forall (λ row, length row = dim q_overshoot) [[2%R]; [5%R]] ∧
   [[2%R]; [5%R]] !! 1 = Some [5%R]) ∧
  ∃ code row, encode q_overshoot [[2%R]; [5%R]] 4 = Ok code ∧
    code !! 1 = Some row ∧ encode q_overshoot [[5%R]] 4 = Ok [row].
Proof.
  assert (wf q_overshoot ∧ 0 < codebook_size q_overshoot ∧
          Forall (λ row, length row = dim q_overshoot) [[2%R]; [5%R]] ∧
          [[2%R]; [5%R]] !! 1 = Some [5%R]) as H by shape_facts.
  split; [exact H|]. destruct H as (H1 & H2 & H3 & H4).
  exact (encode_framewise q_overshoot [[2%R]; [5%R]] 4 1 [5%R] H1 H2 H3 H4).
Defined.

(** ** A single codebook *)

(** A single codebook. *)
Lemma refine_indexes_nearest q x indexes new B :
  wf q → num_codebooks q = 1 →
  shape2 B (dim q) x → shape2 B (num_codebooks q) indexes →
  in_range (codebook_size q) indexes →
  refine_indexes q x indexes = Ok new →
  length new = B ∧
  ∀ b xb nrow, x !! b = Some xb → new !! b = Some nrow →
    ∃ k' e', nrow = [k'] ∧ k' < codebook_size q ∧
      recon_error q [xb] [[k']] = Ok [e'] ∧
      ∀ k, k < codebook_size q →
        ∃ e, recon_error q [xb] [[k]] = Ok [e] ∧
             (e' <= e)%R ∧ (k < k' → (e' < e)%R).
Proof.
  intros Hwf HC Hx Hi Hrange Hnew.
  destruct (refine_indexes_choice q x indexes new B) as ([HB Hs] & Hr & H);
    try done.
  split; [done|]. intros b xb nrow Hxb Hnrow.
  destruct Hi as [HiB Hi].
  destruct (lookup_lt_is_Some_2 indexes b) as [row Hrow].
  { rewrite HiB, <- HB. by eapply lookup_lt_Some. }
  pose proof (Forall_lookup_1 _ _ _ _ Hs Hnrow) as Ln.
  pose proof (Forall_lookup_1 _ _ _ _ Hi Hrow) as Lr. simpl in Ln, Lr.
  rewrite HC in Ln, Lr.
  destruct nrow as [|k' [|]]; simpl in Ln; try lia.
  destruct row as [|k0 [|]]; simpl in Lr; try lia.
  destruct (H b 0 xb [k0] [k'] k' Hxb Hrow Hnrow eq_refl) as (e' & He' & Hmin).
  exists k', e'. split; [done|]. split.
  { pose proof (Forall_lookup_1 _ _ _ _ Hr Hnrow) as Hr1. simpl in Hr1.
    by apply Forall_cons in Hr1 as [? _]. }
  split; [done|]. exact Hmin.
Qed.

Lemma refine_indexes_input_free q x indexes indexes' new B :
  wf q → num_codebooks q = 1 →
  shape2 B (dim q) x →
  shape2 B (num_codebooks q) indexes → in_range (codebook_size q) indexes →
  shape2 B (num_codebooks q) indexes' → in_range (codebook_size q) indexes' →
  refine_indexes q x indexes = Ok new → refine_indexes q x indexes' = Ok new.
Proof.
  intros Hwf HC Hx Hi Hr Hi' Hr' Hnew.
  destruct (refine_indexes_total q x indexes' B Hwf Hx Hi' Hr')
    as (new' & Hnew' & Hlen').
  rewrite Hnew'. f_equal.
  destruct (refine_indexes_nearest q x indexes new B) as [HB H]; try done.
  destruct (refine_indexes_nearest q x indexes' new' B) as [HB' H']; try done.
  apply list_eq_same_length with B; [done|done|].
  intros b nrow' nrow Hb Hnrow' Hnrow.
  destruct Hx as [HxB Hx].
  destruct (lookup_lt_is_Some_2 x b) as [xb Hxb]; [lia|].
  destruct (H b xb nrow Hxb Hnrow) as (k1 & e1 & -> & Hk1 & He1 & Hm1).
  destruct (H' b xb nrow' Hxb Hnrow') as (k2 & e2 & -> & Hk2 & He2 & Hm2).
  f_equal.
  by eapply (first_min_unique (λ k, recon_error q [xb] [[k]])
               (codebook_size q) k2 k1 e2 e1).
Qed.

(** With a single codebook [encode] returns the first nearest center. *)
Lemma encode_nearest q x num_iters :
  wf q → num_codebooks q = 1 → 0 < codebook_size q →
  Forall (λ row, length row = dim q) x → 1 ≤ num_iters →
  ∃ code, encode q x num_iters = Ok code ∧ encode q x 1 = Ok code ∧
    (∀ indexes, shape2 (length x) (num_codebooks q) indexes →
       in_range (codebook_size q) indexes →
       refine_indexes q x indexes = Ok code) ∧
    ∀ b xb row, x !! b = Some xb → code !! b = Some row →
      ∃ k' e', row = [k'] ∧ recon_error q [xb] [[k']] = Ok [e'] ∧
        ∀ k, k < codebook_size q →
          ∃ e, recon_error q [xb] [[k]] = Ok [e] ∧
               (e' <= e)%R ∧ (k < k' → (e' < e)%R).
Proof.
  intros Hwf HC HK Hx Hn.
  assert (shape2 (length x) (dim q) x) as Hxs by done.
  destruct (zeros_shape (length x) (num_codebooks q) (codebook_size q) HK)
    as [Hz Hzr].
  destruct (refine_indexes_total q x _ (length x) Hwf Hxs Hz Hzr)
    as (code & Hcode & Hlen).
  destruct (refine_indexes_choice q x _ code (length x) Hwf Hxs Hz Hzr Hcode)
    as (Hcs & Hcr & _).
  assert (∀ indexes, shape2 (length x) (num_codebooks q) indexes →
            in_range (codebook_size q) indexes →
            refine_indexes q x indexes = Ok code) as Hfree.
  { intros indexes Hi Hr.
    exact (refine_indexes_input_free q x _ indexes code (length x)
             Hwf HC Hxs Hz Hzr Hi Hr Hcode). }
  assert (encode q x 1 = Ok code) as H1.
  { unfold encode. rewrite decide_True by done.
    unfold for_range. simpl. by rewrite Hcode. }
  exists code. split; [|split; [done|split; [done|]]].
  - destruct num_iters as [|n]; [lia|].
    unfold encode. rewrite decide_True by done.
    rewrite for_range_S, Hcode. simpl.
    apply for_range_fixed. by apply Hfree.
  - intros b xb row Hxb Hrow.
    destruct (refine_indexes_nearest q x _ code (length x) Hwf HC Hxs Hz Hzr Hcode)
      as [_ H].
    destruct (H b xb row Hxb Hrow) as (k' & e' & -> & _ & He' & Hmin).
    by exists k', e'.
Qed.

(** X8: with a single codebook, one refinement step returns for every
    frame the first nearest center, whatever the input codes; so [encode]
    with at least one iteration returns what one iteration returns, and no
    code has a smaller squared reconstruction error. *)
Theorem encode_single_codebook q x num_iters :
  wf q → num_codebooks q = 1 → 0 < codebook_size q →
  Forall (λ row, length row = dim q) x → 1 ≤ num_iters →
  ∃ code, encode q x num_iters = Ok code ∧ encode q x 1 = Ok code ∧
    (∀ indexes, shape2 (length x) (num_codebooks q) indexes →
       in_range (codebook_size q) indexes →
       refine_indexes q x indexes = Ok code) ∧
    ∀ b xb row, x !! b = Some xb → code !! b = Some row →
      ∃ k' e', row = [k'] ∧ recon_error q [xb] [[k']] = Ok [e'] ∧
        ∀ k, k < codebook_size q →
          ∃ e, recon_error q [xb] [[k]] = Ok [e] ∧
               (e' <= e)%R ∧ (k < k' → (e' < e)%R).
Proof. apply encode_nearest. Qed.

Lemma encode_single_codebook_witness :
  (wf q_balanced ∧ num_codebooks q_balanced = 1 ∧ 0 < codebook_size q_balanced ∧
   Forall (λ row, length row = dim q_balanced) [[1%R; 1%R]] ∧ 1 ≤ 4) ∧
  ∃ code, encode q_balanced [[1%R; 1%R]] 4 = Ok code ∧
    encode q_balanced [[1%R; 1%R]] 1 = Ok code ∧
    (∀ indexes, shape2 (length [[1%R; 1%R]]) (num_codebooks q_balanced) indexes →
       in_range (codebook_size q_balanced) indexes →
       refine_indexes q_balanced [[1%R; 1%R]] indexes = Ok code) ∧
    ∀ b xb row, [[1%R; 1%R]] !! b = Some xb → code !! b = Some row →
      ∃ k' e', row = [k'] ∧ recon_error q_balanced [xb] [[k']] = Ok [e'] ∧
        ∀ k, k < codebook_size q_balanced →
          ∃ e, recon_error q_balanced [xb] [[k]] = Ok [e] ∧
               (e' <= e)%R ∧ (k < k' → (e' < e)%R).
Proof.
  assert (wf q_balanced ∧ num_codebooks q_balanced = 1 ∧
          0 < codebook_size q_balanced ∧
          Forall (λ row, length row = dim q_balanced) [[1%R; 1%R]] ∧ 1 ≤ 4) as H
    by shape_facts.
  split; [exact H|]. destruct H as (H1 & H2 & H3 & H4 & H5).
  exact (encode_single_codebook q_balanced [[1%R; 1%R]] 4 H1 H2 H3 H4 H5).
Defined.

(** ** Orthogonal codebooks *)

Lemma sumsq_cons (a : R) (u : vec) : sumsq (a :: u) = (a * a + sumsq u)%R.
Proof. reflexivity. Qed.

Lemma dot_cons (a b : R) (u v : vec) :
  dot (a :: u) (b :: v) = (a * b + dot u v)%R.
Proof. reflexivity. Qed.

Lemma sumsq_vadd (u v : vec) :
  length u = length v →
  sumsq (vadd u v) = (sumsq u + 2 * dot u v + sumsq v)%R.
Proof.
  revert v. induction u as [|a u IH]; intros [|b v] Hl; try done.
  { unfold sumsq, dot, vadd, Rsum. simpl. lra. }
  injection Hl as Hl. change (vadd (a :: u) (b :: v)) with ((a + b)%R :: vadd u v).
  rewrite !sumsq_cons, dot_cons, (IH v Hl). lra.
Qed.

Lemma dot_vsub_r (v s x : vec) :
  length s = length v → length x = length v →
  dot v (vsub s x) = (dot v s - dot v x)%R.
Proof.
  revert s x. induction v as [|a v IH]; intros [|b s] [|c x] Hs Hx; try done.
  { unfold dot, Rsum. simpl. lra. }
  injection Hs as Hs. injection Hx as Hx.
  change (vsub (b :: s) (c :: x)) with ((b - c)%R :: vsub s x).
  rewrite !dot_cons, (IH s x Hs Hx). lra.
Qed.

Lemma dot_vadd_r (v s x : vec) :
  length s = length v → length x = length v →
  dot v (vadd s x) = (dot v s + dot v x)%R.
Proof.
  revert s x. induction v as [|a v IH]; intros [|b s] [|c x] Hs Hx; try done.
  { unfold dot, Rsum. simpl. lra. }
  injection Hs as Hs. injection Hx as Hx.
  change (vadd (b :: s) (c :: x)) with ((b + c)%R :: vadd s x).
  rewrite !dot_cons, (IH s x Hs Hx). lra.
Qed.

Lemma dot_vzero (v : vec) : dot v (vzero (length v)) = 0%R.
Proof.
  induction v as [|a v IH]; [done|].
  change (vzero (length (a :: v))) with (0%R :: vzero (length v)).
  rewrite dot_cons, IH. lra.
Qed.

Lemma dot_vsum (n : nat) (v : vec) (vs : list vec) :
  length v = n → Forall (λ u, length u = n) vs →
  dot v (vsum n vs) = Rsum (dot v <$> vs).
Proof.
  intros Hv. induction 1 as [|u vs Hu Hvs IH].
  { simpl. rewrite <- Hv. apply dot_vzero. }
  rewrite fmap_cons, Rsum_cons.
  change (vsum n (u :: vs)) with (vadd u (vsum n vs)).
  rewrite dot_vadd_r, IH; [done|lia|].
  rewrite (length_vsum n vs Hvs). lia.
Qed.

Lemma vsub_vadd (v s x : vec) :
  vsub (vadd v s) x = vadd v (vsub s x).
Proof.
  revert s x. induction v as [|a v IH]; intros [|b s] [|c x]; try done.
  change (vsub (vadd (a :: v) (b :: s)) (c :: x))
    with ((a + b - c)%R :: vsub (vadd v s) x).
  change (vadd (a :: v) (vsub (b :: s) (c :: x)))
    with ((a + (b - c))%R :: vadd v (vsub s x)).
  rewrite IH. f_equal. lra.
Qed.

Lemma sumsq_vsub_vzero (x : vec) : sumsq (vsub (vzero (length x)) x) = sumsq x.
Proof.
  induction x as [|a x IH]; [done|].
  change (vsub (vzero (length (a :: x))) (a :: x))
    with ((0 - a)%R :: vsub (vzero (length x)) x).
  rewrite !sumsq_cons, IH. lra.
Qed.

(** The squared error of a sum of pairwise orthogonal vectors splits into
    one term per vector. *)
Lemma sumsq_orthogonal (n : nat) (vs : list vec) (x : vec) :
  length x = n → Forall (λ u, length u = n) vs →
  (∀ i j u w, i ≠ j → vs !! i = Some u → vs !! j = Some w → dot u w = 0%R) →
  sumsq (vsub (vsum n vs) x)
  = (sumsq x + Rsum ((λ v, sumsq v - 2 * dot v x)%R <$> vs))%R.
Proof.
  intros Hx Hvs. induction Hvs as [|v vs Hv Hvs IH]; intros Horth.
  { simpl. rewrite <- Hx, sumsq_vsub_vzero. unfold Rsum. simpl. lra. }
  change (vsum n (v :: vs)) with (vadd v (vsum n vs)).
  pose proof (length_vsum n vs Hvs) as Ls.
  rewrite vsub_vadd, sumsq_vadd.
  2:{ rewrite (length_vsub _ _ n); [done|done|done]. }
  rewrite dot_vsub_r by lia.
  rewrite (dot_vsum n v vs Hv Hvs).
  rewrite (Rsum_fmap_ext _ (λ _, 0%R)), Rsum_zero.
  2:{ apply Forall_lookup. intros j w Hw. simpl.
      by apply (Horth 0 (S j)). }
  rewrite IH.
  2:{ intros i j u w Hij Hu Hw. by apply (Horth (S i) (S j)); [lia|..]. }
  rewrite fmap_cons, Rsum_cons. lra.
Qed.

Lemma gather_centers_orthogonal q row cur :
  orthogonal_codebooks q → gather_centers (centers q) row = Ok cur →
  ∀ i j u w, i ≠ j → cur !! i = Some u → cur !! j = Some w → dot u w = 0%R.
Proof.
  intros Horth Hg i j u w Hij Hu Hw.
  apply gather_centers_Ok in Hg as [Hl Hg].
  assert (∀ i u, cur !! i = Some u →
            ∃ cb, centers q !! i = Some cb ∧ u ∈ cb) as Hin.
  { intros i' u' Hu'. pose proof (lookup_lt_Some _ _ _ Hu') as Hlt.
    rewrite Hl, length_zip_with in Hlt.
    destruct (lookup_lt_is_Some_2 (centers q) i') as [cb Hcb]; [lia|].
    destruct (lookup_lt_is_Some_2 row i') as [k0 Hk0]; [lia|].
    exists cb. split; [done|].
    apply list_elem_of_lookup. exists k0. by eapply Hg. }
  destruct (Hin i u Hu) as (cbi & Hcbi & Hui).
  destruct (Hin j w Hw) as (cbj & Hcbj & Hwj).
  by eapply Horth.
Qed.

(** With orthogonal codebooks the squared error of a code is a sum of one
    term per codebook. *)
Lemma recon_error_separable q xb row cur :
  wf q → orthogonal_codebooks q → length xb = dim q →
  gather_centers (centers q) row = Ok cur →
  recon_error q [xb] [row]
  = Ok [(sumsq xb + Rsum ((λ v, sumsq v - 2 * dot v xb)%R <$> cur))%R].
Proof.
  intros Hwf Horth Hxb Hg.
  rewrite (recon_error_frame q xb row cur Hg). do 2 f_equal.
  apply sumsq_orthogonal; [done| |by eapply gather_centers_orthogonal].
  destruct Hwf as [HC Hcs]. by eapply gather_centers_dim.
Qed.

Lemma Rsum_le_lookup {A : Type} (f : A → R) (l l' : list A) :
  length l = length l' →
  (∀ i a b, l !! i = Some a → l' !! i = Some b → (f a <= f b)%R) →
  (Rsum (f <$> l) <= Rsum (f <$> l'))%R.
Proof.
  revert l'. induction l as [|a l IH]; intros [|b l'] Hl H; try done.
  injection Hl as Hl. rewrite !fmap_cons, !Rsum_cons.
  pose proof (H 0 a b eq_refl eq_refl).
  pose proof (IH l' Hl (λ i, H (S i))). lra.
Qed.

(** With orthogonal codebooks the index that [refine_indexes] returns for
    a codebook is the first minimizer of that codebook's own term. *)
Lemma refine_indexes_orthogonal_choice q x indexes new B :
  wf q → orthogonal_codebooks q →
  shape2 B (dim q) x → shape2 B (num_codebooks q) indexes →
  in_range (codebook_size q) indexes →
  refine_indexes q x indexes = Ok new →
  ∀ b c xb nrow k' cb, x !! b = Some xb → new !! b = Some nrow →
    nrow !! c = Some k' → centers q !! c = Some cb →
    ∃ ce', cb !! k' = Some ce' ∧
      ∀ k ce, cb !! k = Some ce →
        (sumsq ce' - 2 * dot ce' xb <= sumsq ce - 2 * dot ce xb)%R ∧
        (k < k' → (sumsq ce' - 2 * dot ce' xb < sumsq ce - 2 * dot ce xb)%R).
Proof.
  intros Hwf Horth Hx Hi Hrange Hnew b c xb nrow k' cb Hxb Hnrow Hk' Hcb.
  destruct (refine_indexes_choice q x indexes new B Hwf Hx Hi Hrange Hnew)
    as ([HnB Hns] & Hnr & Hbest).
  pose proof Hx as [HxB Hxd]. pose proof Hi as [HiB Hil].
  pose proof (lookup_lt_Some _ _ _ Hnrow) as Hb.
  destruct (lookup_lt_is_Some_2 indexes b) as [row Hrow]; [lia|].
  pose proof (Forall_lookup_1 _ _ _ _ Hil Hrow) as Lrow.
  pose proof (Forall_lookup_1 _ _ _ _ Hxd Hxb) as Lxb.
  pose proof (Forall_lookup_1 _ _ _ _ Hrange Hrow) as Hrr. simpl in *.
  pose proof Hwf as [HC Hcs].
  pose proof (Forall_lookup_1 _ _ _ _ Hcs Hcb) as [LK _].
  assert (c < num_codebooks q) as Hc.
  { rewrite <- HC. by eapply lookup_lt_Some. }
  destruct (gather_centers_total (codebook_size q) (centers q) row) as [cur Hg].
  { eapply Forall_weaken; [exact Hcs|]. by intros ? [? _]. }
  { done. }
  destruct (gather_centers_row q row cur c Hwf Lrow Hrr Hg Hc)
    as (cb' & cu & k0 & Hcb' & Hcu & Hk0 & Hcuk & _).
  assert (cb' = cb) as -> by congruence.
  assert (∀ k ce, cb !! k = Some ce →
            recon_error q [xb] [<[c := k]> row]
            = Ok [(sumsq xb + (Rsum ((λ v, sumsq v - 2 * dot v xb)%R <$> cur)
                               - (sumsq cu - 2 * dot cu xb)
                               + (sumsq ce - 2 * dot ce xb)))%R]) as Hcost.
  { intros k ce Hce.
    rewrite (recon_error_separable q xb _ (<[c := ce]> cur)); try done.
    - by rewrite (Rsum_insert _ cur c cu ce Hcu).
    - by eapply gather_centers_insert. }
  destruct (Hbest b c xb row nrow k' Hxb Hrow Hnrow Hk') as (e' & He' & Hmin).
  pose proof (Forall_lookup_1 _ _ _ _ Hnr Hnrow) as Hnrr. simpl in Hnrr.
  pose proof (Forall_lookup_1 _ _ _ _ Hnrr Hk') as Hk'K. simpl in Hk'K.
  destruct (lookup_lt_is_Some_2 cb k') as [ce' Hce']; [lia|].
  exists ce'. split; [done|]. intros k ce Hce.
  pose proof (lookup_lt_Some _ _ _ Hce) as HkK. rewrite LK in HkK.
  destruct (Hmin k HkK) as (e & He & Hle & Hlt).
  rewrite (Hcost k' ce' Hce') in He'. rewrite (Hcost k ce Hce) in He.
  injection He' as <-. injection He as <-.
  split; [lra|]. intros Hkk. specialize (Hlt Hkk). lra.
Qed.

(** With orthogonal codebooks one deterministic step reaches, from any
    codes, the code of least squared error. *)
Lemma refine_orthogonal q x B :
  wf q → orthogonal_codebooks q → shape2 B (dim q) x → 0 < codebook_size q →
  ∃ new,
    (∀ indexes, shape2 B (num_codebooks q) indexes →
       in_range (codebook_size q) indexes →
       refine_indexes q x indexes = Ok new) ∧
    shape2 B (num_codebooks q) new ∧ in_range (codebook_size q) new ∧
    ∀ b xb nrow code, x !! b = Some xb → new !! b = Some nrow →
      length code = num_codebooks q → Forall (λ k, k < codebook_size q) code →
      ∃ e' e, recon_error q [xb] [nrow] = Ok [e'] ∧
              recon_error q [xb] [code] = Ok [e] ∧ (e' <= e)%R.
Proof.
  intros Hwf Horth Hx HK.
  destruct (zeros_shape B (num_codebooks q) (codebook_size q) HK) as [Hz Hzr].
  destruct (refine_indexes_total q x _ B Hwf Hx Hz Hzr) as (new & Hnew & Hlen).
  destruct (refine_indexes_choice q x _ new B Hwf Hx Hz Hzr Hnew)
    as (Hns & Hnr & _).
  pose proof Hwf as [HC Hcs]. pose proof Hx as [HxB Hxd].
  exists new. split; [|split; [done|split; [done|]]].
  - intros indexes Hi Hr.
    destruct (refine_indexes_total q x indexes B Hwf Hx Hi Hr)
      as (new' & Hnew' & Hlen').
    rewrite Hnew'. f_equal.
    destruct (refine_indexes_choice q x indexes new' B Hwf Hx Hi Hr Hnew')
      as (Hns' & Hnr' & _).
    apply list_eq_same_length with B; [done|done|].
    intros b nrow' nrow Hb Hnrow' Hnrow.
    destruct Hns as [_ Hns]. destruct Hns' as [_ Hns'].
    pose proof (Forall_lookup_1 _ _ _ _ Hns Hnrow) as Ln.
    pose proof (Forall_lookup_1 _ _ _ _ Hns' Hnrow') as Ln'. simpl in Ln, Ln'.
    apply list_eq_same_length with (num_codebooks q); [done|done|].
    intros c k2 k1 Hc Hk2 Hk1.
    destruct (lookup_lt_is_Some_2 x b) as [xb Hxb]; [lia|].
    destruct (lookup_lt_is_Some_2 (centers q) c) as [cb Hcb]; [lia|].
    destruct (refine_indexes_orthogonal_choice q x _ new B Hwf Horth Hx Hz Hzr
                Hnew b c xb nrow k1 cb Hxb Hnrow Hk1 Hcb) as (ce1 & Hce1 & Hm1).
    destruct (refine_indexes_orthogonal_choice q x indexes new' B Hwf Horth Hx
                Hi Hr Hnew' b c xb nrow' k2 cb Hxb Hnrow' Hk2 Hcb)
      as (ce2 & Hce2 & Hm2).
    destruct (Hm1 k2 ce2 Hce2) as [Hle1 Hlt1].
    destruct (Hm2 k1 ce1 Hce1) as [Hle2 Hlt2].
    destruct (Nat.lt_trichotomy k1 k2) as [Hlt|[->|Hgt]]; [|done|].
    + specialize (Hlt2 Hlt). lra.
    + specialize (Hlt1 Hgt). lra.
  - intros b xb nrow code Hxb Hnrow Lcode Hcode.
    pose proof (Forall_lookup_1 _ _ _ _ Hxd Hxb) as Lxb. simpl in Lxb.
    destruct Hns as [_ Hns].
    pose proof (Forall_lookup_1 _ _ _ _ Hns Hnrow) as Ln. simpl in Ln.
    pose proof (Forall_lookup_1 _ _ _ _ Hnr Hnrow) as Hnrr. simpl in Hnrr.
    assert (Forall (λ cb : list vec, length cb = codebook_size q) (centers q))
      as HKs.
    { eapply Forall_weaken; [exact Hcs|]. by intros ? [? _]. }
    destruct (gather_centers_total (codebook_size q) (centers q) nrow HKs Hnrr)
      as [cur' Hg'].
    destruct (gather_centers_total (codebook_size q) (centers q) code HKs Hcode)
      as [cur Hg].
    eexists _, _.
    split; [by apply recon_error_separable|].
    split; [by apply recon_error_separable|].
    apply Rplus_le_compat_l, Rsum_le_lookup.
    { rewrite (gather_centers_length _ _ _ _ Hg' HC Ln).
      by rewrite (gather_centers_length _ _ _ _ Hg HC Lcode). }
    intros c u w Hu Hw.
    pose proof (lookup_lt_Some _ _ _ Hu) as Hc.
    rewrite (gather_centers_length _ _ _ _ Hg' HC Ln) in Hc.
    destruct (gather_centers_row q nrow cur' c Hwf Ln Hnrr Hg' Hc)
      as (cb & u' & k' & Hcb & Hu' & Hk' & Hcbk' & _).
    destruct (gather_centers_row q code cur c Hwf Lcode Hcode Hg Hc)
      as (cb' & w' & k & Hcb' & Hw' & Hk & Hcbk & _).
    assert (cb' = cb) as -> by congruence.
    assert (u' = u) as -> by congruence. assert (w' = w) as -> by congruence.
    destruct (refine_indexes_orthogonal_choice q x _ new B Hwf Horth Hx Hz Hzr
                Hnew b c xb nrow k' cb Hxb Hnrow Hk' Hcb) as (ce' & Hce' & Hm).
    assert (ce' = u) as -> by congruence.
    by destruct (Hm k w Hcbk) as [? _].
Qed.

Lemma q_axes_orthogonal : orthogonal_codebooks q_axes.
Proof.
  intros i j cbi cbj u v Hij Hi Hj Hu Hv.
  destruct i as [|[|i]]; destruct j as [|[|j]]; try done;
    simpl in Hi, Hj; injection Hi as <-; injection Hj as <-;
    repeat (apply elem_of_cons in Hu as [->|Hu]);
    repeat (apply elem_of_cons in Hv as [->|Hv]);
    try (by apply elem_of_nil in Hu); try (by apply elem_of_nil in Hv);
    unfold dot, Rsum; simpl; lra.
Qed.

(** X9: if the centers of different codebooks are orthogonal to each
    other, one step of [refine_indexes] returns, from whatever codes in
    range it is given, one and the same code tensor, and no code tuple has
    a smaller squared reconstruction error for any frame: in particular
    the step does not increase the error. *)
Theorem refine_indexes_orthogonal q x B :
  wf q → orthogonal_codebooks q → shape2 B (dim q) x → 0 < codebook_size q →
  ∃ new,
    (∀ indexes, shape2 B (num_codebooks q) indexes →
       in_range (codebook_size q) indexes →
       refine_indexes q x indexes = Ok new) ∧
    shape2 B (num_codebooks q) new ∧ in_range (codebook_size q) new ∧
    ∀ b xb nrow code, x !! b = Some xb → new !! b = Some nrow →
      length code = num_codebooks q → Forall (λ k, k < codebook_size q) code →
      ∃ e' e, recon_error q [xb] [nrow] = Ok [e'] ∧
              recon_error q [xb] [code] = Ok [e] ∧ (e' <= e)%R.
Proof. apply refine_orthogonal. Qed.

Lemma refine_indexes_orthogonal_witness :
  (wf q_axes ∧ orthogonal_codebooks q_axes ∧
   shape2 1 (dim q_axes) [[2%R; 2%R]] ∧ 0 < codebook_size q_axes) ∧
  ∃ new,
    (∀ indexes, shape2 1 (num_codebooks q_axes) indexes →
       in_range (codebook_size q_axes) indexes →
       refine_indexes q_axes [[2%R; 2%R]] indexes = Ok new) ∧
    shape2 1 (num_codebooks q_axes) new ∧ in_range (codebook_size q_axes) new ∧
    ∀ b xb nrow code, [[2%R; 2%R]] !! b = Some xb → new !! b = Some nrow →
      length code = num_codebooks q_axes →
      Forall (λ k, k < codebook_size q_axes) code →
      ∃ e' e, recon_error q_axes [xb] [nrow] = Ok [e'] ∧
              recon_error q_axes [xb] [code] = Ok [e] ∧ (e' <= e)%R.
Proof.
  assert (wf q_axes ∧ orthogonal_codebooks q_axes ∧
          shape2 1 (dim q_axes) [[2%R; 2%R]] ∧ 0 < codebook_size q_axes) as H.
  { split; [shape_facts|]. split; [exact q_axes_orthogonal|]. shape_facts. }
  split; [exact H|]. destruct H as (H1 & H2 & H3 & H4).
  exact (refine_indexes_orthogonal q_axes [[2%R; 2%R]] 1 H1 H2 H3 H4).
Defined.

(** With orthogonal codebooks [encode] returns the code of least squared
    error. *)
Lemma encode_orthogonal_best q x num_iters :
  wf q → orthogonal_codebooks q → 0 < codebook_size q →
  Forall (λ row, length row = dim q) x → 1 ≤ num_iters →
  ∃ code, encode q x num_iters = Ok code ∧ encode q x 1 = Ok code ∧
    ∀ b xb row code', x !! b = Some xb → code !! b = Some row →
      length code' = num_codebooks q →
      Forall (λ k, k < codebook_size q) code' →
      ∃ e' e, recon_error q [xb] [row] = Ok [e'] ∧
              recon_error q [xb] [code'] = Ok [e] ∧ (e' <= e)%R.
Proof.
  intros Hwf Horth HK Hx Hn.
  assert (shape2 (length x) (dim q) x) as Hxs by done.
  destruct (refine_orthogonal q x (length x) Hwf Horth Hxs HK)
    as (code & Hfree & Hcs & Hcr & Hbest).
  destruct (zeros_shape (length x) (num_codebooks q) (codebook_size q) HK)
    as [Hz Hzr].
  exists code. split; [|split; [|done]].
  - destruct num_iters as [|n]; [lia|].
    unfold encode. rewrite decide_True by done.
    rewrite for_range_S, (Hfree _ Hz Hzr). simpl.
    apply for_range_fixed. by apply Hfree.
  - unfold encode. rewrite decide_True by done.
    unfold for_range. simpl. by rewrite (Hfree _ Hz Hzr).
Qed.

(** X10: if the centers of different codebooks are orthogonal to each
    other, [encode] with at least one iteration returns what one iteration
    returns, and no code tuple has a smaller squared reconstruction error
    for any frame. *)
Theorem encode_orthogonal q x num_iters :
  wf q → orthogonal_codebooks q → 0 < codebook_size q →
  Forall (λ row, length row = dim q) x → 1 ≤ num_iters →
  ∃ code, encode q x num_iters = Ok code ∧ encode q x 1 = Ok code ∧
    ∀ b xb row code', x !! b = Some xb → code !! b = Some row →
      length code' = num_codebooks q →
      Forall (λ k, k < codebook_size q) code' →
      ∃ e' e, recon_error q [xb] [row] = Ok [e'] ∧
              recon_error q [xb] [code'] = Ok [e] ∧ (e' <= e)%R.
Proof. apply encode_orthogonal_best. Qed.

Lemma encode_orthogonal_witness :
  (wf q_axes ∧ orthogonal_codebooks q_axes ∧ 0 < codebook_size q_axes ∧
   Forall (λ row, length row = dim q_axes) [[2%R; 2%R]] ∧ 1 ≤ 4) ∧
  ∃ code, encode q_axes [[2%R; 2%R]] 4 = Ok code ∧
    encode q_axes [[2%R; 2%R]] 1 = Ok code ∧
    ∀ b xb row code', [[2%R; 2%R]] !! b = Some xb → code !! b = Some row →
      length code' = num_codebooks q_axes →
      Forall (λ k, k < codebook_size q_axes) code' →
      ∃ e' e, recon_error q_axes [xb] [row] = Ok [e'] ∧
              recon_error q_axes [xb] [code'] = Ok [e] ∧ (e' <= e)%R.
Proof.
  assert (wf q_axes ∧ orthogonal_codebooks q_axes ∧ 0 < codebook_size q_axes ∧
          Forall (λ row, length row = dim q_axes) [[2%R; 2%R]] ∧ 1 ≤ 4) as H.
  { split; [shape_facts|]. split; [exact q_axes_orthogonal|]. shape_facts. }
  split; [exact H|]. destruct H as (H1 & H2 & H3 & H4 & H5).
  exact (encode_orthogonal q_axes [[2%R; 2%R]] 4 H1 H2 H3 H4 H5).
Defined.

(** ** __init__ *)

(** X11: the constructor raises [ZeroDivisionError] for [dim = 0]
    ([dim ** -0.5]); for [dim > 0] it returns a quantizer whose [centers]
    have shape (num_codebooks, codebook_size, dim) and whose
    [frame_entropy_scale] is zero, and the squared norm of every center is
    the mean of the squares of its [dim] standard normal draws. *)
Theorem init_contract (D K C : nat) (randn : nat → nat → nat → R) :
  (D = 0 → init D K C randn = Raise ZeroDivisionError) ∧
  (D ≠ 0 →
   ∃ q, init D K C randn = Ok q ∧
     dim q = D ∧ codebook_size q = K ∧ num_codebooks q = C ∧
     frame_entropy_scale q = 0%R ∧ wf q ∧
     ∀ c k, c < C → k < K →
       ∃ v, get_row (centers q) c k = Ok v ∧
         sumsq v
         = (Rsum ((λ d, randn c k d * randn c k d) <$> seq 0 D) / INR D)%R).
Proof.
  split; intros HD; unfold init.
  { by rewrite decide_True. }
  rewrite decide_False by done. eexists. split; [done|]. simpl.
  do 4 (split; [done|]). split; [apply init_shape|].
  intros c k Hc Hk. unfold get_row.
  rewrite list_lookup_fmap, lookup_seq_lt by done. simpl.
  rewrite list_lookup_fmap, lookup_seq_lt by done. simpl.
  eexists. split; [done|]. unfold sumsq.
  rewrite <- list_fmap_compose.
  assert (0 < INR D)%R as HD' by (apply lt_0_INR; lia).
  rewrite (Rsum_fmap_ext _ (λ d, / INR D * (randn c k d * randn c k d) + 0)%R).
  - rewrite Rsum_fmap_affine. unfold Rdiv. lra.
  - apply Forall_forall. intros d _. simpl.
    pose proof (sqrt_sqrt (INR D) (Rlt_le _ _ HD')) as Hs.
    assert (sqrt (INR D) ≠ 0)%R as Hne.
    { intros H0. rewrite H0 in Hs. lra. }
    rewrite <- Hs at 3. field. done.
Qed.

(** ** get_product_quantizer: codes of the product *)

Lemma get_product_quantizer_wf q randn r :
  wf q → dim q ≠ 0 → get_product_quantizer q randn = Ok r →
  wf r ∧ dim r = dim q ∧ codebook_size r = codebook_size q ^ 2 ∧
  num_codebooks r = num_codebooks q / 2 ∧ frame_entropy_scale r = 0%R ∧
  product_inv q (num_codebooks q / 2) 0 0 (centers r).
Proof.
  intros Hwf Hdim Hr.
  destruct (get_product_quantizer_spec q randn Hwf Hdim)
    as (r' & Hr' & Hd & HK & HC & Hs & Hinv).
  assert (r' = r) as -> by congruence.
  split; [|done]. unfold wf. rewrite HC, HK, Hd. by destruct Hinv.
Qed.

(** X12: the result of [get_product_quantizer] does not depend on the
    random initialization of the new instance (the loops overwrite every
    center), and its [frame_entropy_scale] is zero, whatever that of the
    source: the temperature is not carried over. *)
Theorem get_product_quantizer_fresh q :
  wf q → dim q ≠ 0 →
  ∃ r, (∀ randn, get_product_quantizer q randn = Ok r) ∧
    frame_entropy_scale r = 0%R ∧ wf r ∧ dim r = dim q ∧
    codebook_size r = codebook_size q ^ 2 ∧
    num_codebooks r = num_codebooks q / 2.
Proof.
  intros Hwf Hdim.
  destruct (get_product_quantizer_spec q randn0 Hwf Hdim) as (r & Hr & _).
  destruct (get_product_quantizer_wf q randn0 r Hwf Hdim Hr)
    as (Hwfr & Hd & HK & HC & Hs & _).
  exists r. split; [|done]. intros randn. rewrite <- Hr.
  by apply get_product_quantizer_reads.
Qed.

Lemma get_product_quantizer_fresh_witness :
  (wf q_four ∧ dim q_four ≠ 0) ∧
  ∃ r, (∀ randn, get_product_quantizer q_four randn = Ok r) ∧
    frame_entropy_scale r = 0%R ∧ wf r ∧ dim r = dim q_four ∧
    codebook_size r = codebook_size q_four ^ 2 ∧
    num_codebooks r = num_codebooks q_four / 2.
Proof.
  assert (wf q_four ∧ dim q_four ≠ 0) as H by shape_facts.
  split; [exact H|]. destruct H as (H1 & H2).
  exact (get_product_quantizer_fresh q_four H1 H2).
Defined.











Lemma recon_error_paired q r x code B C' :
  wf q → num_codebooks q = 2 * C' →
  product_inv q (num_codebooks q / 2) 0 0 (centers r) → dim r = dim q →
  shape2 B (num_codebooks q) code → in_range (codebook_size q) code →
  recon_error r x (pair_codes (codebook_size q) code) = recon_error q x code.
Proof.
  intros Hwf HC Hinv Hd Hs Hr.
  destruct (decode_paired q r code B C' Hwf HC Hinv Hd Hs Hr) as (xs & Hq & Hp).
  unfold recon_error. by rewrite Hq, Hp.
Qed.

(** X15: for a quantizer of two codebooks, [encode] on its product
    quantizer searches all pairs: the code it returns (with at least one
    iteration) has a squared reconstruction error not larger than that of
    any code tuple of the two source codebooks. *)
Theorem product_encode_exhaustive q randn x num_iters :
  wf q → dim q ≠ 0 → num_codebooks q = 2 → 0 < codebook_size q →
  Forall (λ row, length row = dim q) x → 1 ≤ num_iters →
  ∃ r code, get_product_quantizer q randn = Ok r ∧
    encode r x num_iters = Ok code ∧
    ∀ b xb row k1 k2, x !! b = Some xb → code !! b = Some row →
      k1 < codebook_size q → k2 < codebook_size q →
      ∃ e' e, recon_error r [xb] [row] = Ok [e'] ∧
              recon_error q [xb] [[k1; k2]] = Ok [e] ∧ (e' <= e)%R.
Proof.
  intros Hwf Hdim HC HK Hx Hn.
  destruct (get_product_quantizer_spec q randn Hwf Hdim) as (r & Hr & _).
  destruct (get_product_quantizer_wf q randn r Hwf Hdim Hr)
    as (Hwfr & Hd & HKr & HCr & _ & Hinv).
  assert (num_codebooks r = 1) as HC1 by (by rewrite HCr, HC).
  assert (0 < codebook_size r) as HKr'.
  { rewrite HKr, Nat.pow_2_r. nia. }
  assert (Forall (λ row, length row = dim r) x) as Hxr by (by rewrite Hd).
  destruct (encode_nearest r x num_iters Hwfr HC1 HKr' Hxr Hn)
    as (code & Hcode & _ & _ & Hbest).
  exists r, code. split; [done|]. split; [done|].
  intros b xb row k1 k2 Hxb Hrow Hk1 Hk2.
  destruct (Hbest b xb row Hxb Hrow) as (k' & e' & -> & He' & Hmin).
  destruct (Hmin (k1 * codebook_size q + k2)) as (e & He & Hle & _).
  { rewrite HKr, Nat.pow_2_r. nia. }
  exists e', e. split; [done|]. split; [|done].
  rewrite <- He. symmetry.
  apply (recon_error_paired q r [xb] [[k1; k2]] 1 1); try done.
  - split; [done|]. constructor; [|constructor]. by rewrite HC.
  - constructor; [|constructor]. constructor; [done|]. constructor; [done|].
    constructor.
Qed.

Lemma product_encode_exhaustive_witness :
  (wf q_merge ∧ dim q_merge ≠ 0 ∧ num_codebooks q_merge = 2 ∧
   0 < codebook_size q_merge ∧
   Forall (λ row, length row = dim q_merge) [[1%R; 1%R]] ∧ 1 ≤ 4) ∧
  ∃ r code, get_product_quantizer q_merge randn0 = Ok r ∧
    encode r [[1%R; 1%R]] 4 = Ok code ∧
    ∀ b xb row k1 k2, [[1%R; 1%R]] !! b = Some xb → code !! b = Some row →
      k1 < codebook_size q_merge → k2 < codebook_size q_merge →
      ∃ e' e, recon_error r [xb] [row] = Ok [e'] ∧
              recon_error q_merge [xb] [[k1; k2]] = Ok [e] ∧ (e' <= e)%R.
Proof.
  assert (wf q_merge ∧ dim q_merge ≠ 0 ∧ num_codebooks q_merge = 2 ∧
          0 < codebook_size q_merge ∧
          Forall (λ row, length row = dim q_merge) [[1%R; 1%R]] ∧ 1 ≤ 4) as H
    by shape_facts.
  split; [exact H|]. destruct H as (H1 & H2 & H3 & H4 & H5 & H6).
  exact (product_encode_exhaustive q_merge randn0 [[1%R; 1%R]] 4
           H1 H2 H3 H4 H5 H6).
Defined.

(** ** The stochastic step: sampling *)



(** The logits that the stochastic step samples from, entry by entry. *)
Lemma codebook_logprobs_lookup q (errs : Var (list (list (list R)))) b c z :
  data errs !! b ≫= (.!! c) = Some z →
  (fmap (M := list) Categorical_sample
     <$> data (codebook_logprobs_detached q errs)) !! b ≫= (.!! c)
  = Some (Categorical_sample
            (log_softmax ((λ v, v * - exp (10 * frame_entropy_scale q))%R <$> z))).
Proof.
  intros Hz. simpl. unfold tmap2, tscale, tmap3, tmap2.
  rewrite !list_lookup_fmap.
  destruct (data errs !! b) as [f0|]; [|done]. simpl in *.
  rewrite !list_lookup_fmap, Hz. done.
Qed.

Lemma sampled_indexes_masses q (errs : Var (list (list (list R)))) B :
  0 < codebook_size q →
  shape3 B (num_codebooks q) (codebook_size q) (data errs) →
  Forall (Forall (λ d : Dist nat, mass d = 1%R))
    (fmap (M := list) Categorical_sample
       <$> data (codebook_logprobs_detached q errs)).
Proof.
  intros HK [LB Hshape].
  apply Forall_fmap, Forall_lookup. intros b' f' Hf'. simpl.
  apply Forall_fmap, Forall_lookup. intros c' z' Hz'. simpl.
  apply mass_Categorical_sample.
  simpl in Hf'. unfold tmap2, tscale, tmap3 in Hf'.
  rewrite !list_lookup_fmap in Hf'.
  destruct (data errs !! b') as [f0|] eqn:Hf0; [|done].
  pose proof (Forall_lookup_1 _ _ _ _ Hshape Hf0) as [L0 H0].
  simpl in Hf'. injection Hf' as <-. unfold tmap2 in Hz'.
  rewrite !list_lookup_fmap in Hz'.
  destruct (f0 !! c') as [z0|] eqn:Hz0; [|done].
  pose proof (Forall_lookup_1 _ _ _ _ H0 Hz0) as Lz0. simpl in *.
  injection Hz' as <-. intros Hnil.
  apply (f_equal length) in Hnil.
  rewrite length_log_softmax, length_fmap, Lz0 in Hnil. simpl in Hnil. lia.
Qed.

Lemma sampled_indexes_eq q (errs : Var (list (list (list R)))) :
  sampled_indexes q errs
  = dsequence (dsequence <$> (fmap (M := list) Categorical_sample
                                <$> data (codebook_logprobs_detached q errs))).
Proof. unfold sampled_indexes. by rewrite <- list_fmap_compose. Qed.


(** The probability that the stochastic step draws candidate [k] for
    codebook [c] of frame [b]. *)
Lemma sampled_indexes_prob q (errs : Var (list (list (list R)))) B b c k z :
  0 < codebook_size q →
  shape3 B (num_codebooks q) (codebook_size q) (data errs) →
  data errs !! b ≫= (.!! c) = Some z →
  prob (λ t, match t !! b ≫= (.!! c) with
             | Some a => bool_decide (a = k)
             | None => false
             end) (sampled_indexes q errs)
  = default 0%R
      (softmax ((λ v, v * - exp (10 * frame_entropy_scale q))%R <$> z) !! k).
Proof.
  intros HK Hshape Hz. rewrite sampled_indexes_eq.
  rewrite (prob_matrix_coord _ _ b c _ (sampled_indexes_masses q errs B HK Hshape)
             (codebook_logprobs_lookup q errs b c z Hz)).
  rewrite Categorical_sample_zip, (prob_zip_seq _ 0 k).
  by rewrite Categorical_probs_log_softmax.
Qed.

Lemma softmax_lookup (z : list R) (k : nat) (v : R) :
  z !! k = Some v →
  softmax z !! k = Some (exp v / Rsum (exp <$> z))%R.
Proof. intros H. unfold softmax. by rewrite list_lookup_fmap, H. Qed.

(** A larger logit has a larger probability. *)
Lemma softmax_mono (z : list R) (k1 k2 : nat) (v1 v2 : R) :
  z !! k1 = Some v1 → z !! k2 = Some v2 → (v1 <= v2)%R →
  (default 0 (softmax z !! k1) <= default 0 (softmax z !! k2))%R.
Proof.
  intros H1 H2 Hle.
  rewrite (softmax_lookup _ _ _ H1), (softmax_lookup _ _ _ H2). simpl.
  assert (0 < Rsum (exp <$> z))%R as HS.
  { apply Rsum_exp_pos. intros ->. done. }
  apply Rmult_le_compat_r.
  - apply Rlt_le, Rinv_0_lt_compat, HS.
  - destruct Hle as [Hlt| ->]; [apply Rlt_le, exp_increasing, Hlt|lra].
Qed.


(** What the stochastic step returns on a non-empty batch, with the tensor
    of costs it is computed from. *)
Lemma refine_indexes_stochastic_costs q xs g indexes B :
  wf q → 0 < B → 0 < num_codebooks q →
  shape2 B (dim q) xs → shape2 B (num_codebooks q) indexes →
  in_range (codebook_size q) indexes →
  0 < codebook_size q ∧
  ∃ errs,
    modified_sumsq_errs q xs indexes = Ok (data errs) ∧
    shape3 B (num_codebooks q) (codebook_size q) (data errs) ∧
    refine_indexes_stochastic q (input_tensor xs g) indexes
    = Ok (sampled_indexes q errs,
          op1 (fmap (λ h, ln (INR (codebook_size q)) - h)%R) (class_entropy q errs),
          avg_frame_entropy q errs,
          reconstruction_loss q (input_tensor xs g) errs).
Proof.
  intros Hwf HB HC [Hxs _] Hi Hrange.
  pose proof (in_range_nonempty _ _ _ _ HB HC Hi Hrange) as HK.
  split; [done|].
  destruct (refine_indexes_stochastic_Ok q xs g indexes Hwf Hrange HK)
    as (errs & He & _ & _ & Hr).
  exists errs. split; [done|]. split; [|done].
  exact (modified_sumsq_errs_shape q xs indexes (data errs) B Hwf Hxs Hi He).
Qed.



(** X17: the stochastic step prefers candidates with a smaller squared
    error: of two candidates of one codebook, the one whose replacement
    error is not larger is drawn with a probability that is not smaller.
    So the index that the deterministic step [refine_indexes] returns is,
    for every frame and codebook, a most probable outcome of the
    stochastic step. *)
Theorem deterministic_choice_is_mode q xs g indexes B :
  wf q → 0 < B → 0 < num_codebooks q →
  shape2 B (dim q) xs → shape2 B (num_codebooks q) indexes →
  in_range (codebook_size q) indexes →
  ∃ errs new d el fe rl,
    modified_sumsq_errs q xs indexes = Ok errs ∧
    refine_indexes q xs indexes = Ok new ∧
    refine_indexes_stochastic q (input_tensor xs g) indexes
    = Ok (d, el, fe, rl) ∧
    let P b c k :=
      prob (λ new', match new' !! b ≫= (.!! c) with
                    | Some a => bool_decide (a = k)
                    | None => false
                    end) d in
    (∀ b c k1 k2 e1 e2,
       (errs !! b ≫= (.!! c)) ≫= (.!! k1) = Some e1 →
       (errs !! b ≫= (.!! c)) ≫= (.!! k2) = Some e2 →
       (e1 <= e2)%R → (P b c k2 <= P b c k1)%R) ∧
    (∀ b c nrow k' k, new !! b = Some nrow → nrow !! c = Some k' →
       k < codebook_size q → (P b c k <= P b c k')%R).
Proof.
  intros Hwf HB HC Hx Hi Hrange.
  destruct (refine_indexes_stochastic_costs q xs g indexes B Hwf HB HC Hx Hi Hrange)
    as (HK & errs & He & Hshape & Hr).
  destruct (refine_indexes_total q xs indexes B Hwf Hx Hi Hrange)
    as (new & Hnew & Hlen).
  exists (data errs), new. eexists _, _, _, _.
  split; [done|]. split; [done|]. split; [exact Hr|]. simpl.
  assert (∀ b c k1 k2 e1 e2,
            (data errs !! b ≫= (.!! c)) ≫= (.!! k1) = Some e1 →
            (data errs !! b ≫= (.!! c)) ≫= (.!! k2) = Some e2 →
            (e1 <= e2)%R →
            (prob (λ new', match new' !! b ≫= (.!! c) with
                           | Some a => bool_decide (a = k2)
                           | None => false
                           end) (sampled_indexes q errs)
             <= prob (λ new', match new' !! b ≫= (.!! c) with
                              | Some a => bool_decide (a = k1)
                              | None => false
                              end) (sampled_indexes q errs))%R) as Hmono.
  { intros b c k1 k2 e1 e2 H1 H2 Hle.
    destruct (data errs !! b ≫= (.!! c)) as [z|] eqn:Hz; [|done].
    simpl in H1, H2.
    rewrite !(sampled_indexes_prob q errs B b c _ z HK Hshape Hz).
    eapply softmax_mono.
    - rewrite list_lookup_fmap, H2. done.
    - rewrite list_lookup_fmap, H1. done.
    - pose proof (exp_pos (10 * frame_entropy_scale q)). nra. }
  split; [exact Hmono|].
  intros b c nrow k' k Hnrow Hk' Hk.
  destruct Hx as [HxB Hxd]. pose proof Hi as [HiB Hil].
  pose proof (lookup_lt_Some _ _ _ Hnrow) as Hb.
  destruct (lookup_lt_is_Some_2 xs b) as [xb Hxb]; [lia|].
  destruct (lookup_lt_is_Some_2 indexes b) as [row Hrow]; [lia|].
  destruct (refine_indexes_lookup _ _ _ _ _ _ _ _ Hnew Hxb Hrow Hnrow)
    as (cur & Hg & Hl & Hc).
  destruct (Hc c k' Hk') as (cb & cu & Hcb & Hcu & Harg).
  destruct (modified_sumsq_errs_lookup _ _ _ _ _ _ _ He Hxb Hrow)
    as (cur' & Hg' & Hent).
  assert (cur' = cur) as -> by congruence.
  specialize (Hent c cb cu Hcb Hcu).
  apply argmax_spec in Harg as (vk & Hvk & Hmax).
  rewrite list_lookup_fmap in Hvk.
  match type of Hent with _ = Some ?l => set (z := l) in * end.
  destruct (z !! k') as [e'|] eqn:He'; [|done]. simpl in Hvk.
  injection Hvk as <-.
  destruct (lookup_lt_is_Some_2 z k) as [e Hek].
  { unfold z. rewrite !length_fmap.
    destruct Hwf as [_ Hcs].
    by pose proof (Forall_lookup_1 _ _ _ _ Hcs Hcb) as [-> _]. }
  apply (Hmono b c k' k e' e).
  - rewrite Hent. done.
  - rewrite Hent. done.
  - eapply Forall_lookup_1 in Hmax.
    2:{ rewrite list_lookup_fmap, Hek. done. }
    simpl in Hmax. lra.
Qed.

Lemma deterministic_choice_is_mode_witness :
  (wf q_overshoot ∧ 0 < 1 ∧ 0 < num_codebooks q_overshoot ∧
   shape2 1 (dim q_overshoot) [[2%R]] ∧
   shape2 1 (num_codebooks q_overshoot) [[0; 0]] ∧
   in_range (codebook_size q_overshoot) [[0; 0]]) ∧
  ∃ errs new d el fe rl,
    modified_sumsq_errs q_overshoot [[2%R]] [[0; 0]] = Ok errs ∧
    refine_indexes q_overshoot [[2%R]] [[0; 0]] = Ok new ∧
    refine_indexes_stochastic q_overshoot (input_tensor [[2%R]] true) [[0; 0]]
    = Ok (d, el, fe, rl) ∧
    let P b c k :=
      prob (λ new', match new' !! b ≫= (.!! c) with
                    | Some a => bool_decide (a = k)
                    | None => false
                    end) d in
    (∀ b c k1 k2 e1 e2,
       (errs !! b ≫= (.!! c)) ≫= (.!! k1) = Some e1 →
       (errs !! b ≫= (.!! c)) ≫= (.!! k2) = Some e2 →
       (e1 <= e2)%R → (P b c k2 <= P b c k1)%R) ∧
    (∀ b c nrow k' k, new !! b = Some nrow → nrow !! c = Some k' →
       k < codebook_size q_overshoot → (P b c k <= P b c k')%R).
Proof.
  assert (wf q_overshoot ∧ 0 < 1 ∧ 0 < num_codebooks q_overshoot ∧
          shape2 1 (dim q_overshoot) [[2%R]] ∧
          shape2 1 (num_codebooks q_overshoot) [[0; 0]] ∧
          in_range (codebook_size q_overshoot) [[0; 0]]) as H by shape_facts.
  split; [exact H|]. destruct H as (H1 & H2 & H3 & H4 & H5 & H6).
  exact (deterministic_choice_is_mode q_overshoot [[2%R]] true [[0; 0]] 1
           H1 H2 H3 H4 H5 H6).
Defined.

(** ** The stochastic step: the range of the losses *)












Lemma class_entropy_row_upper (p : list R) :
  Forall (λ v, 0 <= v)%R p → Rsum p = 1%R →
  (Rsum ((λ v, v * ln (v + eps))%R <$> p) <= ln (1 + eps))%R.
Proof.
  intros Hp Hsum. pose proof eps_pos as He.
  transitivity (Rsum ((λ v, ln (1 + eps) * v + 0)%R <$> p)).
  - apply Rsum_fmap_le, Forall_forall. intros v Hv.
    pose proof (elem_le_Rsum p v Hp Hv) as Hle. rewrite Hsum in Hle.
    apply list_elem_of_lookup in Hv as [i Hi].
    pose proof (Forall_lookup_1 _ _ _ _ Hp Hi) as H0. simpl in H0.
    assert (ln (v + eps) <= ln (1 + eps))%R as Hln.
    { destruct Hle as [Hlt| ->]; [|lra].
      apply Rlt_le, ln_increasing; lra. }
    nra.
  - rewrite (Rsum_fmap_affine _ _ (λ v, v)), list_fmap_id, Hsum. lra.
Qed.

(** X19: on a non-empty batch the batch average of the selection
    probabilities is, for every codebook, a probability vector over the
    codebook_size candidates, and [entropy_loss] is a finite number not
    larger than log(codebook_size) + log(1 + 1e-20). *)
Theorem entropy_loss_upper_bound q xs g indexes B :
  wf q → 0 < B → 0 < num_codebooks q →
  shape2 B (dim q) xs → shape2 B (num_codebooks q) indexes →
  in_range (codebook_size q) indexes →
  ∃ errs d el fe rl A v,
    tracked_modified_sumsq_errs q (input_tensor xs g) indexes = Ok errs ∧
    refine_indexes_stochastic q (input_tensor xs g) indexes
    = Ok (d, el, fe, rl) ∧
    data (avg_probs q errs) = Finite A ∧ length A = num_codebooks q ∧
    Forall (λ row, length row = codebook_size q ∧
                   Forall (λ p, 0 <= p)%R row ∧ Rsum row = 1%R) A ∧
    data el = Finite v ∧
    (v <= ln (INR (codebook_size q)) + ln (1 + eps))%R.
Proof.
  intros Hwf HB HC [Hxs _] Hi Hrange.
  destruct (refine_indexes_stochastic_shape q xs g B Hwf Hxs HB HC indexes
              Hi Hrange) as (HK & errs & Hshape & Ht & Hr).
  pose proof (shape3_tscale _ _ _ _
                (- exp (10 * frame_entropy_scale q))%R Hshape) as HZ.
  destruct (prob_vectors_softmax _ _ _ _ HK HZ) as [HP Hprob].
  destruct (mean_dim0_rows _ _ _ _ HB HP Hprob) as (A & HA & LA & Hrows).
  destruct (fmean_bounds
              ((λ row, Rsum ((λ v, v * ln (v + eps))%R <$> row)) <$> A)
              (ln (/ INR (codebook_size q) + eps)) (ln (1 + eps)))
    as (m & Hm & Hlo & Hhi).
  { destruct A; [simpl in LA; lia|done]. }
  { apply Forall_fmap. eapply Forall_weaken; [exact Hrows|].
    intros row (Lr & Hnn & H1). simpl. split.
    - by destruct (class_entropy_row _ row HK Lr Hnn H1) as [? _].
    - by apply class_entropy_row_upper. }
  assert (data (avg_probs q errs) = Finite A) as HA' by exact HA.
  exists errs. eexists _, _, _, _, A, (ln (INR (codebook_size q)) + m)%R.
  split; [done|]. split; [exact Hr|]. split; [done|]. split; [done|].
  split; [done|]. split; [|lra].
  unfold class_entropy. rewrite !data_op1, HA'. simpl.
  rewrite Hm. simpl. f_equal. lra.
Qed.

Lemma entropy_loss_upper_bound_witness :
  (wf q_overshoot ∧ 0 < 1 ∧ 0 < num_codebooks q_overshoot ∧
   shape2 1 (dim q_overshoot) [[2%R]] ∧
   shape2 1 (num_codebooks q_overshoot) [[0; 0]] ∧
   in_range (codebook_size q_overshoot) [[0; 0]]) ∧
  ∃ errs d el fe rl A v,
    tracked_modified_sumsq_errs q_overshoot (input_tensor [[2%R]] true) [[0; 0]]
    = Ok errs ∧
    refine_indexes_stochastic q_overshoot (input_tensor [[2%R]] true) [[0; 0]]
    = Ok (d, el, fe, rl) ∧
    data (avg_probs q_overshoot errs) = Finite A ∧
    length A = num_codebooks q_overshoot ∧
    Forall (λ row, length row = codebook_size q_overshoot ∧
                   Forall (λ p, 0 <= p)%R row ∧ Rsum row = 1%R) A ∧
    data el = Finite v ∧
    (v <= ln (INR (codebook_size q_overshoot)) + ln (1 + eps))%R.
Proof.
  assert (wf q_overshoot ∧ 0 < 1 ∧ 0 < num_codebooks q_overshoot ∧
          shape2 1 (dim q_overshoot) [[2%R]] ∧
          shape2 1 (num_codebooks q_overshoot) [[0; 0]] ∧
          in_range (codebook_size q_overshoot) [[0; 0]]) as H by shape_facts.
  split; [exact H|]. destruct H as (H1 & H2 & H3 & H4 & H5 & H6).
  exact (entropy_loss_upper_bound q_overshoot [[2%R]] true [[0; 0]] 1
           H1 H2 H3 H4 H5 H6).
Defined.

(** ** forward: failures and outcomes *)





(** X21: the loss terms that [forward] returns keep the gradient paths of
    the stochastic step: in every outcome of a call with at least one
    iteration on a non-empty batch, [frame_entropy] reaches the parameter
    [frame_entropy_scale] only, and [entropy_loss] and
    [reconstruction_loss] reach [centers] (and the input, if it requires a
    gradient) but not [frame_entropy_scale]. *)
Theorem forward_gradient_paths q xs g num_iters :
  wf q → Forall (λ row, length row = dim q) xs →
  0 < length xs → 0 < num_codebooks q → 2 ≤ codebook_size q → 1 ≤ num_iters →
  ∀ r, r ∈ support (forward q (input_tensor xs g) num_iters) →
    ∃ indexes entropy_loss frame_entropy reconstruction_loss,
      r = Ok (indexes, entropy_loss, frame_entropy, reconstruction_loss) ∧
      leaves frame_entropy = mkLeaves false true false ∧
      leaves entropy_loss = mkLeaves true false g ∧
      leaves reconstruction_loss = mkLeaves true false g.
Proof.
  intros Hwf Hx HB HC HK Hn r Hin.
  destruct (forward_outcomes q xs g (length xs) Hwf eq_refl HB HC num_iters r
              Hx HK Hn Hin)
    as (idx & el & fe & rl & -> & idx0 & d & _ & Hr0 & Hstep).
  exists idx, el, fe, rl. split; [done|].
  destruct (refine_indexes_stochastic_Ok q xs g idx0 Hwf Hr0 ltac:(lia))
    as (errs & _ & _ & Hl & Heq).
  rewrite Heq in Hstep. injection Hstep as _ <- <- <-.
  simpl. rewrite Hl. simpl. by destruct g.
Qed.

Lemma forward_gradient_paths_witness :
  (wf q_balanced ∧ Forall (λ row, length row = dim q_balanced) [[1%R; 1%R]] ∧
   0 < length [[1%R; 1%R]] ∧ 0 < num_codebooks q_balanced ∧
   2 ≤ codebook_size q_balanced ∧ 1 ≤ 4) ∧
  ∀ r, r ∈ support (forward q_balanced (input_tensor [[1%R; 1%R]] true) 4) →
    ∃ indexes entropy_loss frame_entropy reconstruction_loss,
      r = Ok (indexes, entropy_loss, frame_entropy, reconstruction_loss) ∧
      leaves frame_entropy = mkLeaves false true false ∧
      leaves entropy_loss = mkLeaves true false true ∧
      leaves reconstruction_loss = mkLeaves true false true.
Proof.
  assert (wf q_balanced ∧
          Forall (λ row, length row = dim q_balanced) [[1%R; 1%R]] ∧
          0 < length [[1%R; 1%R]] ∧ 0 < num_codebooks q_balanced ∧
          2 ≤ codebook_size q_balanced ∧ 1 ≤ 4) as H by shape_facts.
  split; [exact H|]. destruct H as (H1 & H2 & H3 & H4 & H5 & H6).
  exact (forward_gradient_paths q_balanced [[1%R; 1%R]] true 4
           H1 H2 H3 H4 H5 H6).
Defined.
